(** * jsPriorityQueue: a k-ary min-heap priority queue (src/src/PriorityQueue.ts)

    Shallow embedding of the TypeScript class [PriorityQueue<T>] and
    verification of its specification.

    Conventions of the embedding.
    - A JavaScript array is a list of cells; a cell is a hole or stores a
      value, and the stored value may be [undefined] ([None]).  Reading a
      hole or past the end gives [undefined]; writing past the end extends
      the array with holes.
    - Priorities are integer-valued numbers, embedded as [Z]; every integer
      of magnitude up to 2^53 is an exact double, and on those the
      comparisons of JavaScript are the comparisons of [Z].  The class
      never computes with a priority: it copies priorities and compares
      them with each other and with the sentinel [Number.MAX_SAFE_INTEGER].
    - The branching factor [_k] is a positive integer (the model of
      [Math.floor(x / k)] is the quotient of [nat], meaningful for
      [1 <= k]); statements that involve the division carry [1 <= k].
    - A [throw] is a completion [Throw e] that is returned together with the
      state at the point of the throw.
    - Loops whose number of turns is not fixed beforehand run on fuel; for
      each a lemma shows that the fuel handed over is never used up
      ([restoreDown_loop_fuel], [restoreUp_loop_fuel], [drain_loop_fuel]). *)

From stdpp Require Import strings.
From stdpp Require Import base numbers list sorting gmap.


(** ** JavaScript arrays *)

Inductive cell (A : Type) : Type :=
| hole
| stored (v : option A).
Arguments hole {A}.
Arguments stored {A} v.

Abbreviation js_array A := (list (cell A)).

(** [a[i]] as an expression. *)
Definition js_get {A} (a : js_array A) (i : nat) : option A :=
  match a !! i with
  | Some (stored v) => v
  | _ => None
  end.

(** [a[i] = v] as a statement. *)
Definition js_set {A} (a : js_array A) (i : nat) (v : option A) : js_array A :=
  if decide (i < length a) then <[i := stored v]> a
  else a ++ replicate (i - length a) hole ++ [stored v].

(** [Number.MAX_SAFE_INTEGER], 2^53 - 1. *)
Definition MAX_SAFE_INTEGER : Z := 9007199254740991.

(** [x < y] on numbers that may be [undefined]: false when either side is. *)
Definition js_lt (x y : option Z) : bool :=
  match x, y with
  | Some a, Some b => (a <? b)%Z
  | _, _ => false
  end.

Definition js_gt (x y : option Z) : bool := js_lt y x.

Definition js_le (x y : option Z) : bool :=
  match x, y with
  | Some a, Some b => (a <=? b)%Z
  | _, _ => false
  end.

(** ** src/src/InvalidOperationException.ts *)

Record InvalidOperationException : Type := mkException {
  name : string;
  message : string
}.

Definition new_InvalidOperationException (msg : string) : InvalidOperationException :=
  {| name := "InvalidOperationExcenption"%string; message := msg |}.

(** Completion of a method call: a returned value or a thrown exception. *)
Inductive completion (A : Type) : Type :=
| Return (v : A)
| Throw (e : InvalidOperationException).
Arguments Return {A} v.
Arguments Throw {A} e.

(** ** src/src/IElementPriorityPair.ts *)

Record IElementPriorityPair (T : Type) : Type := Pair {
  element : T;
  priority : Z
}.
Arguments Pair {T} element priority.
Arguments element {T} _.
Arguments priority {T} _.

(** ** src/src/PriorityQueue.ts *)

(** The private fields of the class.  [_heap] is the flat array of the
    source: cell [i*2] is the priority of heap position [i] and cell
    [i*2+1] the link to its element in [_elems].  Odd cells only ever
    receive array indexes, which are stored as non-negative integers.
    [_elems_undefined] is the property of the array object [_elems] that is
    named "undefined": it is what [_elems[x]] reads and writes when the
    link [x] read from [_heap] is [undefined]. *)
Record PriorityQueue (T : Type) : Type := mkQueue {
  _heap : js_array Z;
  _k : nat;
  _heap_size : nat;
  _elems : js_array T;
  _elems_undefined : option T;
  _elems_size : nat;
  _exited_indexes : js_array nat;
  _exited_indexes_count : nat
}.
Arguments mkQueue {T}.
Arguments _heap {T} _.
Arguments _k {T} _.
Arguments _heap_size {T} _.
Arguments _elems {T} _.
Arguments _elems_undefined {T} _.
Arguments _elems_size {T} _.
Arguments _exited_indexes {T} _.
Arguments _exited_indexes_count {T} _.

(** [_heap[i*2]] and [_heap[i*2+1]]. *)
Definition heap_prio (h : js_array Z) (i : nat) : option Z := js_get h (i * 2).
Definition heap_link (h : js_array Z) (i : nat) : option nat :=
  Z.to_nat <$> js_get h (i * 2 + 1).

(** The two destructuring assignments that exchange heap positions [i] and
    [j]: the right-hand sides are read before either cell is written. *)
Definition heap_swap (h : js_array Z) (i j : nat) : js_array Z :=
  let h1 := js_set (js_set h (i * 2) (js_get h (j * 2))) (j * 2) (js_get h (i * 2)) in
  js_set (js_set h1 (i * 2 + 1) (js_get h1 (j * 2 + 1))) (j * 2 + 1) (js_get h1 (i * 2 + 1)).

(** One turn of the second [for] loop of [_restoreDown]: child number [i]
    of [index] replaces the running minimum when it lies inside the heap
    and its priority is strictly smaller (an [undefined] priority never
    is).  JavaScript arrays hold fewer than 2^32 entries, so a child index
    inside the heap never equals the sentinel [MAX_SAFE_INTEGER]. *)
Definition min_child_step (h : js_array Z) (k heap_size index : nat)
    (acc : Z * nat) (i : nat) : Z * nat :=
  if decide (k * index + i < heap_size) then
    match heap_prio h (k * index + i) with
    | Some p => if (p <? acc.1)%Z then (p, k * index + i) else acc
    | None => acc
    end
  else acc.

(** [(min_child, min_child_index)] after the loop over [i = 1 .. k]. *)
Definition min_child_scan (h : js_array Z) (k heap_size index : nat) : Z * nat :=
  foldl (min_child_step h k heap_size index) (MAX_SAFE_INTEGER, 0) (seq 1 k).

(** The [while (true)] loop of [_restoreDown].  Every turn either breaks or
    moves [index] to a child inside the heap, so [heap_size] turns are
    enough (lemma [restoreDown_loop_fuel]). *)
Fixpoint restoreDown_loop (fuel : nat) (k heap_size : nat) (h : js_array Z)
    (index : nat) : js_array Z :=
  match fuel with
  | 0 => h
  | S fuel' =>
    let '(min_child, min_child_index) := min_child_scan h k heap_size index in
    if decide (min_child = MAX_SAFE_INTEGER) then h
    else
      let h' :=
        if js_gt (heap_prio h index) (heap_prio h min_child_index)
        then heap_swap h index min_child_index
        else h in
      restoreDown_loop fuel' k heap_size h' min_child_index
  end.

(** The [while (parent >= 0)] loop of [_restoreUp]; [index = 0] has parent
    [Math.floor(-1 / k) = -1].  Every turn breaks or moves [index] to its
    parent, so [index] turns are enough (lemma [restoreUp_loop_fuel]). *)
Fixpoint restoreUp_loop (fuel : nat) (k : nat) (h : js_array Z) (index : nat)
    : js_array Z :=
  match fuel with
  | 0 => h
  | S fuel' =>
    match index with
    | 0 => h
    | S i' =>
      let parent := i' / k in
      if js_lt (heap_prio h index) (heap_prio h parent)
      then restoreUp_loop fuel' k (heap_swap h index parent) parent
      else h
    end
  end.

Section Queue.
Context {T : Type}.

Implicit Types (q : PriorityQueue T) (elem : T) (priority : Z).

Definition set_heap q (h : js_array Z) : PriorityQueue T :=
  mkQueue h (_k q) (_heap_size q) (_elems q) (_elems_undefined q) (_elems_size q)
          (_exited_indexes q) (_exited_indexes_count q).

(** [this._elems[x]] for a link [x] that may be [undefined]. *)
Definition elems_get q (x : option nat) : option T :=
  match x with
  | Some i => js_get (_elems q) i
  | None => _elems_undefined q
  end.

(** [this._elems[x] = elem]. *)
Definition elems_set q (x : option nat) elem : PriorityQueue T :=
  match x with
  | Some i =>
    mkQueue (_heap q) (_k q) (_heap_size q) (js_set (_elems q) i (Some elem))
            (_elems_undefined q) (_elems_size q)
            (_exited_indexes q) (_exited_indexes_count q)
  | None =>
    mkQueue (_heap q) (_k q) (_heap_size q) (_elems q)
            (Some elem) (_elems_size q)
            (_exited_indexes q) (_exited_indexes_count q)
  end.

(** [get count()] *)
Definition count q : nat := _heap_size q.

(** The [Set] built from [_exited_indexes.slice(0, _exited_indexes_count)];
    only its numeric members matter to [has(i)]. *)
Definition exited_set q : gset nat :=
  list_to_set
    (omap (λ c, match c with stored (Some j) => Some j | _ => None end)
          (take (_exited_indexes_count q) (_exited_indexes q))).

(** [get unorderedItems()]: [forEach] visits the cells that are not holes. *)
Definition unorderedItems q : list (option T) :=
  omap id
    (imap (λ i c,
             match c with
             | stored v => if decide (i ∈ exited_set q) then None else Some v
             | hole => None
             end)
          (_elems q)).

Definition _restoreDown (index : nat) q : PriorityQueue T :=
  set_heap q (restoreDown_loop (_heap_size q) (_k q) (_heap_size q) (_heap q) index).

Definition _restoreUp (index : nat) q : PriorityQueue T :=
  set_heap q (restoreUp_loop index (_k q) (_heap q) index).

(** The first [for] loop of the constructor, from [i] on. *)
Fixpoint constructor_load (i : nat) (range : list (IElementPriorityPair T))
    (h : js_array Z) (e : js_array T) : js_array Z * js_array T :=
  match range with
  | [] => (h, e)
  | item :: rest =>
    let h1 := js_set h (i * 2) (Some (priority item)) in
    let h2 := js_set h1 (i * 2 + 1) (Some (Z.of_nat i)) in
    let e1 := js_set e i (Some (element item)) in
    constructor_load (S i) rest h2 e1
  end.

(** [for (let i = start; i >= 0; i--) this._restoreDown(i)], from [i] on. *)
Fixpoint sweep_from (i : nat) q : PriorityQueue T :=
  let q' := _restoreDown i q in
  match i with
  | 0 => q'
  | S j => sweep_from j q'
  end.

(** The whole loop, with [start = Math.floor((this._heap_size - 1) / k)];
    for an empty heap [start] is [-1] and the body never runs. *)
Definition heapify_sweep q : PriorityQueue T :=
  match _heap_size q with
  | 0 => q
  | S m => sweep_from (m / _k q) q
  end.

Definition constructor (range : list (IElementPriorityPair T)) (k : nat)
    : PriorityQueue T :=
  let '(h, e) := constructor_load 0 range [] [] in
  heapify_sweep (mkQueue h k (length range) e None (length range) [] 0).

Definition _addElem elem q : option nat * PriorityQueue T :=
  if decide (0 < _exited_indexes_count q) then
    let c := _exited_indexes_count q - 1 in
    let index := js_get (_exited_indexes q) c in
    (index,
     elems_set (mkQueue (_heap q) (_k q) (_heap_size q) (_elems q) (_elems_undefined q)
                        (_elems_size q) (_exited_indexes q) c) index elem)
  else
    let index := Some (_elems_size q) in
    (index,
     elems_set (mkQueue (_heap q) (_k q) (_heap_size q) (_elems q) (_elems_undefined q)
                        (S (_elems_size q)) (_exited_indexes q) (_exited_indexes_count q))
               index elem).

Definition clear q : PriorityQueue T :=
  mkQueue [] (_k q) 0 [] None 0 [] 0.

(** The loop of [shrink], from [i] on, on the new arrays [heap] and [elems]. *)
Fixpoint shrink_copy q (n i : nat) (heap : js_array Z) (elems : js_array T)
    : js_array Z * js_array T :=
  match n with
  | 0 => (heap, elems)
  | S n' =>
    let heap1 := js_set heap (i * 2) (heap_prio (_heap q) i) in
    let elems1 := js_set elems i (elems_get q (heap_link (_heap q) i)) in
    let heap2 := js_set heap1 (i * 2 + 1) (Some (Z.of_nat i)) in
    shrink_copy q n' (S i) heap2 elems1
  end.

Definition shrink q : PriorityQueue T :=
  let '(heap, elems) := shrink_copy q (_heap_size q) 0 [] [] in
  mkQueue heap (_k q) (_heap_size q) elems None (_heap_size q) [] 0.

Definition enqueue elem priority q : PriorityQueue T :=
  let '(index, q1) := _addElem elem q in
  let h1 := js_set (_heap q1) (_heap_size q1 * 2) (Some priority) in
  let h2 := js_set h1 (_heap_size q1 * 2 + 1) (Z.of_nat <$> index) in
  let q2 := mkQueue h2 (_k q1) (S (_heap_size q1)) (_elems q1) (_elems_undefined q1)
                    (_elems_size q1) (_exited_indexes q1) (_exited_indexes_count q1) in
  _restoreUp (_heap_size q2 - 1) q2.

Definition empty_error : InvalidOperationException :=
  new_InvalidOperationException "The queue is empty."%string.

Definition dequeue q : completion (option T) * PriorityQueue T :=
  if decide (_heap_size q = 0) then (Throw empty_error, q)
  else
    let max := heap_link (_heap q) 0 in
    let heap_size := _heap_size q - 1 in
    let exited := js_set (_exited_indexes q) (_exited_indexes_count q) max in
    let h1 := js_set (_heap q) 0 (js_get (_heap q) (heap_size * 2)) in
    let h2 := js_set h1 1 (js_get h1 (heap_size * 2 + 1)) in
    let q1 := mkQueue h2 (_k q) heap_size (_elems q) (_elems_undefined q)
                      (_elems_size q) exited (S (_exited_indexes_count q)) in
    let q2 := _restoreDown 0 q1 in
    (Return (elems_get q2 max), q2).

Definition peek q : completion (option T) * PriorityQueue T :=
  if decide (_heap_size q = 0) then (Throw empty_error, q)
  else (Return (elems_get q (heap_link (_heap q) 0)), q).

(** The statements shared by [enqueueDequeue] (its [else] branch) and
    [dequeueEnqueue]: the root's element and priority are replaced. *)
Definition replace_root elem priority q : option T * PriorityQueue T :=
  let result := elems_get q (heap_link (_heap q) 0) in
  let q1 := set_heap q (js_set (_heap q) 0 (Some priority)) in
  let q2 := elems_set q1 (heap_link (_heap q1) 0) elem in
  (result, _restoreDown 0 q2).

Definition enqueueDequeue elem priority q : completion (option T) * PriorityQueue T :=
  if js_le (Some priority) (js_get (_heap q) 0) then (Return (Some elem), q)
  else
    let '(result, q') := replace_root elem priority q in
    (Return result, q').

Definition dequeueEnqueue elem priority q : completion (option T) * PriorityQueue T :=
  if decide (_heap_size q = 0) then (Throw empty_error, q)
  else
    let '(result, q') := replace_root elem priority q in
    (Return result, q').

(** [range.length < this._heap_size / Math.log2(this._heap_size)].
    For [_heap_size = 0] the quotient is [0 / -Infinity = -0] and the test
    fails for every length; for [_heap_size = 1] it is [1 / 0 = Infinity]
    and the test succeeds; for [_heap_size >= 2] the logarithm is positive
    and [len < n / log2 n] is [len * log2 n < n], that is [n ^ len < 2 ^ n]. *)
Definition below_log_threshold (len heap_size : nat) : bool :=
  match heap_size with
  | 0 => false
  | 1 => true
  | _ => bool_decide (heap_size ^ len < 2 ^ heap_size)
  end.

(** The first [for] loop of the [else] branch of [enqueueRange], from [i] on;
    [_heap_size] does not change while it runs. *)
Fixpoint enqueueRange_load (i : nat) (range : list (IElementPriorityPair T)) q
    : PriorityQueue T :=
  match range with
  | [] => q
  | item :: rest =>
    let '(index, q1) := _addElem (element item) q in
    let h1 := js_set (_heap q1) ((_heap_size q1 + i) * 2) (Some (priority item)) in
    let h2 := js_set h1 ((_heap_size q1 + i) * 2 + 1) (Z.of_nat <$> index) in
    enqueueRange_load (S i) rest (set_heap q1 h2)
  end.

(** [range.forEach(pair => this.enqueue(pair.element, pair.priority))] *)
Definition enqueue_all (range : list (IElementPriorityPair T)) q : PriorityQueue T :=
  foldl (λ q' item, enqueue (element item) (priority item) q') q range.

Definition enqueueRange (range : list (IElementPriorityPair T)) q : PriorityQueue T :=
  if below_log_threshold (length range) (_heap_size q) then enqueue_all range q
  else heapify_sweep (enqueueRange_load 0 range q).

End Queue.

(** ** src/tests/priorityQueue.test.ts *)

(** The helper [arrayEquals(a, b)] of the tests:
    [a.length === b.length && a.every((val, index) => val === b[index])].
    [every] calls its predicate on the cells of [a] that are not holes;
    [===] is the equality of the values, which are primitive values other
    than [NaN] (or [undefined]). *)
Definition arrayEquals {A} `{EqDecision A} (a b : js_array A) : bool :=
  bool_decide (length a = length b) &&
  forallb (λ r : bool, r)
    (imap (λ index c,
             match c with
             | stored val => bool_decide (val = js_get b index)
             | hole => true
             end) a).

(** * Specification *)

(** Parent of heap position [i] (for [0 < i]): [floor((i - 1) / k)]. *)
Definition parent (k i : nat) : nat := (i - 1) / k.

(** The pair stored at heap position [i], and the first [n] of them. *)
Definition slot (h : js_array Z) (i : nat) : option Z * option nat :=
  (heap_prio h i, heap_link h i).
Definition slots (h : js_array Z) (n : nat) : list (option Z * option nat) :=
  slot h <$> seq 0 n.

(** The priority at position [i] as a number ([0] where it is undefined;
    only used under [prio_ok]). *)
Definition pr (h : js_array Z) (i : nat) : Z := default 0%Z (heap_prio h i).

(** Every position of the logical heap holds a priority, and that priority
    is below the sentinel of [_restoreDown]. *)
Definition prio_ok (h : js_array Z) (n : nat) : Prop :=
  ∀ i, i < n → ∃ p, heap_prio h i = Some p ∧ (p < MAX_SAFE_INTEGER)%Z.

(** The heap order on the positions whose parent is at least [lo]. *)
Definition ordered_from (k : nat) (h : js_array Z) (n lo : nat) : Prop :=
  ∀ i, 0 < i < n → lo ≤ parent k i → (pr h (parent k i) ≤ pr h i)%Z.

(** The exchange of two positions, as a function on positions. *)
Definition transpose (i j x : nat) : nat :=
  if decide (x = j) then i else if decide (x = i) then j else x.

(** The indexes on which the sweep [for (i = start; i >= 0; i--)] calls
    [_restoreDown], in the order of the calls, from [i] on and for the whole
    loop with [start = floor((heap_size - 1) / k)]. *)
Fixpoint sweep_indexes (i : nat) : list nat :=
  i :: match i with
       | 0 => []
       | S j => sweep_indexes j
       end.

Definition heapify_indexes (heap_size k : nat) : list nat :=
  match heap_size with
  | 0 => []
  | S m => sweep_indexes (m / k)
  end.

(** A position is an internal node of a heap of [n] pairs when its first
    child lies inside the heap. *)
Definition internal_node (k n i : nat) : Prop := k * i + 1 < n.

(** The sweep as the specification words it: from the last non-leaf
    [floor((n - 2) / k)] down to the root ([n <= 1] has no non-leaf). *)
Definition spec_heapify_indexes (n k : nat) : list nat :=
  if decide (n ≤ 1) then [] else sweep_indexes ((n - 2) / k).

Section QueueSpec.
Context {T : Type}.
Implicit Types (q : PriorityQueue T).

(** The min-heap property on the logical heap: every position [i] with
    [0 < i < heapSize] holds a priority that is at least the priority held
    at its parent [floor((i - 1) / k)]. *)
Definition min_heap_property q : Prop :=
  ∀ i, 0 < i < _heap_size q →
    ∃ pp pi, heap_prio (_heap q) (parent (_k q) i) = Some pp ∧
             heap_prio (_heap q) i = Some pi ∧ (pp ≤ pi)%Z.

(** The invariant of the heap index: a positive branching factor,
    priorities below the sentinel, and the heap order. *)
Definition heap_inv q : Prop :=
  1 ≤ _k q ∧ prio_ok (_heap q) (_heap_size q) ∧
  ordered_from (_k q) (_heap q) (_heap_size q) 0.

(** The (element, priority) pair that heap position [i] stands for, and the
    pairs of the whole logical heap: the enqueued pairs. *)
Definition entry q (i : nat) : option T * option Z :=
  (elems_get q (heap_link (_heap q) i), heap_prio (_heap q) i).
Definition entries q : list (option T * option Z) :=
  entry q <$> seq 0 (_heap_size q).

Definition entry_of (item : IElementPriorityPair T) : option T * option Z :=
  (Some (element item), Some (priority item)).

(** The invariant that ties the heap index to the element store and the
    stack of freed indexes: links of the logical heap are distinct, inside
    the store and not freed; freed indexes are distinct and inside the
    store; the store has [_elems_size] cells, none of them a hole. *)
Definition store_inv q : Prop :=
  (∀ i, i < _heap_size q →
     ∃ l, heap_link (_heap q) i = Some l ∧ l < _elems_size q ∧ l ∉ exited_set q) ∧
  NoDup (heap_link (_heap q) <$> seq 0 (_heap_size q)) ∧
  (∀ j, j < _exited_indexes_count q →
     ∃ x, js_get (_exited_indexes q) j = Some x ∧ x < _elems_size q) ∧
  NoDup (js_get (_exited_indexes q) <$> seq 0 (_exited_indexes_count q)) ∧
  length (_elems q) = _elems_size q ∧
  (∀ i, i < _elems_size q → ∃ e, _elems q !! i = Some (stored (Some e))).

(** Every link held anywhere in the heap array, also behind the logical
    heap, points inside the element store. *)
Definition links_bounded q : Prop :=
  ∀ i l, heap_link (_heap q) i = Some l → l < _elems_size q.

(** The invariant of the element store through all public operations. *)
Definition queue_inv q : Prop := store_inv q ∧ links_bounded q.

(** [n] calls of [dequeue] in a row: their completions and the final state. *)
Fixpoint dequeue_times (n : nat) q : list (completion (option T)) * PriorityQueue T :=
  match n with
  | 0 => ([], q)
  | S n' =>
    let '(r, q1) := dequeue q in
    let '(rs, q2) := dequeue_times n' q1 in
    (r :: rs, q2)
  end.

(** [while (queue.count != 0) res.push(queue.dequeue())]; every turn lowers
    [count], so [count q] turns are enough (lemma [drain_loop_fuel]). *)
Fixpoint drain_loop (fuel : nat) q : list (option T) :=
  match fuel with
  | 0 => []
  | S fuel' =>
    if decide (count q = 0) then []
    else
      match dequeue q with
      | (Return r, q') => r :: drain_loop fuel' q'
      | (Throw _, _) => []
      end
  end.
Definition drain q : list (option T) := drain_loop (count q) q.

(** The public operations that can change the state (the accessors [count]
    and [unorderedItems] only read it), and the state after a call. *)
Inductive operation : Type :=
| op_enqueue (elem : T) (priority : Z)
| op_dequeue
| op_peek
| op_enqueueDequeue (elem : T) (priority : Z)
| op_dequeueEnqueue (elem : T) (priority : Z)
| op_enqueueRange (range : list (IElementPriorityPair T))
| op_clear
| op_shrink.

Definition perform (op : operation) q : PriorityQueue T :=
  match op with
  | op_enqueue elem priority => enqueue elem priority q
  | op_dequeue => (dequeue q).2
  | op_peek => (peek q).2
  | op_enqueueDequeue elem priority => (enqueueDequeue elem priority q).2
  | op_dequeueEnqueue elem priority => (dequeueEnqueue elem priority q).2
  | op_enqueueRange range => enqueueRange range q
  | op_clear => clear q
  | op_shrink => shrink q
  end.

Definition run (ops : list operation) q : PriorityQueue T :=
  foldl (λ q' op, perform op q') q ops.

(** The priorities that a call hands to the queue. *)
Definition op_priorities (op : operation) : list Z :=
  match op with
  | op_enqueue _ priority | op_enqueueDequeue _ priority
  | op_dequeueEnqueue _ priority => [priority]
  | op_enqueueRange range => priority <$> range
  | _ => []
  end.

Definition below_sentinel (p : Z) : Prop := (p < MAX_SAFE_INTEGER)%Z.

(** What [forEach] collects from the cells of an array when the indexes
    selected by [ex] are skipped ([unorderedItems] is the instance of the
    element store and the freed indexes, lemma [unorderedItems_visible]). *)
Definition cell_item (skip : bool) (c : cell T) : list (option T) :=
  match c with
  | stored v => if skip then [] else [v]
  | hole => []
  end.

Definition visible (ex : nat → bool) (elems : js_array T) : list (option T) :=
  omap id (imap (λ i c, match c with
                        | stored v => if ex i then None else Some v
                        | hole => None
                        end) elems).

(** The elements of the enqueued pairs. *)
Definition enqueued_elements q : list (option T) := fst <$> entries q.

(** [enqueueRange] does not take its bulk path in a run of operations. *)
Definition no_bulk_step (op : operation) q : Prop :=
  match op with
  | op_enqueueRange range => below_log_threshold (length range) (count q) = true
  | _ => True
  end.

Fixpoint no_bulk_run (ops : list operation) q : Prop :=
  match ops with
  | [] => True
  | op :: ops' => no_bulk_step op q ∧ no_bulk_run ops' (perform op q)
  end.

(** The state of the constructor after its loading loop, before the sweep. *)
Definition constructor_loaded (range : list (IElementPriorityPair T)) (k : nat)
    : PriorityQueue T :=
  let '(h, e) := constructor_load 0 range [] [] in
  mkQueue h k (length range) e None (length range) [] 0.

(** Two states that [dequeue] cannot tell apart: the same branching factor
    and size, and at every position of the logical heap the same priority
    and the same element behind the link. *)
Definition same_drain_view q q' : Prop :=
  _k q = _k q' ∧ _heap_size q = _heap_size q' ∧
  ∀ i, i < _heap_size q →
    heap_prio (_heap q) i = heap_prio (_heap q') i ∧
    elems_get q (heap_link (_heap q) i) = elems_get q' (heap_link (_heap q') i).

End QueueSpec.
Arguments operation T : clear implicits.

(** The pair at the root has a least priority among the enqueued pairs. *)
Definition root_is_minimum {T} (q : PriorityQueue T) : Prop :=
  ∀ x, x ∈ entries q →
    ∃ m p, heap_prio (_heap q) 0 = Some m ∧ x.2 = Some p ∧ (m ≤ p)%Z.

(** Draining [q] with [length range] calls of [dequeue] returns the
    elements of [range] in an order that sorts [range] by priority. *)
Definition drains_sorted {T} (range : list (IElementPriorityPair T))
    (q : PriorityQueue T) : Prop :=
  ∃ sorted,
    sorted ≡ₚ range ∧ Sorted Z.le (priority <$> sorted) ∧
    (dequeue_times (length range) q).1
    = (λ item, Return (Some (element item))) <$> sorted.

(** The input sorted by priority ascending, as the specification words
    the result of a drain: a stable insertion sort. *)
Fixpoint spec_insert_by_priority {T} (x : IElementPriorityPair T)
    (l : list (IElementPriorityPair T)) : list (IElementPriorityPair T) :=
  match l with
  | [] => [x]
  | y :: l' =>
    if (priority x <=? priority y)%Z then x :: l
    else y :: spec_insert_by_priority x l'
  end.

Definition spec_sort_by_priority {T} (range : list (IElementPriorityPair T))
    : list (IElementPriorityPair T) :=
  foldr spec_insert_by_priority [] range.

(** Inputs of the examples: the sequence of the specification's example,
    and sequences with priorities at and above the sentinel. *)
Definition example_range : list (IElementPriorityPair string) :=
  [Pair "a"%string 3%Z; Pair "b"%string (-1)%Z; Pair "c"%string 7%Z;
   Pair "d"%string 2%Z; Pair "e"%string 4%Z; Pair "f"%string 6%Z].

Definition sentinel_range : list (IElementPriorityPair string) :=
  [Pair "c"%string 5%Z; Pair "b"%string 9007199254740991%Z;
   Pair "a"%string 9007199254740992%Z].

Definition sentinel_child : list (IElementPriorityPair string) :=
  [Pair "a"%string 5%Z; Pair "b"%string 9007199254740991%Z].

Definition single_pair : list (IElementPriorityPair string) :=
  [Pair "a"%string 1%Z].

(** An empty queue that has held an element: [enqueue("a", 5)], [dequeue()]. *)
Definition drained_queue : PriorityQueue string :=
  (dequeue (enqueue "a"%string 5%Z (constructor [] 4))).2.

Definition example_operations : list (operation string) :=
  [op_enqueue "g"%string 0%Z; op_dequeue; op_peek;
   op_enqueueDequeue "h"%string 9%Z; op_dequeueEnqueue "i"%string 1%Z;
   op_enqueueRange example_range; op_shrink; op_dequeue; op_clear;
   op_enqueueDequeue "j"%string 2%Z; op_enqueueRange example_range;
   op_enqueue "k"%string 8%Z].

Definition sentinel_pair : list (IElementPriorityPair string) :=
  [Pair "a"%string 9007199254740992%Z; Pair "b"%string 9007199254740991%Z].

(** The queue of the example pairs, and a run of operations on it in which
    [enqueueRange] takes its one-at-a-time path. *)
Definition example_queue : PriorityQueue string := constructor example_range 4.

Definition steady_operations : list (operation string) :=
  [op_enqueue "g"%string 0%Z; op_dequeue; op_peek;
   op_enqueueDequeue "h"%string 9%Z; op_dequeueEnqueue "i"%string 1%Z;
   op_enqueueRange single_pair; op_shrink; op_dequeue; op_dequeue;
   op_enqueue "k"%string 8%Z].

(** Three pairs of which the last is out of order with the root. *)
Definition unsorted_tail : list (IElementPriorityPair string) :=
  [Pair "a"%string 1%Z; Pair "b"%string 2%Z; Pair "c"%string 0%Z].

(** [count] after a call of a public operation, from [count] before it. *)
Definition count_after {T} (op : operation T) (n : nat) : nat :=
  match op with
  | op_enqueue _ _ => S n
  | op_dequeue => n - 1
  | op_enqueueRange range =>
    if below_log_threshold (length range) n then n + length range else n
  | op_clear => 0
  | op_peek | op_enqueueDequeue _ _ | op_dequeueEnqueue _ _ | op_shrink => n
  end.

(** The cells of the element store are the live ones and the freed ones:
    [_elems_size] is [count] plus the height of the stack of freed indexes. *)
Definition balanced {T} (q : PriorityQueue T) : Prop :=
  _elems_size q = _heap_size q + _exited_indexes_count q.

(** * Verification *)

(** ** Lemmas on JavaScript arrays *)

Section JsArray.
Context {A : Type}.
Implicit Types (a : js_array A) (v : option A).

(** Reading after writing: the written cell holds the value, every other
    cell is unchanged (also when the write extended the array). *)
Lemma js_get_set a i j v :
  js_get (js_set a i v) j = if decide (i = j) then v else js_get a j.
Proof.
  unfold js_get, js_set.
  destruct (decide (i < length a)) as [Hlt|Hge].
  - destruct (decide (i = j)) as [->|Hne].
    + by rewrite list_lookup_insert_eq.
    + by rewrite list_lookup_insert_ne.
  - destruct (decide (j < length a)) as [Hj|Hj].
    + rewrite lookup_app_l by done.
      destruct (decide (i = j)); [lia | done].
    + rewrite lookup_app_r by lia.
      rewrite (lookup_ge_None_2 a j) by lia.
      destruct (decide (j - length a < i - length a)) as [Hin|Hout].
      * rewrite lookup_app_l by (rewrite length_replicate; lia).
        rewrite lookup_replicate_2 by done.
        destruct (decide (i = j)); [lia | done].
      * rewrite lookup_app_r by (rewrite length_replicate; lia).
        rewrite length_replicate.
        destruct (decide (i = j)) as [->|Hne].
        -- by rewrite Nat.sub_diag.
        -- rewrite lookup_ge_None_2; [done | simpl; lia].
Qed.

Lemma js_get_set_eq a i v : js_get (js_set a i v) i = v.
Proof. rewrite js_get_set. by destruct (decide (i = i)). Qed.

Lemma js_get_set_ne a i j v : i ≠ j → js_get (js_set a i v) j = js_get a j.
Proof. intros. rewrite js_get_set. by destruct (decide (i = j)). Qed.

Lemma js_set_length_lt a i v : i < length a → length (js_set a i v) = length a.
Proof.
  intros. unfold js_set. destruct (decide (i < length a)); [|lia].
  by rewrite length_insert.
Qed.

Lemma js_set_length_ge a i v : length a ≤ i → length (js_set a i v) = S i.
Proof.
  intros. unfold js_set. destruct (decide (i < length a)); [lia|].
  rewrite !length_app, length_replicate. simpl. lia.
Qed.

Lemma js_set_append a v : js_set a (length a) v = a ++ [stored v].
Proof.
  unfold js_set. destruct (decide (length a < length a)); [lia|].
  by rewrite Nat.sub_diag.
Qed.

Lemma js_get_ge a i : length a ≤ i → js_get a i = None.
Proof. intros. unfold js_get. by rewrite lookup_ge_None_2. Qed.

End JsArray.

(** ** The flat heap array seen through its positions *)

Section HeapCells.
Implicit Types (h : js_array Z) (v : option Z).

Lemma heap_prio_set_even h j v i :
  heap_prio (js_set h (j * 2) v) i = if decide (j = i) then v else heap_prio h i.
Proof.
  unfold heap_prio. rewrite js_get_set.
  destruct (decide (j * 2 = i * 2)), (decide (j = i)); (done || lia).
Qed.

Lemma heap_prio_set_odd h j v i :
  heap_prio (js_set h (j * 2 + 1) v) i = heap_prio h i.
Proof.
  unfold heap_prio. rewrite js_get_set.
  destruct (decide (j * 2 + 1 = i * 2)); (done || lia).
Qed.

Lemma heap_link_set_even h j v i :
  heap_link (js_set h (j * 2) v) i = heap_link h i.
Proof.
  unfold heap_link. rewrite js_get_set.
  destruct (decide (j * 2 = i * 2 + 1)); (done || lia).
Qed.

Lemma heap_link_set_odd h j v i :
  heap_link (js_set h (j * 2 + 1) v) i
  = if decide (j = i) then Z.to_nat <$> v else heap_link h i.
Proof.
  unfold heap_link. rewrite js_get_set.
  destruct (decide (j * 2 + 1 = i * 2 + 1)), (decide (j = i)); (done || lia).
Qed.

Lemma heap_prio_swap h i j x :
  heap_prio (heap_swap h i j) x
  = if decide (x = j) then heap_prio h i
    else if decide (x = i) then heap_prio h j
    else heap_prio h x.
Proof.
  unfold heap_swap.
  rewrite !heap_prio_set_odd, !heap_prio_set_even.
  repeat case_decide; (done || lia || (subst; done)).
Qed.

Lemma heap_link_swap h i j x :
  heap_link (heap_swap h i j) x
  = if decide (x = j) then heap_link h i
    else if decide (x = i) then heap_link h j
    else heap_link h x.
Proof.
  unfold heap_swap.
  rewrite !heap_link_set_odd, !heap_link_set_even.
  fold (heap_link (js_set (js_set h (i * 2) (js_get h (j * 2))) (j * 2)
                          (js_get h (i * 2))) j).
  fold (heap_link (js_set (js_set h (i * 2) (js_get h (j * 2))) (j * 2)
                          (js_get h (i * 2))) i).
  rewrite !heap_link_set_even.
  repeat case_decide; (done || lia || (subst; done)).
Qed.

End HeapCells.

(** ** Positions of a k-ary heap *)

Lemma parent_lt k i : 1 ≤ k → 0 < i → parent k i < i.
Proof.
  intros Hk Hi. unfold parent.
  assert ((i - 1) / k ≤ i - 1) by (apply Nat.Div0.div_le_upper_bound; nia).
  lia.
Qed.

Lemma parent_child k c j : 1 ≤ k → 1 ≤ j ≤ k → parent k (k * c + j) = c.
Proof.
  intros Hk Hj. unfold parent. symmetry.
  apply (Nat.div_unique _ _ _ (j - 1)); lia.
Qed.

Lemma child_of_parent k i :
  1 ≤ k → 0 < i → ∃ j, 1 ≤ j ≤ k ∧ i = k * parent k i + j.
Proof.
  intros Hk Hi. unfold parent.
  exists (S ((i - 1) mod k)).
  pose proof (Nat.div_mod (i - 1) k ltac:(lia)).
  pose proof (Nat.mod_upper_bound (i - 1) k ltac:(lia)).
  lia.
Qed.

Lemma parent_eq_iff k i c :
  1 ≤ k → 0 < i → parent k i = c ↔ k * c + 1 ≤ i ≤ k * c + k.
Proof.
  intros Hk Hi. split.
  - intros <-. destruct (child_of_parent k i) as (j & ? & ?); lia.
  - intros ?. replace i with (k * c + (i - k * c)) by lia.
    apply parent_child; lia.
Qed.

(** ** The scan for the smallest child *)

Section MinChild.
Implicit Types (h : js_array Z).

Lemma min_child_scan_snoc h k n c m acc :
  foldl (min_child_step h k n c) acc (seq 1 (S m))
  = min_child_step h k n c (foldl (min_child_step h k n c) acc (seq 1 m)) (S m).
Proof. by rewrite seq_S, foldl_app. Qed.

(** A turn of the scan keeps the running minimum or replaces it by a
    strictly smaller priority found inside the heap. *)
Lemma min_child_step_cases h k n c acc i :
  min_child_step h k n c acc i = acc ∨
  (∃ p, min_child_step h k n c acc i = (p, k * c + i) ∧
        k * c + i < n ∧ heap_prio h (k * c + i) = Some p ∧ (p < acc.1)%Z).
Proof.
  unfold min_child_step.
  destruct (decide (k * c + i < n)); [|by left].
  destruct (heap_prio h (k * c + i)) as [p|]; [|by left].
  destruct (Z.ltb_spec p acc.1); [|by left].
  right. by exists p.
Qed.

(** Whatever the heap holds, a scan that leaves the sentinel behind has
    found a child position inside the heap. *)
Lemma min_child_scan_range h k n c :
  (min_child_scan h k n c).1 ≠ MAX_SAFE_INTEGER →
  c < (min_child_scan h k n c).2 < n.
Proof.
  unfold min_child_scan.
  assert (∀ m, m ≤ k →
    let r := foldl (min_child_step h k n c) (MAX_SAFE_INTEGER, 0) (seq 1 m) in
    r.1 = MAX_SAFE_INTEGER ∨ c < r.2 < n) as Hgen.
  { induction m as [|m IH]; intros Hm; cbv zeta; [by left|].
    rewrite min_child_scan_snoc.
    destruct (min_child_step_cases h k n c
                (foldl (min_child_step h k n c) (MAX_SAFE_INTEGER, 0) (seq 1 m)) (S m))
      as [->|(p & -> & Hin & _ & _)].
    - apply IH. lia.
    - right. simpl. assert (c ≤ k * c) by nia. lia. }
  intros Hne. destruct (Hgen k ltac:(lia)); [done | done].
Qed.

(** The scan only reads priorities inside the heap. *)
Lemma min_child_scan_ext h h' k n c :
  (∀ i, i < n → heap_prio h i = heap_prio h' i) →
  min_child_scan h k n c = min_child_scan h' k n c.
Proof.
  intros Heq. unfold min_child_scan.
  generalize (MAX_SAFE_INTEGER, 0). generalize (seq 1 k).
  induction l as [|i l IH]; intros acc; simpl; [done|].
  rewrite IH. f_equal. unfold min_child_step.
  destruct (decide (k * c + i < n)); [|done].
  by rewrite Heq.
Qed.

(** On a heap whose priorities are below the sentinel, the scan finds
    nothing exactly when no child lies inside the heap, and otherwise finds
    a child of least priority. *)
Lemma min_child_scan_spec h k n c :
  prio_ok h n →
  let r := min_child_scan h k n c in
  (r = (MAX_SAFE_INTEGER, 0) ∧ ∀ j, 1 ≤ j ≤ k → ¬ k * c + j < n) ∨
  ((r.1 < MAX_SAFE_INTEGER)%Z ∧ (∃ j, 1 ≤ j ≤ k ∧ r.2 = k * c + j) ∧ r.2 < n ∧
   heap_prio h r.2 = Some r.1 ∧
   ∀ j, 1 ≤ j ≤ k → k * c + j < n → (r.1 ≤ pr h (k * c + j))%Z).
Proof.
  intros Hok. unfold min_child_scan.
  assert (∀ m, m ≤ k →
    let r := foldl (min_child_step h k n c) (MAX_SAFE_INTEGER, 0) (seq 1 m) in
    (r = (MAX_SAFE_INTEGER, 0) ∧ ∀ j, 1 ≤ j ≤ m → ¬ k * c + j < n) ∨
    ((r.1 < MAX_SAFE_INTEGER)%Z ∧ (∃ j, 1 ≤ j ≤ m ∧ r.2 = k * c + j) ∧ r.2 < n ∧
     heap_prio h r.2 = Some r.1 ∧
     ∀ j, 1 ≤ j ≤ m → k * c + j < n → (r.1 ≤ pr h (k * c + j))%Z)) as Hgen.
  { induction m as [|m IH]; intros Hm; cbv zeta.
    { left. split; [done | lia]. }
    rewrite min_child_scan_snoc.
    destruct (IH ltac:(lia)) as [[-> Hnone]|(Hlt & (j0 & Hj0 & Hidx) & Hin & Hp & Hmin)].
    - unfold min_child_step.
      destruct (decide (k * c + S m < n)) as [Hc|Hc].
      + destruct (Hok _ Hc) as (p & Hp & Hpmax). rewrite Hp. simpl.
        destruct (Z.ltb_spec p MAX_SAFE_INTEGER); [|lia].
        right. simpl. split_and!; [done | exists (S m); lia | done | done |].
        intros j Hj Hjn. destruct (decide (j = S m)) as [->|].
        * unfold pr. rewrite Hp. simpl. lia.
        * exfalso. apply (Hnone j); lia.
      + left. split; [done|]. intros j Hj.
        destruct (decide (j = S m)) as [->|]; [done | apply Hnone; lia].
    - set (r := foldl _ _ _) in *. unfold min_child_step.
      destruct (decide (k * c + S m < n)) as [Hc|Hc].
      + destruct (Hok _ Hc) as (p & Hp' & Hpmax). rewrite Hp'.
        destruct (Z.ltb_spec p r.1).
        * right. simpl. split_and!; [done | exists (S m); lia | done | done |].
          intros j Hj Hjn. destruct (decide (j = S m)) as [->|].
          -- unfold pr. rewrite Hp'. simpl. lia.
          -- specialize (Hmin j ltac:(lia) Hjn). lia.
        * right. split_and!; [done | exists j0; lia | done | done |].
          intros j Hj Hjn. destruct (decide (j = S m)) as [->|].
          -- unfold pr. rewrite Hp'. simpl. lia.
          -- apply Hmin; [lia | done].
      + right. split_and!; [done | exists j0; lia | done | done |].
        intros j Hj Hjn. destruct (decide (j = S m)) as [->|]; [done|].
        apply Hmin; [lia | done]. }
  apply Hgen. lia.
Qed.

End MinChild.

(** ** Exchanging two heap positions *)

Section Swap.
Implicit Types (h : js_array Z).

Lemma slot_swap h i j x : slot (heap_swap h i j) x = slot h (transpose i j x).
Proof.
  unfold slot, transpose. rewrite heap_prio_swap, heap_link_swap.
  repeat case_decide; done.
Qed.

Lemma pr_swap h i j x : pr (heap_swap h i j) x = pr h (transpose i j x).
Proof.
  unfold pr, transpose. rewrite heap_prio_swap. repeat case_decide; done.
Qed.

Lemma transpose_involutive i j x : transpose i j (transpose i j x) = x.
Proof. unfold transpose. repeat case_decide; congruence. Qed.

Lemma transpose_lt i j n x : i < n → j < n → transpose i j x < n ↔ x < n.
Proof. unfold transpose. repeat case_decide; lia. Qed.

Lemma seq_transpose n i j :
  i < n → j < n → transpose i j <$> seq 0 n ≡ₚ seq 0 n.
Proof.
  intros Hi Hj. apply NoDup_Permutation.
  - apply NoDup_fmap_2; [|apply NoDup_seq].
    intros x y Hxy.
    by rewrite <- (transpose_involutive i j x), Hxy, transpose_involutive.
  - apply NoDup_seq.
  - intros x. rewrite list_elem_of_fmap. setoid_rewrite elem_of_seq. split.
    + intros (y & -> & Hy). pose proof (transpose_lt i j n y Hi Hj). lia.
    + intros Hx. exists (transpose i j x). rewrite transpose_involutive.
      pose proof (transpose_lt i j n x Hi Hj). split; [done | lia].
Qed.

Lemma slots_swap h n i j :
  i < n → j < n → slots (heap_swap h i j) n ≡ₚ slots h n.
Proof.
  intros Hi Hj. unfold slots.
  assert (slot (heap_swap h i j) <$> seq 0 n
          = slot h ∘ transpose i j <$> seq 0 n) as ->.
  { apply list_fmap_ext. intros _ x _. apply slot_swap. }
  by rewrite list_fmap_compose, seq_transpose.
Qed.

Lemma prio_ok_slots h n :
  prio_ok h n ↔
  Forall (λ s : option Z * option nat,
            ∃ p, s.1 = Some p ∧ (p < MAX_SAFE_INTEGER)%Z) (slots h n).
Proof.
  unfold prio_ok, slots. rewrite Forall_fmap, Forall_seq. simpl.
  split; intros H i ?; apply H; lia.
Qed.

Lemma prio_ok_perm h h' n : slots h' n ≡ₚ slots h n → prio_ok h n → prio_ok h' n.
Proof. rewrite !prio_ok_slots. by intros ->. Qed.

Lemma prio_ok_pr h n i :
  prio_ok h n → i < n →
  heap_prio h i = Some (pr h i) ∧ (pr h i < MAX_SAFE_INTEGER)%Z.
Proof. intros Hok Hi. destruct (Hok i Hi) as (p & Hp & ?). unfold pr. by rewrite Hp. Qed.

End Swap.

(** ** [_restoreDown] *)

Section RestoreDown.
Implicit Types (h : js_array Z).

(** The loop leaves by its [break]: any amount of fuel from
    [heap_size - index] on gives the same heap. *)
Lemma restoreDown_loop_fuel f1 f2 k n h c :
  n - c ≤ f1 → n - c ≤ f2 →
  restoreDown_loop f1 k n h c = restoreDown_loop f2 k n h c.
Proof.
  revert f2 h c. induction f1 as [|f1 IH]; intros f2 h c Hf1 Hf2.
  - destruct f2 as [|f2]; [done|]. simpl.
    destruct (min_child_scan h k n c) as [mc mi] eqn:Hscan.
    destruct (decide (mc = MAX_SAFE_INTEGER)); [done|].
    pose proof (min_child_scan_range h k n c) as Hr.
    rewrite Hscan in Hr. simpl in Hr. specialize (Hr ltac:(done)). lia.
  - simpl. destruct (min_child_scan h k n c) as [mc mi] eqn:Hscan.
    pose proof (min_child_scan_range h k n c) as Hr.
    rewrite Hscan in Hr. simpl in Hr.
    destruct f2 as [|f2]; simpl; rewrite ?Hscan.
    + destruct (decide (mc = MAX_SAFE_INTEGER)); [done|].
      specialize (Hr ltac:(done)). lia.
    + destruct (decide (mc = MAX_SAFE_INTEGER)); [done|].
      specialize (Hr ltac:(done)). apply IH; lia.
Qed.

(** The loop permutes the pairs stored in the logical heap. *)
Lemma restoreDown_loop_slots f k n h c :
  slots (restoreDown_loop f k n h c) n ≡ₚ slots h n.
Proof.
  revert h c. induction f as [|f IH]; intros h c; simpl; [done|].
  destruct (min_child_scan h k n c) as [mc mi] eqn:Hscan.
  destruct (decide (mc = MAX_SAFE_INTEGER)); [done|].
  pose proof (min_child_scan_range h k n c) as Hr.
  rewrite Hscan in Hr. simpl in Hr. specialize (Hr ltac:(done)).
  rewrite IH. case_match; [|done].
  apply slots_swap; lia.
Qed.

(** The loop from [c] restores the heap order on the positions whose
    parent is at least [lo], when only the pairs under [c] may violate it
    and the parent of [c] is not above any child of [c]. *)
Lemma restoreDown_loop_ordered f k n h c lo :
  1 ≤ k → prio_ok h n → lo ≤ c → n - c ≤ f →
  (∀ i, 0 < i < n → lo ≤ parent k i → parent k i ≠ c →
        (pr h (parent k i) ≤ pr h i)%Z) →
  (0 < c → lo ≤ parent k c →
   ∀ i, 0 < i < n → parent k i = c → (pr h (parent k c) ≤ pr h i)%Z) →
  ordered_from k (restoreDown_loop f k n h c) n lo.
Proof.
  intros Hk. revert h c.
  induction f as [|f IH]; intros h c Hok Hlo Hf H1 H2.
  { simpl. intros i Hi Hpi. apply H1; [done | done |].
    pose proof (parent_lt k i Hk ltac:(lia)). lia. }
  simpl.
  destruct (min_child_scan_spec h k n c Hok)
    as [[Heq Hnone]|(Hlt & (j & Hj & Hidx) & Hin & Hp & Hmin)].
  { rewrite Heq. rewrite decide_True by done.
    intros i Hi Hpi. destruct (decide (parent k i = c)) as [Hpc|]; [|by apply H1].
    exfalso. apply parent_eq_iff in Hpc; [|done|lia].
    apply (Hnone (i - k * c)); lia. }
  destruct (min_child_scan h k n c) as [mc mi] eqn:Hscan. simpl in *.
  rewrite decide_False by lia.
  assert (parent k mi = c) as Hpmi by (subst mi; by apply parent_child).
  assert (c < mi) as Hcmi by (assert (c ≤ k * c) by nia; lia).
  assert (∀ i, 0 < i < n → parent k i = c → (mc ≤ pr h i)%Z) as Hmin'.
  { intros i Hi Hpc. apply parent_eq_iff in Hpc; [|done|lia].
    replace i with (k * c + (i - k * c)) by lia. apply Hmin; lia. }
  assert (pr h mi = mc) as Hprmi by (unfold pr; by rewrite Hp).
  destruct (prio_ok_pr h n c Hok ltac:(lia)) as [Hpc _].
  unfold js_gt, js_lt. rewrite Hpc, Hp.
  destruct (Z.ltb_spec mc (pr h c)) as [Hswap|Hkeep].
  - apply IH.
    + eapply prio_ok_perm; [|done]. apply slots_swap; lia.
    + lia.
    + lia.
    + intros i Hi Hpi Hne. rewrite !pr_swap.
      pose proof (parent_lt k i Hk ltac:(lia)) as Hplt.
      unfold transpose. repeat case_decide; try lia; try congruence.
      * rewrite Hprmi. by apply Hmin'.
      * replace i with c in * by done.
        apply H2; [lia | done | lia | done].
      * by apply H1.
    + intros _ Hlo' i Hi Hpi. rewrite !pr_swap. rewrite Hpmi.
      pose proof (parent_lt k i Hk ltac:(lia)) as Hplt.
      unfold transpose. repeat case_decide; try lia; try congruence.
      rewrite <- Hpi. apply H1; [done | lia | lia].
  - apply IH.
    + done.
    + lia.
    + lia.
    + intros i Hi Hpi Hne.
      destruct (decide (parent k i = c)) as [Hpc'|]; [|by apply H1].
      rewrite Hpc'. specialize (Hmin' i Hi Hpc'). lia.
    + intros _ Hlo' i Hi Hpi. rewrite Hpmi.
      assert (pr h mi ≤ pr h i)%Z; [|lia].
      rewrite <- Hpi. apply H1; [done | lia | lia].
Qed.

End RestoreDown.

(** ** [_restoreUp] *)

Section RestoreUp.
Implicit Types (h : js_array Z).

(** The loop stops at the root at the latest: fuel [index] is enough. *)
Lemma restoreUp_loop_fuel f1 f2 k h c :
  1 ≤ k → c ≤ f1 → c ≤ f2 →
  restoreUp_loop f1 k h c = restoreUp_loop f2 k h c.
Proof.
  intros Hk. revert f2 h c.
  induction f1 as [|f1 IH]; intros f2 h c Hf1 Hf2.
  - assert (c = 0) as -> by lia. by destruct f2.
  - destruct f2 as [|f2].
    + assert (c = 0) as -> by lia. done.
    + simpl. destruct c as [|c]; [done|].
      case_match; [|done].
      assert (c / k ≤ c) by (apply Nat.Div0.div_le_upper_bound; nia).
      apply IH; lia.
Qed.

Lemma restoreUp_loop_slots f k n h c :
  1 ≤ k → c < n → slots (restoreUp_loop f k h c) n ≡ₚ slots h n.
Proof.
  intros Hk. revert h c.
  induction f as [|f IH]; intros h c Hc; simpl; [done|].
  destruct c as [|c]; [done|].
  case_match; [|done].
  assert (c / k ≤ c) by (apply Nat.Div0.div_le_upper_bound; nia).
  rewrite IH by lia. apply slots_swap; lia.
Qed.

(** The loop from [c] restores the heap order when only the pair of [c]
    and its parent may violate it and the parent of [c] is not above any
    child of [c]. *)
Lemma restoreUp_loop_ordered f k n h c :
  1 ≤ k → prio_ok h n → c < n → c ≤ f →
  (∀ i, 0 < i < n → i ≠ c → (pr h (parent k i) ≤ pr h i)%Z) →
  (0 < c → ∀ i, 0 < i < n → parent k i = c →
           (pr h (parent k c) ≤ pr h i)%Z) →
  ordered_from k (restoreUp_loop f k h c) n 0.
Proof.
  intros Hk. revert h c.
  induction f as [|f IH]; intros h c Hok Hc Hf H1 H2.
  { simpl. intros i Hi _. apply H1; [done | lia]. }
  simpl. destruct c as [|c'].
  { intros i Hi _. apply H1; [done | lia]. }
  remember (S c') as c eqn:Hcdef.
  assert (c' / k = parent k c) as -> by (unfold parent; subst c; f_equal; lia).
  assert (0 < c) as Hc0 by lia. clear c' Hcdef.
  pose proof (parent_lt k c Hk Hc0) as Hg.
  remember (parent k c) as g eqn:Hgdef.
  destruct (prio_ok_pr h n c Hok ltac:(lia)) as [Hpc _].
  destruct (prio_ok_pr h n g Hok ltac:(lia)) as [Hpg _].
  unfold js_lt. rewrite Hpc, Hpg.
  destruct (Z.ltb_spec (pr h c) (pr h g)) as [Hswap|Hkeep].
  - apply IH.
    + eapply prio_ok_perm; [|done]. apply slots_swap; lia.
    + lia.
    + lia.
    + intros i Hi Hne. rewrite !pr_swap.
      pose proof (parent_lt k i Hk ltac:(lia)) as Hplt.
      unfold transpose. repeat case_decide; try lia; try congruence.
      * pose proof (H1 i Hi ltac:(done)) as Hx.
        replace (parent k i) with g in Hx by done. lia.
      * by apply H2.
      * by apply H1.
    + intros Hg0 i Hi Hpi. rewrite !pr_swap.
      pose proof (parent_lt k i Hk ltac:(lia)) as Hplt.
      pose proof (parent_lt k g Hk Hg0) as Hgglt.
      assert (pr h (parent k g) ≤ pr h g)%Z as Hgg by (apply H1; lia).
      unfold transpose. repeat case_decide; try lia; try congruence.
      pose proof (H1 i Hi ltac:(done)) as Hx.
      replace (parent k i) with g in Hx by done. lia.
  - intros i Hi _. destruct (decide (i = c)) as [->|]; [|by apply H1].
    rewrite <- Hgdef. lia.
Qed.

End RestoreUp.

(** ** The heap invariant *)

Section HeapInv.
Context {T : Type}.
Implicit Types (q : PriorityQueue T) (h : js_array Z).

Lemma prio_ok_ext h h' n :
  (∀ i, i < n → heap_prio h' i = heap_prio h i) → prio_ok h n → prio_ok h' n.
Proof. intros Heq Hok i Hi. rewrite Heq by done. by apply Hok. Qed.

Lemma ordered_from_ext k h h' n lo :
  1 ≤ k →
  (∀ i, i < n → heap_prio h' i = heap_prio h i) →
  ordered_from k h n lo → ordered_from k h' n lo.
Proof.
  intros Hk Heq Ho i Hi Hlo.
  pose proof (parent_lt k i Hk ltac:(lia)).
  unfold pr. rewrite !Heq by lia. by apply Ho.
Qed.

Lemma prio_ok_le h n m : m ≤ n → prio_ok h n → prio_ok h m.
Proof. intros Hm Hok i Hi. apply Hok. lia. Qed.

Lemma ordered_from_le k h n m lo :
  m ≤ n → ordered_from k h n lo → ordered_from k h m lo.
Proof. intros Hm Ho i Hi Hlo. apply Ho; [lia | done]. Qed.

(** In a heap the root holds a least priority. *)
Lemma root_min k h n i :
  1 ≤ k → ordered_from k h n 0 → i < n → (pr h 0 ≤ pr h i)%Z.
Proof.
  intros Hk Ho. induction (lt_wf i) as [i _ IH]. intros Hi.
  destruct (decide (i = 0)) as [->|Hne]; [lia|].
  pose proof (parent_lt k i Hk ltac:(lia)).
  specialize (IH (parent k i) ltac:(lia) ltac:(lia)).
  specialize (Ho i ltac:(lia) ltac:(lia)). lia.
Qed.

Lemma heap_inv_min_heap_property q : heap_inv q → min_heap_property q.
Proof.
  intros (Hk & Hok & Ho) i Hi.
  pose proof (parent_lt (_k q) i Hk ltac:(lia)).
  destruct (prio_ok_pr _ _ (parent (_k q) i) Hok ltac:(lia)) as [Hp _].
  destruct (prio_ok_pr _ _ i Hok ltac:(lia)) as [Hi' _].
  eexists _, _. split_and!; [done | done |]. apply Ho; [done | lia].
Qed.

Lemma restoreDown_heap_inv_from q c lo :
  1 ≤ _k q → prio_ok (_heap q) (_heap_size q) → lo ≤ c →
  (∀ i, 0 < i < _heap_size q → lo ≤ parent (_k q) i → parent (_k q) i ≠ c →
        (pr (_heap q) (parent (_k q) i) ≤ pr (_heap q) i)%Z) →
  (0 < c → lo ≤ parent (_k q) c →
   ∀ i, 0 < i < _heap_size q → parent (_k q) i = c →
        (pr (_heap q) (parent (_k q) c) ≤ pr (_heap q) i)%Z) →
  prio_ok (_heap (_restoreDown c q)) (_heap_size q) ∧
  ordered_from (_k q) (_heap (_restoreDown c q)) (_heap_size q) lo.
Proof.
  intros Hk Hok Hlo H1 H2. simpl. split.
  - eapply prio_ok_perm; [apply restoreDown_loop_slots | done].
  - apply restoreDown_loop_ordered; (done || lia).
Qed.

(** Replacing the root of a heap and sifting it down gives a heap. *)
Lemma restoreDown_root_heap_inv q :
  1 ≤ _k q → prio_ok (_heap q) (_heap_size q) →
  (∀ i, 0 < i < _heap_size q → parent (_k q) i ≠ 0 →
        (pr (_heap q) (parent (_k q) i) ≤ pr (_heap q) i)%Z) →
  heap_inv (_restoreDown 0 q).
Proof.
  intros Hk Hok H1.
  destruct (restoreDown_heap_inv_from q 0 0) as [Hok' Ho']; try done.
  - intros i Hi _ Hne. by apply H1.
  - lia.
Qed.

(** Sifting down any position of a heap leaves a heap. *)
Lemma restoreDown_heap_inv q c : heap_inv q → heap_inv (_restoreDown c q).
Proof.
  intros (Hk & Hok & Ho).
  destruct (restoreDown_heap_inv_from q c 0) as [Hok' Ho']; try done.
  - lia.
  - intros i Hi _ _. apply Ho; [done | lia].
  - intros Hc _ i Hi Hpi.
    pose proof (parent_lt (_k q) c Hk Hc).
    pose proof (parent_lt (_k q) i Hk ltac:(lia)).
    assert (pr (_heap q) (parent (_k q) c) ≤ pr (_heap q) c)%Z
      by (apply Ho; lia).
    assert (pr (_heap q) c ≤ pr (_heap q) i)%Z; [|lia].
    rewrite <- Hpi. apply Ho; [done | lia].
Qed.

Lemma sweep_from_fields i q :
  _k (sweep_from i q) = _k q ∧ _heap_size (sweep_from i q) = _heap_size q ∧
  _elems (sweep_from i q) = _elems q ∧
  _elems_undefined (sweep_from i q) = _elems_undefined q ∧
  _elems_size (sweep_from i q) = _elems_size q ∧
  _exited_indexes (sweep_from i q) = _exited_indexes q ∧
  _exited_indexes_count (sweep_from i q) = _exited_indexes_count q.
Proof.
  revert q. induction i as [|i IH]; intros q; simpl; [done|].
  destruct (IH (_restoreDown (S i) q)) as (-> & -> & -> & -> & -> & -> & ->).
  done.
Qed.

Lemma heapify_sweep_cases q :
  heapify_sweep q = q ∨ ∃ i, heapify_sweep q = sweep_from i q.
Proof. unfold heapify_sweep. destruct (_heap_size q); eauto. Qed.

Lemma heapify_sweep_fields q :
  _k (heapify_sweep q) = _k q ∧ _heap_size (heapify_sweep q) = _heap_size q ∧
  _elems (heapify_sweep q) = _elems q ∧
  _elems_undefined (heapify_sweep q) = _elems_undefined q ∧
  _elems_size (heapify_sweep q) = _elems_size q ∧
  _exited_indexes (heapify_sweep q) = _exited_indexes q ∧
  _exited_indexes_count (heapify_sweep q) = _exited_indexes_count q.
Proof.
  destruct (heapify_sweep_cases q) as [->|[i ->]]; [done | apply sweep_from_fields].
Qed.

Lemma sweep_from_slots i q :
  slots (_heap (sweep_from i q)) (_heap_size q) ≡ₚ slots (_heap q) (_heap_size q).
Proof.
  revert q. induction i as [|i IH]; intros q; simpl.
  - apply restoreDown_loop_slots.
  - specialize (IH (_restoreDown (S i) q)). simpl in IH. rewrite IH.
    apply restoreDown_loop_slots.
Qed.

Lemma heapify_sweep_slots q :
  slots (_heap (heapify_sweep q)) (_heap_size q) ≡ₚ slots (_heap q) (_heap_size q).
Proof.
  destruct (heapify_sweep_cases q) as [->|[i ->]]; [done | apply sweep_from_slots].
Qed.

(** The sweep downwards from [i] orders the heap when the positions above
    [i] are ordered already. *)
Lemma sweep_from_ordered i q :
  1 ≤ _k q → prio_ok (_heap q) (_heap_size q) →
  ordered_from (_k q) (_heap q) (_heap_size q) (S i) →
  heap_inv (sweep_from i q).
Proof.
  revert q. induction i as [|i IH]; intros q Hk Hok Ho.
  - simpl sweep_from.
    destruct (restoreDown_heap_inv_from q 0 0) as [Hok' Ho']; try done.
    + intros j Hj _ Hne. apply Ho; [done | lia].
    + lia.
  - simpl sweep_from.
    destruct (restoreDown_heap_inv_from q (S i) (S i)) as [Hok' Ho']; try done.
    + intros j Hj Hlo Hne. apply Ho; [done | lia].
    + intros Hc Hlo. pose proof (parent_lt (_k q) (S i) Hk Hc). lia.
    + apply IH; done.
Qed.

(** The sweep of the constructor orders any heap whose priorities are
    below the sentinel. *)
Lemma heapify_sweep_heap_inv q :
  1 ≤ _k q → prio_ok (_heap q) (_heap_size q) → heap_inv (heapify_sweep q).
Proof.
  intros Hk Hok. unfold heapify_sweep.
  destruct (_heap_size q) as [|m] eqn:Hn.
  - split_and!; [done | by rewrite Hn | rewrite Hn; intros i ?; lia].
  - apply sweep_from_ordered; [done | by rewrite Hn |].
    rewrite Hn. intros i Hi Hlo. exfalso.
    unfold parent in Hlo.
    assert ((i - 1) / _k q ≤ m / _k q) by (apply Nat.Div0.div_le_mono; lia).
    lia.
Qed.

End HeapInv.

(** ** The heap invariant through the public operations *)

Section HeapInvOps.
Context {T : Type}.
Implicit Types (q : PriorityQueue T) (h : js_array Z)
  (range : list (IElementPriorityPair T)).

Lemma link_of_nat (i : nat) : Z.to_nat <$> Some (Z.of_nat i) = Some i.
Proof. simpl. by rewrite Nat2Z.id. Qed.

Lemma slot_set_pair h i (p : option Z) (l : option nat) j :
  slot (js_set (js_set h (i * 2) p) (i * 2 + 1) (Z.of_nat <$> l)) j
  = if decide (i = j) then (p, l) else slot h j.
Proof.
  unfold slot. rewrite heap_prio_set_odd, heap_prio_set_even,
    heap_link_set_odd, heap_link_set_even.
  case_decide; [|done]. f_equal. destruct l; [apply link_of_nat | done].
Qed.

Lemma constructor_load_prefix range i h (e : js_array T) j :
  j < i → slot (constructor_load i range h e).1 j = slot h j.
Proof.
  revert i h e. induction range as [|item rest IH]; intros i h e Hj; simpl; [done|].
  rewrite IH by lia.
  rewrite (slot_set_pair h i (Some (priority item)) (Some i)).
  case_decide; [lia | done].
Qed.

Lemma constructor_load_slot range i h (e : js_array T) j item :
  range !! j = Some item →
  slot (constructor_load i range h e).1 (i + j) = (Some (priority item), Some (i + j)).
Proof.
  revert i h e j. induction range as [|item' rest IH]; intros i h e j Hj; [done|].
  simpl. destruct j as [|j]; simpl in Hj.
  - injection Hj as ->. rewrite Nat.add_0_r.
    rewrite constructor_load_prefix by lia.
    rewrite (slot_set_pair h i (Some (priority item)) (Some i)).
    by rewrite decide_True.
  - replace (i + S j) with (S i + j) by lia. by apply IH.
Qed.

Lemma constructor_load_elems range i h (e : js_array T) :
  length e = i →
  (constructor_load i range h e).2
  = e ++ ((λ item, stored (Some (element item))) <$> range).
Proof.
  revert i h e. induction range as [|item rest IH]; intros i h e He; simpl.
  - by rewrite app_nil_r.
  - rewrite IH.
    + subst i. rewrite js_set_append. by rewrite <- app_assoc.
    + subst i. rewrite js_set_append, length_app. simpl. lia.
Qed.

Lemma constructor_fields range k :
  _k (constructor range k) = k ∧
  _heap_size (constructor range k) = length range ∧
  _elems (constructor range k)
  = ((λ item, stored (Some (element item))) <$> range) ∧
  _elems_undefined (constructor range k) = None ∧
  _elems_size (constructor range k) = length range ∧
  _exited_indexes (constructor range k) = [] ∧
  _exited_indexes_count (constructor range k) = 0.
Proof.
  unfold constructor.
  pose proof (constructor_load_elems range 0 [] [] eq_refl) as He.
  destruct (constructor_load 0 range [] []) as [h e]. simpl in He. subst e.
  match goal with |- context [heapify_sweep ?q0] =>
    destruct (heapify_sweep_fields q0) as (-> & -> & -> & -> & -> & -> & ->) end.
  done.
Qed.

Lemma constructor_load_prio_ok range :
  Forall (λ item, below_sentinel (priority item)) range →
  prio_ok (constructor_load 0 range [] ([] : js_array T)).1 (length range).
Proof.
  intros Hall i Hi.
  destruct (lookup_lt_is_Some_2 range i Hi) as [item Hitem].
  pose proof (constructor_load_slot range 0 [] [] i item Hitem) as Hs.
  simpl in Hs. unfold slot in Hs. injection Hs as Hp _.
  exists (priority item). split; [done|].
  rewrite Forall_lookup in Hall. by apply (Hall i).
Qed.

Lemma constructor_heap_inv range k :
  1 ≤ k → Forall (λ item, below_sentinel (priority item)) range →
  heap_inv (constructor range k).
Proof.
  intros Hk Hall. unfold constructor.
  pose proof (constructor_load_prio_ok range Hall) as Hok.
  destruct (constructor_load 0 range [] []) as [h e].
  apply heapify_sweep_heap_inv; done.
Qed.

Lemma addElem_heap elem q :
  _heap (_addElem elem q).2 = _heap q ∧ _k (_addElem elem q).2 = _k q ∧
  _heap_size (_addElem elem q).2 = _heap_size q.
Proof.
  unfold _addElem. case_decide; simpl.
  - by destruct (js_get _ _).
  - done.
Qed.

Lemma enqueue_heap_inv elem priority q :
  below_sentinel priority → heap_inv q → heap_inv (enqueue elem priority q).
Proof.
  intros Hp (Hk & Hok & Ho). unfold enqueue.
  destruct (addElem_heap elem q) as (Hh & Hk' & Hn).
  destruct (_addElem elem q) as [index q1]. simpl in Hh, Hk', Hn.
  rewrite Hh, Hk', Hn. cbv zeta.
  set (h2 := js_set (js_set (_heap q) (_heap_size q * 2) (Some priority)) _ _).
  assert (∀ j, slot h2 j
    = if decide (_heap_size q = j) then (Some priority, index) else slot (_heap q) j)
    as Hslot by (intros j; apply slot_set_pair).
  assert (∀ j, heap_prio h2 j
    = if decide (_heap_size q = j) then Some priority else heap_prio (_heap q) j)
    as Hprio.
  { intros j. specialize (Hslot j). unfold slot in Hslot.
    case_decide; by injection Hslot. }
  assert (prio_ok h2 (S (_heap_size q))) as Hok2.
  { intros j Hj. rewrite Hprio. case_decide; [by eexists|]. apply Hok. lia. }
  unfold _restoreUp. simpl. rewrite Nat.sub_0_r.
  split_and!; simpl.
  - done.
  - eapply prio_ok_perm; [|done]. apply restoreUp_loop_slots; [done | lia].
  - apply restoreUp_loop_ordered; [done | done | lia | lia | |].
    + intros i Hi Hne.
      pose proof (parent_lt (_k q) i Hk ltac:(lia)).
      unfold pr. rewrite !Hprio. rewrite !decide_False by lia.
      apply Ho; lia.
    + intros Hn0 i Hi Hpi. exfalso.
      apply parent_eq_iff in Hpi; [|done|lia].
      assert (_heap_size q ≤ _k q * _heap_size q) by nia. lia.
Qed.

(** The heap array after [dequeue] has moved the last pair to the root. *)
Lemma dequeue_move_slot h n j :
  slot (js_set (js_set h 0 (js_get h (n * 2))) 1
               (js_get (js_set h 0 (js_get h (n * 2))) (n * 2 + 1))) j
  = if decide (j = 0) then slot h n else slot h j.
Proof.
  change (js_set h 0) with (js_set h (0 * 2)).
  change (js_set (js_set h (0 * 2) (js_get h (n * 2))) 1)
    with (js_set (js_set h (0 * 2) (js_get h (n * 2))) (0 * 2 + 1)).
  unfold slot.
  rewrite heap_prio_set_odd, heap_prio_set_even, heap_link_set_odd, heap_link_set_even.
  fold (heap_link (js_set h (0 * 2) (js_get h (n * 2))) n).
  rewrite heap_link_set_even.
  repeat case_decide; try lia; done.
Qed.

Lemma dequeue_heap_inv q : heap_inv q → heap_inv (dequeue q).2.
Proof.
  intros (Hk & Hok & Ho). unfold dequeue.
  case_decide as Hn; [done|]. simpl snd.
  match goal with |- heap_inv (_restoreDown 0 ?q1) => set (q' := q1) end.
  assert (∀ j, heap_prio (_heap q') j
    = if decide (j = 0) then heap_prio (_heap q) (_heap_size q - 1)
      else heap_prio (_heap q) j) as Hprio.
  { intros j. pose proof (dequeue_move_slot (_heap q) (_heap_size q - 1) j) as Hs.
    unfold slot in Hs. case_decide; by injection Hs. }
  apply restoreDown_root_heap_inv; simpl.
  - done.
  - intros j Hj. rewrite Hprio. case_decide; apply Hok; lia.
  - intros j Hj Hne.
    pose proof (parent_lt (_k q) j Hk ltac:(lia)).
    unfold pr. rewrite !Hprio. rewrite !decide_False by lia.
    apply Ho; lia.
Qed.

End HeapInvOps.

Section HeapInvRest.
Context {T : Type}.
Implicit Types (q : PriorityQueue T) (h : js_array Z)
  (range : list (IElementPriorityPair T)).

Lemma elems_set_heap q x elem :
  _heap (elems_set q x elem) = _heap q ∧ _k (elems_set q x elem) = _k q ∧
  _heap_size (elems_set q x elem) = _heap_size q.
Proof. by destruct x. Qed.

Lemma replace_root_prio elem priority q j :
  let q2 := elems_set (set_heap q (js_set (_heap q) 0 (Some priority)))
                      (heap_link (js_set (_heap q) 0 (Some priority)) 0) elem in
  heap_prio (_heap q2) j = if decide (j = 0) then Some priority else heap_prio (_heap q) j.
Proof.
  intros q2. unfold q2.
  destruct (elems_set_heap (set_heap q (js_set (_heap q) 0 (Some priority)))
              (heap_link (js_set (_heap q) 0 (Some priority)) 0) elem) as (-> & _ & _).
  simpl. change (js_set (_heap q) 0) with (js_set (_heap q) (0 * 2)).
  rewrite heap_prio_set_even. repeat case_decide; (done || lia).
Qed.

Lemma replace_root_heap_inv elem priority q :
  below_sentinel priority → heap_inv q → heap_inv (replace_root elem priority q).2.
Proof.
  intros Hp (Hk & Hok & Ho). unfold replace_root. simpl snd.
  pose proof (replace_root_prio elem priority q) as Hprio. simpl in Hprio.
  match goal with |- heap_inv (_restoreDown 0 ?q2) =>
    assert (_k q2 = _k q ∧ _heap_size q2 = _heap_size q) as [Hk2 Hn2]
      by (by destruct (heap_link _ 0));
    apply restoreDown_root_heap_inv; rewrite ?Hk2, ?Hn2
  end.
  - done.
  - intros j Hj. rewrite Hprio. case_decide; [by eexists|]. by apply Hok.
  - intros j Hj Hne.
    pose proof (parent_lt (_k q) j Hk ltac:(lia)).
    unfold pr. rewrite !Hprio. rewrite !decide_False by lia.
    apply Ho; lia.
Qed.

Lemma enqueueDequeue_heap_inv elem priority q :
  below_sentinel priority → heap_inv q → heap_inv (enqueueDequeue elem priority q).2.
Proof.
  intros Hp Hinv. unfold enqueueDequeue. case_match; [done|].
  pose proof (replace_root_heap_inv elem priority q Hp Hinv).
  by destruct (replace_root elem priority q).
Qed.

Lemma dequeueEnqueue_heap_inv elem priority q :
  below_sentinel priority → heap_inv q → heap_inv (dequeueEnqueue elem priority q).2.
Proof.
  intros Hp Hinv. unfold dequeueEnqueue. case_decide; [done|].
  pose proof (replace_root_heap_inv elem priority q Hp Hinv).
  by destruct (replace_root elem priority q).
Qed.

Lemma enqueue_all_heap_inv range q :
  Forall (λ item, below_sentinel (priority item)) range →
  heap_inv q → heap_inv (enqueue_all range q).
Proof.
  unfold enqueue_all. revert q.
  induction range as [|item rest IH]; intros q Hall Hinv; simpl; [done|].
  inversion Hall; subst. apply IH; [done|]. by apply enqueue_heap_inv.
Qed.

(** The loading loop of the bulk path writes behind the logical heap. *)
Lemma enqueueRange_load_prefix range i q :
  _k (enqueueRange_load i range q) = _k q ∧
  _heap_size (enqueueRange_load i range q) = _heap_size q ∧
  ∀ j, j < _heap_size q →
       slot (_heap (enqueueRange_load i range q)) j = slot (_heap q) j.
Proof.
  revert i q. induction range as [|item rest IH]; intros i q; simpl; [done|].
  destruct (addElem_heap (element item) q) as (Hh & Hk' & Hn).
  destruct (_addElem (element item) q) as [index q1]. simpl in Hh, Hk', Hn.
  match goal with |- context [enqueueRange_load (S i) rest ?q2] =>
    destruct (IH (S i) q2) as (-> & -> & Hpre) end.
  simpl. split_and!; [done | done |].
  intros j Hj. rewrite Hpre by (simpl; lia). simpl.
  rewrite slot_set_pair. rewrite decide_False by lia. by rewrite Hh.
Qed.

Lemma slot_prio_ext h h' n :
  (∀ j, j < n → slot h' j = slot h j) →
  ∀ j, j < n → heap_prio h' j = heap_prio h j.
Proof. intros Hs j Hj. specialize (Hs j Hj). unfold slot in Hs. by injection Hs. Qed.

Lemma enqueueRange_heap_inv range q :
  Forall (λ item, below_sentinel (priority item)) range →
  heap_inv q → heap_inv (enqueueRange range q).
Proof.
  intros Hall Hinv. unfold enqueueRange. case_match.
  - by apply enqueue_all_heap_inv.
  - destruct Hinv as (Hk & Hok & Ho).
    destruct (enqueueRange_load_prefix range 0 q) as (Hk' & Hn' & Hpre).
    apply heapify_sweep_heap_inv; rewrite ?Hk', ?Hn'; [done|].
    eapply prio_ok_ext; [|done]. by apply slot_prio_ext.
Qed.

Lemma clear_heap_inv q : 1 ≤ _k q → heap_inv (clear q).
Proof. intros Hk. split_and!; simpl; [done | intros i ?; lia | intros i ?; lia]. Qed.

(** The copying loop of [shrink]: positions below [i] keep what the new
    arrays held, positions from [i] on receive the priority of the old
    heap, a fresh link and the element that the old link pointed to. *)
Lemma shrink_copy_prefix q n i heap (elems : js_array T) j :
  j < i →
  slot (shrink_copy q n i heap elems).1 j = slot heap j ∧
  js_get (shrink_copy q n i heap elems).2 j = js_get elems j.
Proof.
  revert i heap elems. induction n as [|n IH]; intros i heap elems Hj; simpl; [done|].
  destruct (IH (S i) (js_set (js_set heap (i * 2) (heap_prio (_heap q) i))
                             (i * 2 + 1) (Some (Z.of_nat i)))
               (js_set elems i (elems_get q (heap_link (_heap q) i))) ltac:(lia))
    as [-> ->].
  rewrite (slot_set_pair heap i (heap_prio (_heap q) i) (Some i)).
  rewrite decide_False by lia. rewrite js_get_set_ne by lia. done.
Qed.

Lemma shrink_copy_slot q n i heap (elems : js_array T) j :
  j < n →
  slot (shrink_copy q n i heap elems).1 (i + j)
  = (heap_prio (_heap q) (i + j), Some (i + j)) ∧
  js_get (shrink_copy q n i heap elems).2 (i + j)
  = elems_get q (heap_link (_heap q) (i + j)).
Proof.
  revert i heap elems j. induction n as [|n IH]; intros i heap elems j Hj; [lia|].
  simpl. destruct j as [|j].
  - rewrite Nat.add_0_r.
    destruct (shrink_copy_prefix q n (S i)
      (js_set (js_set heap (i * 2) (heap_prio (_heap q) i))
              (i * 2 + 1) (Some (Z.of_nat i)))
      (js_set elems i (elems_get q (heap_link (_heap q) i))) i ltac:(lia))
      as [-> ->].
    rewrite (slot_set_pair heap i (heap_prio (_heap q) i) (Some i)).
    rewrite decide_True by done. by rewrite js_get_set_eq.
  - replace (i + S j) with (S i + j) by lia. apply IH. lia.
Qed.

Lemma shrink_fields q :
  _k (shrink q) = _k q ∧ _heap_size (shrink q) = _heap_size q ∧
  _elems_undefined (shrink q) = None ∧
  ∀ j, j < _heap_size q →
    slot (_heap (shrink q)) j = (heap_prio (_heap q) j, Some j) ∧
    js_get (_elems (shrink q)) j = elems_get q (heap_link (_heap q) j).
Proof.
  unfold shrink.
  pose proof (shrink_copy_slot q (_heap_size q) 0 [] []) as Hs.
  destruct (shrink_copy q (_heap_size q) 0 [] []) as [heap elems].
  simpl. split_and!; [done | done | done |]. intros j Hj. by apply Hs.
Qed.

Lemma shrink_heap_inv q : heap_inv q → heap_inv (shrink q).
Proof.
  intros (Hk & Hok & Ho).
  destruct (shrink_fields q) as (Hk' & Hn' & _ & Hs).
  assert (∀ j, j < _heap_size q →
            heap_prio (_heap (shrink q)) j = heap_prio (_heap q) j) as Hprio.
  { intros j Hj. destruct (Hs j Hj) as [Hsl _]. unfold slot in Hsl. by injection Hsl. }
  unfold heap_inv. rewrite Hk', Hn'. split_and!; [done | |].
  - by eapply prio_ok_ext.
  - by eapply ordered_from_ext.
Qed.

Lemma perform_heap_inv (op : operation T) q :
  Forall below_sentinel (op_priorities op) →
  heap_inv q → heap_inv (perform op q).
Proof.
  intros Hp Hinv. destruct op; simpl in *.
  - apply enqueue_heap_inv; [by inversion Hp | done].
  - by apply dequeue_heap_inv.
  - unfold peek. by case_decide.
  - apply enqueueDequeue_heap_inv; [by inversion Hp | done].
  - apply dequeueEnqueue_heap_inv; [by inversion Hp | done].
  - apply enqueueRange_heap_inv; [|done]. by rewrite Forall_fmap in Hp.
  - apply clear_heap_inv. by destruct Hinv.
  - by apply shrink_heap_inv.
Qed.

Lemma run_heap_inv (ops : list (operation T)) q :
  Forall (λ op, Forall below_sentinel (op_priorities op)) ops →
  heap_inv q → heap_inv (run ops q).
Proof.
  unfold run. revert q.
  induction ops as [|op ops IH]; intros q Hall Hinv; simpl; [done|].
  inversion Hall; subst. apply IH; [done|]. by apply perform_heap_inv.
Qed.

End HeapInvRest.

(** ** The enqueued pairs through [dequeue] *)

Section Entries.
Context {T : Type}.
Implicit Types (q : PriorityQueue T) (h : js_array Z)
  (range : list (IElementPriorityPair T)).

Lemma entries_slots q :
  entries q
  = (λ s : option Z * option nat, (elems_get q s.2, s.1))
      <$> slots (_heap q) (_heap_size q).
Proof. unfold entries, slots. by rewrite <- list_fmap_compose. Qed.

(** Two states that hold the same element store give the same pairs when
    their logical heaps hold the same slots up to the order. *)
Lemma entries_perm q q' :
  _elems q' = _elems q → _elems_undefined q' = _elems_undefined q →
  _heap_size q' = _heap_size q →
  slots (_heap q') (_heap_size q) ≡ₚ slots (_heap q) (_heap_size q) →
  entries q' ≡ₚ entries q.
Proof.
  intros He Hu Hn Hs. rewrite !entries_slots, Hn, Hs.
  apply reflexive_eq, list_fmap_ext. intros _ [p [l|]] _; simpl.
  - unfold elems_get. by rewrite He.
  - by rewrite Hu.
Qed.

Lemma dequeue_move_slots h n :
  slot h 0
    :: slots (js_set (js_set h 0 (js_get h (n * 2))) 1
                     (js_get (js_set h 0 (js_get h (n * 2))) (n * 2 + 1))) n
  ≡ₚ slots h (S n).
Proof.
  unfold slots at 1.
  erewrite (list_fmap_ext _ (λ j, if decide (j = 0) then slot h n else slot h j));
    [|intros _ j _; apply dequeue_move_slot].
  destruct n as [|m]; [done|].
  unfold slots. rewrite (seq_S (S m)). simpl. rewrite fmap_app. simpl.
  rewrite <- Permutation_cons_append. do 2 f_equiv.
  apply reflexive_eq, list_fmap_ext.
  intros i j Hj. apply lookup_seq in Hj. rewrite decide_False by lia. done.
Qed.

(** A successful [dequeue] returns the element of the root pair and
    removes that pair from the enqueued pairs. *)
Lemma dequeue_entries q :
  _heap_size q ≠ 0 →
  ∃ q', dequeue q = (Return (elems_get q (heap_link (_heap q) 0)), q') ∧
        _heap_size q' = _heap_size q - 1 ∧ _k q' = _k q ∧
        entries q ≡ₚ entry q 0 :: entries q'.
Proof.
  intros Hn. unfold dequeue. rewrite decide_False by done.
  eexists. split; [reflexivity|]. split_and!; [done | done |].
  match goal with |- _ ≡ₚ _ :: entries (_restoreDown 0 ?q0) => set (q1 := q0) end.
  assert (entries (_restoreDown 0 q1) ≡ₚ entries q1) as ->
    by (apply entries_perm; [done | done | done | apply restoreDown_loop_slots]).
  rewrite !entries_slots. simpl.
  replace (_heap_size q) with (S (_heap_size q - 1)) at 1 by lia.
  rewrite <- dequeue_move_slots. simpl. done.
Qed.

Lemma entries_lookup q i :
  i < _heap_size q → entry q i ∈ entries q.
Proof.
  intros Hi. unfold entries. apply list_elem_of_fmap_2, elem_of_seq. lia.
Qed.

Lemma entries_elem_of q x :
  x ∈ entries q → ∃ i, i < _heap_size q ∧ x = entry q i.
Proof.
  unfold entries. intros (i & -> & Hi)%list_elem_of_fmap.
  apply elem_of_seq in Hi. exists i. split; [lia | done].
Qed.

(** The root pair of a heap has a least priority among the enqueued pairs. *)
Lemma root_entry_min q x :
  heap_inv q → x ∈ entries q →
  ∃ p0 p, (entry q 0).2 = Some p0 ∧ x.2 = Some p ∧ (p0 ≤ p)%Z.
Proof.
  intros (Hk & Hok & Ho) (i & Hi & ->)%entries_elem_of.
  destruct (prio_ok_pr _ _ 0 Hok ltac:(lia)) as [H0 _].
  destruct (prio_ok_pr _ _ i Hok Hi) as [Hpi _].
  exists (pr (_heap q) 0), (pr (_heap q) i). split_and!; [done | done |].
  by eapply root_min.
Qed.

(** Draining a heap that holds the pairs [items] returns their elements
    in an order that sorts [items] by priority. *)
Lemma dequeue_times_sorted n q (items : list (IElementPriorityPair T)) :
  heap_inv q → _heap_size q = n → entries q ≡ₚ entry_of <$> items →
  ∃ sorted,
    sorted ≡ₚ items ∧ Sorted Z.le (priority <$> sorted) ∧
    (dequeue_times n q).1 = (λ item, Return (Some (element item))) <$> sorted ∧
    count (dequeue_times n q).2 = 0.
Proof.
  revert q items. induction n as [|n IH]; intros q items Hinv Hn Hent.
  - exists []. unfold entries in Hent. rewrite Hn in Hent. simpl in Hent.
    symmetry in Hent. apply Permutation_nil_r, fmap_nil_inv in Hent. subst items.
    split_and!; [done | constructor | done | done].
  - destruct (dequeue_entries q ltac:(lia)) as (q' & Hdq & Hn' & Hk' & Hperm).
    pose proof (dequeue_heap_inv q Hinv) as Hinv'. rewrite Hdq in Hinv'. simpl in Hinv'.
    assert (entry q 0 ∈ entry_of <$> items) as Hin.
    { rewrite <- Hent. apply entries_lookup. lia. }
    apply list_elem_of_fmap in Hin as (item0 & Hitem0 & Hin).
    apply elem_of_Permutation in Hin as (items' & Hitems).
    assert (entries q' ≡ₚ entry_of <$> items') as Hent'.
    { apply (Permutation_cons_inv (a := entry q 0)).
      rewrite <- Hperm, Hent, Hitems. simpl. by rewrite Hitem0. }
    destruct (IH q' items' Hinv' ltac:(lia) Hent') as (sorted' & Hs1 & Hs2 & Hs3 & Hs4).
    exists (item0 :: sorted'). split_and!.
    + by rewrite Hs1, Hitems.
    + simpl. constructor; [done|].
      assert (Forall (λ x, (priority item0 ≤ priority x)%Z) sorted') as Hall.
      { apply Forall_forall. intros x Hx.
        assert (entry_of x ∈ entries q) as Hxq.
        { rewrite Hent. apply list_elem_of_fmap_2. rewrite Hitems, <- Hs1.
          by apply list_elem_of_further. }
        destruct (root_entry_min q _ Hinv Hxq) as (p0 & p & Hp0 & Hp & Hle).
        rewrite Hitem0 in Hp0. simpl in Hp0, Hp. congruence. }
      destruct sorted' as [|y ys]; simpl; constructor.
      by inversion Hall.
    + simpl. rewrite Hdq.
      destruct (dequeue_times n q') as [rs q2] eqn:Hdt. simpl in *.
      rewrite Hs3. f_equal.
      change (elems_get q (heap_link (_heap q) 0)) with (entry q 0).1.
      by rewrite Hitem0.
    + simpl. rewrite Hdq.
      destruct (dequeue_times n q') as [rs q2] eqn:Hdt. done.
Qed.

Lemma constructor_entries range k :
  entries (constructor range k) ≡ₚ entry_of <$> range.
Proof.
  unfold constructor.
  pose proof (constructor_load_elems range 0 [] [] eq_refl) as He.
  pose proof (constructor_load_slot range 0 [] []) as Hs.
  destruct (constructor_load 0 range [] []) as [h e]. simpl in He, Hs. subst e.
  match goal with |- entries (heapify_sweep ?q0) ≡ₚ _ => set (q1 := q0) end.
  destruct (heapify_sweep_fields q1) as (_ & Hn & He & Hu & _).
  assert (entries (heapify_sweep q1) ≡ₚ entries q1) as ->
    by (apply entries_perm; [done | done | done | apply heapify_sweep_slots]).
  apply reflexive_eq. apply list_eq. intros i.
  unfold entries. rewrite !list_lookup_fmap. simpl.
  destruct (range !! i) as [item|] eqn:Hitem; simpl.
  - rewrite lookup_seq_lt by (by eapply lookup_lt_Some). simpl.
    unfold entry. simpl. specialize (Hs i item Hitem). unfold slot in Hs.
    injection Hs as -> ->. simpl. unfold js_get.
    rewrite list_lookup_fmap, Hitem. done.
  - apply lookup_ge_None_1 in Hitem.
    by rewrite lookup_ge_None_2 by (rewrite length_seq; lia).
Qed.

End Entries.

(** ** The store invariant *)

Section StoreInv.
Context {T : Type}.
Implicit Types (q : PriorityQueue T) (h : js_array Z)
  (range : list (IElementPriorityPair T)).

Lemma js_get_Some {A} (a : js_array A) i (x : A) :
  js_get a i = Some x ↔ a !! i = Some (stored (Some x)).
Proof.
  unfold js_get. destruct (a !! i) as [[|[y|]]|]; split; intros ?; simplify_eq; done.
Qed.

Lemma elem_of_exited_set q x :
  x ∈ exited_set q ↔
  ∃ j, j < _exited_indexes_count q ∧ js_get (_exited_indexes q) j = Some x.
Proof.
  unfold exited_set. rewrite elem_of_list_to_set, list_elem_of_omap. split.
  - intros (c & Hc & Hx). apply elem_of_take in Hc. destruct Hc as (j & Hj & Hlt).
    exists j. split; [done|]. apply js_get_Some.
    destruct c as [|[y|]]; simplify_eq. done.
  - intros (j & Hlt & Hj). apply js_get_Some in Hj.
    exists (stored (Some x)). split; [|done]. apply elem_of_take. eauto.
Qed.

Lemma NoDup_fmap_seq_inj {A} (f : nat → A) n i j :
  NoDup (f <$> seq 0 n) → i < n → j < n → f i = f j → i = j.
Proof.
  intros Hnd Hi Hj Heq.
  apply (NoDup_lookup _ i j (f i) Hnd).
  - by rewrite list_lookup_fmap, lookup_seq_lt.
  - rewrite list_lookup_fmap, lookup_seq_lt by done. simpl. by rewrite Heq.
Qed.

Lemma js_set_lookup_lt {A} (a : js_array A) i v j :
  i < length a →
  js_set a i v !! j = if decide (i = j) then Some (stored v) else a !! j.
Proof.
  intros Hi. unfold js_set. rewrite decide_True by done.
  case_decide as Hij.
  - subst. by rewrite list_lookup_insert_eq.
  - by rewrite list_lookup_insert_ne.
Qed.

(** [_addElem] stores the element in a cell that neither the logical heap
    nor the stack of freed indexes refers to. *)
Lemma addElem_spec elem q :
  store_inv q →
  ∃ x q1, _addElem elem q = (Some x, q1) ∧ store_inv q1 ∧
    _heap q1 = _heap q ∧ _k q1 = _k q ∧ _heap_size q1 = _heap_size q ∧
    _elems_undefined q1 = _elems_undefined q ∧
    x < _elems_size q1 ∧ (x ∉ exited_set q1) ∧
    (∀ i, i < _heap_size q → heap_link (_heap q) i ≠ Some x) ∧
    js_get (_elems q1) x = Some elem ∧
    (∀ l, l ≠ x → js_get (_elems q1) l = js_get (_elems q) l).
Proof.
  intros (Ha & Hb & Hc & Hd & He & Hf). unfold _addElem.
  case_decide as Hcount.
  - destruct (Hc (_exited_indexes_count q - 1) ltac:(lia)) as (x & Hx & Hxlt).
    rewrite Hx. simpl. eexists x, _. split; [reflexivity|].
    assert (x ∈ exited_set q) as Hxin.
    { apply elem_of_exited_set. exists (_exited_indexes_count q - 1). split; [lia | done]. }
    match goal with |- store_inv ?q1' ∧ _ => set (q1 := q1') end.
    assert (∀ y, y ∈ exited_set q1 → y ∈ exited_set q) as Hsub.
    { intros y (j & Hj & Hy)%elem_of_exited_set. simpl in Hj, Hy.
      apply elem_of_exited_set. exists j. split; [lia | done]. }
    assert (x ∉ exited_set q1) as Hxnot.
    { intros (j & Hj & Hy)%elem_of_exited_set. simpl in Hj, Hy.
      assert (j = _exited_indexes_count q - 1); [|lia].
      eapply (NoDup_fmap_seq_inj _ _ _ _ Hd); [lia | lia | congruence]. }
    split_and!; simpl; try done.
    + split_and!; simpl.
      * intros i Hi. destruct (Ha i Hi) as (l & Hl & ? & Hlex).
        exists l. split_and!; [done | done |]. intros ?. by apply Hlex, Hsub.
      * done.
      * intros j Hj. apply Hc. lia.
      * replace (_exited_indexes_count q) with (S (_exited_indexes_count q - 1)) in Hd by lia.
        rewrite seq_S, fmap_app in Hd. by apply NoDup_app in Hd as (? & _ & _).
      * rewrite js_set_length_lt; [done | lia].
      * intros i Hi. rewrite js_set_lookup_lt by lia.
        case_decide; [by eexists | by apply Hf].
    + intros i Hi Hl. destruct (Ha i Hi) as (l & Hl' & _ & Hlex).
      rewrite Hl in Hl'. by simplify_eq.
    + apply js_get_set_eq.
    + intros l Hl. by apply js_get_set_ne.
  - simpl. eexists (_elems_size q), _. split; [reflexivity|].
    assert (_exited_indexes_count q = 0) as Hc0 by lia.
    match goal with |- store_inv ?q1' ∧ _ => set (q1 := q1') end.
    assert (∀ y, y ∉ exited_set q1) as Hnone.
    { intros y (j & Hj & Hy)%elem_of_exited_set. simpl in Hj. lia. }
    split_and!; simpl; try done; try lia; try apply Hnone.
    + split_and!; simpl.
      * intros i Hi. destruct (Ha i Hi) as (l & Hl & ? & Hlex).
        exists l. split_and!; [done | lia | apply Hnone].
      * done.
      * intros j Hj. lia.
      * rewrite Hc0. simpl. constructor.
      * rewrite <- He, js_set_append, length_app. simpl. lia.
      * intros i Hi. rewrite <- He, js_set_append.
        destruct (decide (i = length (_elems q))) as [->|].
        -- rewrite lookup_app_r by lia. rewrite Nat.sub_diag. by eexists.
        -- rewrite lookup_app_l by lia. apply Hf. lia.
    + intros i Hi Hl. destruct (Ha i Hi) as (l & Hl' & ? & _).
      rewrite Hl in Hl'. simplify_eq. lia.
    + apply js_get_set_eq.
    + intros l Hl. by apply js_get_set_ne.
Qed.

Lemma links_slots h n : heap_link h <$> seq 0 n = snd <$> slots h n.
Proof. unfold slots. by rewrite <- list_fmap_compose. Qed.

(** The heap part of the store invariant only depends on the slots of the
    logical heap up to their order. *)
Lemma store_inv_perm q q' :
  _heap_size q' = _heap_size q → _elems q' = _elems q →
  _elems_size q' = _elems_size q → _exited_indexes q' = _exited_indexes q →
  _exited_indexes_count q' = _exited_indexes_count q →
  slots (_heap q') (_heap_size q) ≡ₚ slots (_heap q) (_heap_size q) →
  store_inv q → store_inv q'.
Proof.
  intros Hn He Hes Hex Hc Hs (Ha & Hb & Hc' & Hd & He' & Hf).
  assert (exited_set q' = exited_set q) as Hset
    by (unfold exited_set; by rewrite Hex, Hc).
  unfold store_inv. rewrite Hn, He, Hes, Hex, Hc, Hset.
  split_and!; try done.
  - assert (Forall (λ ol, ∃ l, ol = Some l ∧ l < _elems_size q ∧ l ∉ exited_set q)
                   (heap_link (_heap q') <$> seq 0 (_heap_size q))) as HF.
    { rewrite links_slots, Hs, <- links_slots.
      apply Forall_fmap, Forall_seq. intros j Hj. apply Ha. lia. }
    rewrite Forall_fmap, Forall_seq in HF.
    intros i Hi. apply (HF i). lia.
  - by rewrite links_slots, Hs, <- links_slots.
Qed.

End StoreInv.

Section StoreInvOps.
Context {T : Type}.
Implicit Types (q : PriorityQueue T) (h : js_array Z)
  (range : list (IElementPriorityPair T)).

(** [enqueue] keeps the store invariant and adds its pair to the enqueued
    pairs. *)
Lemma enqueue_spec elem priority q :
  1 ≤ _k q → store_inv q →
  store_inv (enqueue elem priority q) ∧
  _k (enqueue elem priority q) = _k q ∧
  _heap_size (enqueue elem priority q) = S (_heap_size q) ∧
  entries (enqueue elem priority q) ≡ₚ (Some elem, Some priority) :: entries q.
Proof.
  intros Hk Hinv. unfold enqueue.
  destruct (addElem_spec elem q Hinv)
    as (x & q1 & -> & Hinv1 & Hh & Hk1 & Hn & Hu & Hx & Hxex & Hxl & Hget & Hother).
  cbv zeta. rewrite Hh, Hk1, Hn.
  set (h2 := js_set (js_set (_heap q) (_heap_size q * 2) (Some priority)) _ _).
  assert (∀ j, slot h2 j
    = if decide (_heap_size q = j) then (Some priority, Some x) else slot (_heap q) j)
    as Hslot by (intros j; apply (slot_set_pair _ _ _ (Some x))).
  set (q2 := mkQueue h2 (_k q) (S (_heap_size q)) (_elems q1) (_elems_undefined q1)
                     (_elems_size q1) (_exited_indexes q1) (_exited_indexes_count q1)).
  assert (slots h2 (S (_heap_size q))
          = slots (_heap q) (_heap_size q) ++ [(Some priority, Some x)]) as Hslots.
  { unfold slots. rewrite seq_S, fmap_app. simpl. f_equal.
    - apply list_fmap_ext. intros i j Hj. apply lookup_seq in Hj.
      rewrite Hslot. rewrite decide_False by lia. done.
    - rewrite Hslot. by rewrite decide_True. }
  assert (store_inv q2) as Hinv2.
  { destruct Hinv1 as (Ha & Hb & Hc & Hd & He & Hf).
    rewrite Hh, Hn in Ha, Hb.
    unfold store_inv. change (exited_set q2) with (exited_set q1).
    cbn [q2 _heap _heap_size _elems _elems_size _exited_indexes _exited_indexes_count].
    split_and!; try done.
    - intros i Hi. destruct (decide (i = _heap_size q)) as [->|].
      + exists x. specialize (Hslot (_heap_size q)). rewrite decide_True in Hslot by done.
        unfold slot in Hslot. injection Hslot as _ ->. done.
      + specialize (Hslot i). rewrite decide_False in Hslot by done.
        unfold slot in Hslot. injection Hslot as _ ->. apply Ha. lia.
    - rewrite links_slots, Hslots, fmap_app, <- links_slots. simpl.
      apply NoDup_app. split_and!; [done | | apply NoDup_singleton].
      intros ol (i & -> & Hi)%list_elem_of_fmap Hin.
      apply elem_of_seq in Hi. apply list_elem_of_singleton in Hin.
      apply (Hxl i); [lia | done]. }
  assert (slots (_heap (_restoreUp (_heap_size q2 - 1) q2)) (_heap_size q2)
          ≡ₚ slots (_heap q2) (_heap_size q2)) as Hperm.
  { simpl. rewrite Nat.sub_0_r. apply restoreUp_loop_slots; [done | lia]. }
  split_and!.
  - eapply (store_inv_perm q2); try done.
  - done.
  - done.
  - assert (entries (_restoreUp (_heap_size q2 - 1) q2) ≡ₚ entries q2) as ->
      by (by apply entries_perm).
    rewrite !entries_slots. simpl _heap. simpl _heap_size.
    rewrite Hslots, fmap_app. simpl.
    rewrite <- Permutation_cons_append. f_equiv.
    + f_equal. unfold elems_get. simpl. done.
    + apply reflexive_eq, list_fmap_ext. intros i [p ol] Hi. simpl.
      f_equal. unfold slots in Hi. rewrite list_lookup_fmap in Hi.
      destruct (seq 0 (_heap_size q) !! i) as [j|] eqn:Hj; [|done].
      apply lookup_seq in Hj as [-> Hj]. simpl in Hi. injection Hi as _ <-.
      destruct (heap_link (_heap q) i) as [l|] eqn:Hl; simpl.
      * apply Hother. intros ->. by apply (Hxl i).
      * done.
Qed.

Lemma enqueue_all_spec range q :
  1 ≤ _k q → store_inv q →
  store_inv (enqueue_all range q) ∧
  _k (enqueue_all range q) = _k q ∧
  _heap_size (enqueue_all range q) = _heap_size q + length range ∧
  entries (enqueue_all range q) ≡ₚ (entry_of <$> range) ++ entries q.
Proof.
  unfold enqueue_all. revert q.
  induction range as [|item rest IH]; intros q Hk Hinv; simpl.
  - split_and!; [done | done | lia | done].
  - destruct (enqueue_spec (element item) (priority item) q Hk Hinv)
      as (Hinv1 & Hk1 & Hn1 & He1).
    destruct (IH _ ltac:(by rewrite Hk1) Hinv1) as (Hinv2 & Hk2 & Hn2 & He2).
    split_and!; [done | congruence | lia |].
    rewrite He2, He1. unfold entry_of at 2.
    by rewrite <- Permutation_middle.
Qed.

Lemma constructor_store_inv range k : store_inv (constructor range k).
Proof.
  unfold constructor.
  pose proof (constructor_load_elems range 0 [] [] eq_refl) as He.
  pose proof (constructor_load_slot range 0 [] []) as Hs.
  destruct (constructor_load 0 range [] []) as [h e]. simpl in He, Hs. subst e.
  match goal with |- store_inv (heapify_sweep ?q0) => set (q1 := q0) end.
  destruct (heapify_sweep_fields q1) as (_ & Hn & He & _ & Hes & Hex & Hc).
  apply (store_inv_perm q1); try done; [apply heapify_sweep_slots|].
  assert (∀ i, i < length range → heap_link h i = Some i) as Hlink.
  { intros i Hi. destruct (lookup_lt_is_Some_2 range i Hi) as [item Hitem].
    specialize (Hs i item Hitem). unfold slot in Hs. by injection Hs. }
  split_and!; simpl.
  - intros i Hi. exists i. split_and!; [by apply Hlink | done |].
    intros (j & Hj & _)%elem_of_exited_set. simpl in Hj. lia.
  - erewrite list_fmap_ext; [|intros i j Hj; apply lookup_seq in Hj; apply Hlink; lia].
    apply NoDup_fmap_2; [|apply NoDup_seq]. by intros ?? [=].
  - intros j Hj. lia.
  - constructor.
  - by rewrite length_fmap.
  - intros i Hi. destruct (lookup_lt_is_Some_2 range i Hi) as [item Hitem].
    exists (element item). by rewrite list_lookup_fmap, Hitem.
Qed.

End StoreInvOps.

Section StoreInvRoot.
Context {T : Type}.
Implicit Types (q : PriorityQueue T) (h : js_array Z)
  (range : list (IElementPriorityPair T)).

Lemma slot_eq_inv h h' i j :
  slot h i = slot h' j →
  heap_prio h i = heap_prio h' j ∧ heap_link h i = heap_link h' j.
Proof. unfold slot. by intros [=]. Qed.

Lemma dequeue_store_inv q : store_inv q → store_inv (dequeue q).2.
Proof.
  intros Hinv. unfold dequeue. case_decide as Hn; [done|]. simpl snd.
  match goal with |- store_inv (_restoreDown 0 ?q0) => set (q1 := q0) end.
  apply (store_inv_perm q1); try done; [apply restoreDown_loop_slots|].
  destruct Hinv as (Ha & Hb & Hc & Hd & He & Hf).
  destruct (Ha 0 ltac:(lia)) as (l0 & Hl0 & Hl0lt & Hl0ex).
  pose proof (dequeue_move_slots (_heap q) (_heap_size q - 1)) as Hperm.
  apply (fmap_Permutation snd) in Hperm. rewrite fmap_cons in Hperm.
  rewrite <- !links_slots in Hperm. cbn [slot snd] in Hperm.
  replace (S (_heap_size q - 1)) with (_heap_size q) in Hperm by lia.
  rewrite Hl0 in Hperm.
  match type of Hperm with _ :: (heap_link ?h' <$> _) ≡ₚ _ => set (h2 := h') in * end.
  rewrite <- Hperm in Hb. apply NoDup_cons in Hb as [Hnotin Hb].
  assert (Forall (λ ol, ∃ l, ol = Some l ∧ l < _elems_size q ∧ l ∉ exited_set q)
                 (heap_link h2 <$> seq 0 (_heap_size q - 1))) as HF.
  { assert (Forall (λ ol, ∃ l, ol = Some l ∧ l < _elems_size q ∧ l ∉ exited_set q)
                   (heap_link (_heap q) <$> seq 0 (_heap_size q))) as HF0.
    { apply Forall_fmap, Forall_seq. intros j Hj. apply Ha. lia. }
    rewrite <- Hperm in HF0. by inversion HF0. }
  assert (∀ j, js_get (js_set (_exited_indexes q) (_exited_indexes_count q)
                              (heap_link (_heap q) 0)) j
    = if decide (_exited_indexes_count q = j) then Some l0
      else js_get (_exited_indexes q) j) as Hex.
  { intros j. rewrite js_get_set. by rewrite Hl0. }
  assert (∀ y, y ∈ exited_set q1 → y = l0 ∨ y ∈ exited_set q) as Hset.
  { intros y (j & Hj & Hy)%elem_of_exited_set. simpl in Hj, Hy. rewrite Hex in Hy.
    case_decide; [left; congruence|]. right.
    apply elem_of_exited_set. exists j. split; [lia | done]. }
  unfold store_inv.
  cbn [q1 _heap _heap_size _elems _elems_size _exited_indexes _exited_indexes_count].
  fold h2. split_and!; try done.
  - intros i Hi. rewrite Forall_fmap, Forall_seq in HF.
    destruct (HF i ltac:(lia)) as (l & Hl & Hlt & Hlex). simpl in Hl.
    exists l. split_and!; [done | done |].
    intros [->|?]%Hset; [|done].
    apply Hnotin. rewrite <- Hl. apply list_elem_of_fmap_2, elem_of_seq. lia.
  - intros j Hj. rewrite Hex.
    case_decide; [by eexists|]. apply Hc. lia.
  - rewrite seq_S, fmap_app. simpl.
    apply NoDup_app. split_and!.
    + erewrite list_fmap_ext; [exact Hd|].
      intros i j Hj. apply lookup_seq in Hj.
      rewrite Hex. by rewrite decide_False by lia.
    + intros ol (j & -> & Hj)%list_elem_of_fmap Hin.
      apply elem_of_seq in Hj. apply list_elem_of_singleton in Hin.
      rewrite !Hex in Hin.
      rewrite decide_False, decide_True in Hin by (done || lia).
      apply Hl0ex, elem_of_exited_set. exists j. split; [lia | done].
    + apply NoDup_singleton.
Qed.

Lemma omap_imap_middle {A B} (F : nat → A → option B) L c R :
  omap id (imap F (L ++ c :: R))
  = omap id (imap F L)
    ++ match F (length L) c with Some y => [y] | None => [] end
    ++ omap id (imap (λ n, F (length L + S n)) R).
Proof.
  rewrite imap_app, omap_app, imap_cons. simpl. rewrite Nat.add_0_r.
  by destruct (F (length L) c).
Qed.

(** Overwriting a live cell of the element store changes exactly that
    item of [unorderedItems]. *)
Lemma unorderedItems_set q l elem v :
  _elems q !! l = Some (stored v) → l ∉ exited_set q →
  ∃ A B,
    unorderedItems q = A ++ v :: B ∧
    unorderedItems
      (mkQueue (_heap q) (_k q) (_heap_size q) (js_set (_elems q) l (Some elem))
               (_elems_undefined q) (_elems_size q)
               (_exited_indexes q) (_exited_indexes_count q))
    = A ++ Some elem :: B.
Proof.
  intros Hl Hex.
  pose proof (lookup_lt_Some _ _ _ Hl) as Hlt.
  unfold unorderedItems.
  match goal with |- context [exited_set (mkQueue ?a ?b ?c ?d ?e ?f ?g ?i)] =>
    change (exited_set (mkQueue a b c d e f g i)) with (exited_set q) end.
  set (F := λ (i : nat) (c : cell T),
         match c with
         | stored v0 => if decide (i ∈ exited_set q) then None else Some v0
         | hole => None
         end).
  cbn [_elems]. unfold js_set. rewrite decide_True by done.
  rewrite insert_take_drop by done.
  assert (length (take l (_elems q)) = l) as Hlen by (apply length_take_le; lia).
  remember (take l (_elems q)) as L eqn:HL.
  remember (drop (S l) (_elems q)) as R eqn:HR.
  assert (_elems q = L ++ stored v :: R) as ->
    by (subst L R; symmetry; by apply take_drop_middle).
  rewrite !omap_imap_middle, Hlen.
  exists (omap id (imap F L)), (omap id (imap (λ n, F (l + S n)) R)).
  assert (∀ w, F l (stored w) = Some w) as HF
    by (intros w; unfold F; by rewrite decide_False by done).
  by rewrite !HF.
Qed.

(** The shared body of [enqueueDequeue] and [dequeueEnqueue] on a
    non-empty queue: it returns the element of the root, and replaces the
    root pair by the new pair. *)
Lemma replace_root_spec elem priority q :
  store_inv q → 0 < _heap_size q →
  (replace_root elem priority q).1 = elems_get q (heap_link (_heap q) 0) ∧
  store_inv (replace_root elem priority q).2 ∧
  _k (replace_root elem priority q).2 = _k q ∧
  _heap_size (replace_root elem priority q).2 = _heap_size q ∧
  (∃ tail, entries q = entry q 0 :: tail ∧
           entries (replace_root elem priority q).2
           ≡ₚ (Some elem, Some priority) :: tail) ∧
  (∃ A B, unorderedItems q = A ++ elems_get q (heap_link (_heap q) 0) :: B ∧
          unorderedItems (replace_root elem priority q).2 = A ++ Some elem :: B).
Proof.
  intros Hinv Hn. unfold replace_root. cbn [fst snd].
  split; [done|].
  pose proof Hinv as (Ha & Hb & Hc & Hd & He & Hf).
  destruct (Ha 0 Hn) as (l0 & Hl0 & Hl0lt & Hl0ex).
  set (h1 := js_set (_heap q) 0 (Some priority)).
  assert (∀ j, slot h1 j = if decide (j = 0) then (Some priority, Some l0)
                           else slot (_heap q) j) as Hslot.
  { intros j. unfold h1, slot. change (js_set (_heap q) 0) with (js_set (_heap q) (0 * 2)).
    rewrite heap_prio_set_even, heap_link_set_even.
    repeat case_decide; try lia; subst; by rewrite ?Hl0. }
  assert (heap_link h1 0 = Some l0) as Hl1.
  { specialize (Hslot 0). unfold slot in Hslot. by injection Hslot. }
  change (_heap (set_heap q h1)) with h1. rewrite Hl1. cbn [elems_set set_heap].
  cbn [_heap _k _heap_size _elems _elems_undefined _elems_size
       _exited_indexes _exited_indexes_count].
  match goal with |- store_inv (_restoreDown 0 ?q0) ∧ _ => set (q2 := q0) end.
  destruct (Hf l0 Hl0lt) as (e0 & He0).
  assert (∀ l, l ≠ l0 → js_get (_elems q2) l = js_get (_elems q) l) as Hother
    by (intros l Hne; by apply js_get_set_ne).
  assert (store_inv q2) as Hinv2.
  { unfold store_inv. change (exited_set q2) with (exited_set q).
    cbn [q2 set_heap _heap _heap_size _elems _elems_size _exited_indexes
         _exited_indexes_count].
    split_and!; try done.
    - intros i Hi. specialize (Hslot i). unfold slot in Hslot.
      case_decide; injection Hslot as _ ->; [by exists l0 | by apply Ha].
    - erewrite list_fmap_ext; [exact Hb|].
      intros _ j _. specialize (Hslot j). unfold slot in Hslot.
      case_decide; injection Hslot as _ ->; [by subst | done].
    - rewrite js_set_length_lt; [done | lia].
    - intros i Hi. rewrite js_set_lookup_lt by lia.
      case_decide; [by eexists | by apply Hf]. }
  assert (slots (_heap (_restoreDown 0 q2)) (_heap_size q2)
          ≡ₚ slots (_heap q2) (_heap_size q2)) as Hperm
    by apply restoreDown_loop_slots.
  split_and!.
  - by apply (store_inv_perm q2).
  - done.
  - done.
  - exists (entry q <$> seq 1 (_heap_size q - 1)). split.
    { unfold entries. by replace (_heap_size q) with (S (_heap_size q - 1)) at 1 by lia. }
    assert (entries (_restoreDown 0 q2) ≡ₚ entries q2) as ->
      by (by apply entries_perm).
    apply reflexive_eq. unfold entries. cbn [q2 set_heap _heap_size].
    replace (_heap_size q) with (S (_heap_size q - 1)) at 1 by lia.
    simpl. f_equal.
    + unfold entry. cbn [q2 set_heap _heap]. rewrite Hl1. specialize (Hslot 0).
      unfold slot in Hslot. injection Hslot as -> _.
      unfold elems_get. cbn [q2 _elems]. by rewrite js_get_set_eq.
    + apply list_fmap_ext. intros i j Hj. apply lookup_seq in Hj as [-> Hj].
      unfold entry. cbn [q2 set_heap _heap]. specialize (Hslot (1 + i)).
      rewrite decide_False in Hslot by lia.
      apply slot_eq_inv in Hslot as [-> ->]. f_equal.
      destruct (Ha (1 + i) ltac:(lia)) as (l & Hl & _ & _). rewrite Hl.
      apply Hother. intros ->.
      assert (1 + i = 0); [|lia].
      apply (NoDup_fmap_seq_inj _ _ _ _ Hb); [lia | lia | congruence].
  - destruct (unorderedItems_set q l0 elem (Some e0) He0 Hl0ex) as (A & B & HA & HB).
    exists A, B. rewrite Hl0. unfold elems_get.
    assert (js_get (_elems q) l0 = Some e0) as -> by (by apply js_get_Some).
    split; [done|].
    rewrite <- HB. unfold unorderedItems.
    by change (exited_set (_restoreDown 0 q2)) with (exited_set q).
Qed.

End StoreInvRoot.

(** ** The sweep of the bulk heapify *)

Section Sweep.
Context {T : Type}.
Implicit Types (q : PriorityQueue T) (h : js_array Z).

Lemma sweep_from_indexes i q :
  sweep_from i q = foldl (λ q' j, _restoreDown j q') q (sweep_indexes i).
Proof. revert q. induction i as [|i IH]; intros q; simpl; [done | apply IH]. Qed.

Lemma heapify_sweep_indexes q :
  heapify_sweep q
  = foldl (λ q' j, _restoreDown j q') q (heapify_indexes (_heap_size q) (_k q)).
Proof.
  unfold heapify_sweep, heapify_indexes.
  destruct (_heap_size q); [done | apply sweep_from_indexes].
Qed.

Lemma constructor_unfold (range : list (IElementPriorityPair T)) k :
  constructor range k = heapify_sweep (constructor_loaded range k).
Proof.
  unfold constructor, constructor_loaded.
  by destruct (constructor_load 0 range [] []).
Qed.

Lemma constructor_loaded_fields (range : list (IElementPriorityPair T)) k :
  _k (constructor_loaded range k) = k ∧
  _heap_size (constructor_loaded range k) = length range.
Proof. unfold constructor_loaded. by destruct (constructor_load 0 range [] []). Qed.

Lemma sweep_indexes_reverse i : sweep_indexes i = reverse (seq 0 (S i)).
Proof.
  induction i as [|i IH]; [done|].
  change (sweep_indexes (S i)) with (S i :: sweep_indexes i).
  by rewrite IH, (seq_S (S i)), reverse_snoc.
Qed.

Lemma elem_of_sweep_indexes i j : j ∈ sweep_indexes i ↔ j ≤ i.
Proof.
  rewrite sweep_indexes_reverse, elem_of_reverse, elem_of_seq. lia.
Qed.

(** On a position without a child inside the heap the loop of
    [_restoreDown] breaks at once. *)
Lemma min_child_scan_leaf h k n c :
  ¬ k * c + 1 < n → min_child_scan h k n c = (MAX_SAFE_INTEGER, 0).
Proof.
  intros Hleaf. unfold min_child_scan.
  assert (∀ l acc, Forall (λ i, 1 ≤ i) l →
            foldl (min_child_step h k n c) acc l = acc) as Hgen.
  { induction l as [|i l IH]; intros acc Hall; simpl; [done|].
    inversion Hall; subst. rewrite IH by done.
    unfold min_child_step. rewrite decide_False by lia. done. }
  apply Hgen. apply Forall_seq. lia.
Qed.

Lemma restoreDown_leaf c q : ¬ internal_node (_k q) (_heap_size q) c → _restoreDown c q = q.
Proof.
  intros Hleaf. unfold _restoreDown.
  assert (restoreDown_loop (_heap_size q) (_k q) (_heap_size q) (_heap q) c = _heap q) as ->.
  { destruct (_heap_size q) eqn:Hn; simpl; [done|].
    rewrite min_child_scan_leaf by (by rewrite <- Hn in Hleaf |- *).
    by rewrite decide_True. }
  by destruct q.
Qed.

End Sweep.

(** ** The store invariant through every public operation *)

Section QueueInv.
Context {T : Type}.
Implicit Types (q : PriorityQueue T) (h : js_array Z)
  (range : list (IElementPriorityPair T)).

Lemma heap_swap_link_values h i j x l :
  heap_link (heap_swap h i j) x = Some l → ∃ y, heap_link h y = Some l.
Proof. rewrite heap_link_swap. repeat case_decide; eauto. Qed.

Lemma restoreDown_loop_link_values f k n h c x l :
  heap_link (restoreDown_loop f k n h c) x = Some l → ∃ y, heap_link h y = Some l.
Proof.
  revert h c. induction f as [|f IH]; intros h c; simpl; [eauto|].
  destruct (min_child_scan h k n c) as [mc mi].
  case_decide; [eauto|]. intros (y & Hy)%IH.
  case_match; [by eapply heap_swap_link_values | eauto].
Qed.

Lemma restoreUp_loop_link_values f k h c x l :
  heap_link (restoreUp_loop f k h c) x = Some l → ∃ y, heap_link h y = Some l.
Proof.
  revert h c. induction f as [|f IH]; intros h c; simpl; [eauto|].
  destruct c as [|c]; [eauto|]. case_match; [|eauto].
  intros (y & Hy)%IH. by eapply heap_swap_link_values.
Qed.

Lemma sweep_from_link_values i q x l :
  heap_link (_heap (sweep_from i q)) x = Some l → ∃ y, heap_link (_heap q) y = Some l.
Proof.
  revert q. induction i as [|i IH]; intros q; simpl.
  - apply restoreDown_loop_link_values.
  - intros (y & Hy)%IH. simpl in Hy. by eapply restoreDown_loop_link_values.
Qed.

Lemma heapify_sweep_link_values q x l :
  heap_link (_heap (heapify_sweep q)) x = Some l → ∃ y, heap_link (_heap q) y = Some l.
Proof.
  destruct (heapify_sweep_cases q) as [->|[i ->]]; [eauto|].
  apply sweep_from_link_values.
Qed.

Lemma heapify_sweep_queue_inv q : queue_inv q → queue_inv (heapify_sweep q).
Proof.
  intros [Hst Hlb].
  destruct (heapify_sweep_fields q) as (Hk & Hn & He & Hu & Hes & Hex & Hc).
  split.
  - apply (store_inv_perm q); try done. apply heapify_sweep_slots.
  - intros x l (y & Hy)%heapify_sweep_link_values. rewrite Hes. by eapply Hlb.
Qed.

Lemma constructor_load_beyond range i h (e : js_array T) j :
  i + length range ≤ j → slot (constructor_load i range h e).1 j = slot h j.
Proof.
  revert i h e. induction range as [|item rest IH]; intros i h e Hj; simpl in *; [done|].
  rewrite IH by lia.
  rewrite (slot_set_pair h i (Some (priority item)) (Some i)).
  by rewrite decide_False by lia.
Qed.

Lemma constructor_queue_inv range k : queue_inv (constructor range k).
Proof.
  split; [apply constructor_store_inv|].
  rewrite constructor_unfold. unfold links_bounded.
  destruct (heapify_sweep_fields (constructor_loaded range k)) as (_ & _ & _ & _ & -> & _).
  intros x l (y & Hy)%heapify_sweep_link_values. revert Hy.
  unfold constructor_loaded.
  pose proof (constructor_load_slot range 0 [] ([] : js_array T)) as Hs.
  pose proof (constructor_load_beyond range 0 [] ([] : js_array T)) as Hb.
  destruct (constructor_load 0 range [] []) as [h e]. simpl in *.
  destruct (decide (y < length range)) as [Hy|Hy].
  - destruct (lookup_lt_is_Some_2 range y Hy) as [item Hitem].
    specialize (Hs y item Hitem). unfold slot in Hs. injection Hs as _ ->.
    intros [= <-]. done.
  - specialize (Hb y ltac:(lia)). unfold slot in Hb. injection Hb as _ ->.
    unfold heap_link, js_get. by rewrite lookup_nil.
Qed.

Lemma addElem_size elem q : _elems_size q ≤ _elems_size (_addElem elem q).2.
Proof.
  unfold _addElem. case_decide; simpl.
  - destruct (js_get _ _); simpl; lia.
  - lia.
Qed.

Lemma enqueue_queue_inv elem priority q :
  1 ≤ _k q → queue_inv q → queue_inv (enqueue elem priority q).
Proof.
  intros Hk [Hst Hlb]. split; [by apply enqueue_spec|].
  revert Hlb. unfold links_bounded, enqueue.
  pose proof (addElem_size elem q) as Hsize.
  destruct (addElem_spec elem q Hst)
    as (x & q1 & Hadd & _ & Hh & _ & Hn & _ & Hx & _).
  rewrite Hadd in Hsize |- *. simpl in Hsize. cbv zeta. simpl.
  intros Hlb i l (y & Hy)%restoreUp_loop_link_values.
  rewrite heap_link_set_odd, heap_link_set_even, Hh in Hy.
  case_decide.
  - rewrite link_of_nat in Hy. by simplify_eq.
  - apply Hlb in Hy. lia.
Qed.

Lemma dequeue_queue_inv q : queue_inv q → queue_inv (dequeue q).2.
Proof.
  intros [Hst Hlb]. split; [by apply dequeue_store_inv|].
  revert Hlb. unfold links_bounded, dequeue. case_decide; [done|]. simpl.
  intros Hlb i l (y & Hy)%restoreDown_loop_link_values.
  pose proof (dequeue_move_slot (_heap q) (_heap_size q - 1) y) as Hs.
  case_decide; apply slot_eq_inv in Hs as [_ Hl]; rewrite Hl in Hy; by eapply Hlb.
Qed.

(** The shared body of [enqueueDequeue] and [dequeueEnqueue] keeps the
    invariant of the store, also on an empty queue, where it writes behind
    a stale link or into the property "undefined". *)
Lemma replace_root_queue_inv elem priority q :
  queue_inv q → queue_inv (replace_root elem priority q).2.
Proof.
  intros [Hst Hlb].
  assert (links_bounded (replace_root elem priority q).2) as Hlb'.
  { unfold links_bounded, replace_root. cbn [snd].
    assert (∀ h' x, _elems_size (_restoreDown 0
              (elems_set (set_heap q h') x elem)) = _elems_size q) as Hes
      by (intros h' [x|]; done).
    rewrite Hes. intros i l (y & Hy)%restoreDown_loop_link_values.
    destruct (elems_set_heap (set_heap q (js_set (_heap q) 0 (Some priority)))
      (heap_link (_heap (set_heap q (js_set (_heap q) 0 (Some priority)))) 0) elem)
      as (Hh & _ & _).
    rewrite Hh in Hy. simpl in Hy.
    change (js_set (_heap q) 0) with (js_set (_heap q) (0 * 2)) in Hy.
    rewrite heap_link_set_even in Hy. by eapply Hlb. }
  split; [|done].
  destruct (decide (0 < _heap_size q)) as [Hn|Hn].
  { by apply replace_root_spec. }
  clear Hlb'. unfold replace_root. cbn [snd].
  set (h1 := js_set (_heap q) 0 (Some priority)).
  assert (heap_link h1 0 = heap_link (_heap q) 0) as Hl1.
  { unfold h1. change (js_set (_heap q) 0) with (js_set (_heap q) (0 * 2)).
    by rewrite heap_link_set_even. }
  change (_heap (set_heap q h1)) with h1. rewrite Hl1.
  destruct Hst as (Ha & Hb & Hc & Hd & He & Hf).
  match goal with |- store_inv (_restoreDown 0 ?q0) => set (q2 := q0) end.
  assert (_heap_size q2 = 0 ∧ _elems_size q2 = _elems_size q ∧
          _exited_indexes q2 = _exited_indexes q ∧
          _exited_indexes_count q2 = _exited_indexes_count q) as (Hn2 & Hes2 & Hex2 & Hc2).
  { unfold q2. destruct (heap_link (_heap q) 0); simpl; split_and!; (done || lia). }
  assert (store_inv q2) as Hst2.
  { assert (exited_set q2 = exited_set q) as Hset
      by (unfold exited_set; by rewrite Hex2, Hc2).
    unfold store_inv. rewrite Hn2, Hes2, Hex2, Hc2.
    split_and!; try done.
    - intros i Hi. lia.
    - constructor.
    - unfold q2. destruct (heap_link (_heap q) 0) as [l|] eqn:Hl; simpl; [|done].
      rewrite js_set_length_lt; [done|]. rewrite He. by eapply Hlb.
    - intros i Hi. unfold q2.
      destruct (heap_link (_heap q) 0) as [l|] eqn:Hl; simpl; [|by apply Hf].
      rewrite js_set_lookup_lt by (rewrite He; by eapply Hlb).
      case_decide; [by eexists | by apply Hf]. }
  apply (store_inv_perm q2); try done. apply restoreDown_loop_slots.
Qed.

Lemma enqueueRange_load_queue_inv range i q :
  queue_inv q → queue_inv (enqueueRange_load i range q).
Proof.
  revert i q. induction range as [|item rest IH]; intros i q [Hst Hlb]; simpl; [done|].
  pose proof (addElem_size (element item) q) as Hsize.
  destruct (addElem_spec (element item) q Hst)
    as (x & q1 & Hadd & Hst1 & Hh & Hk & Hn & _ & Hx & _).
  rewrite Hadd in Hsize |- *. simpl in Hsize.
  apply IH. split.
  - apply (store_inv_perm q1); try done. simpl.
    apply reflexive_eq, list_fmap_ext. intros i' j Hj%lookup_seq.
    rewrite (slot_set_pair _ _ _ (Some x)). by rewrite decide_False by lia.
  - intros j l. simpl. rewrite heap_link_set_odd, heap_link_set_even, Hh.
    case_decide.
    + rewrite link_of_nat. by intros [= <-].
    + intros Hl%Hlb. lia.
Qed.

Lemma enqueue_all_queue_inv range q :
  1 ≤ _k q → queue_inv q → queue_inv (enqueue_all range q).
Proof.
  unfold enqueue_all. revert q.
  induction range as [|item rest IH]; intros q Hk Hinv; simpl; [done|].
  apply IH; [|by apply enqueue_queue_inv].
  by destruct (enqueue_spec (element item) (priority item) q Hk (proj1 Hinv))
    as (_ & -> & _).
Qed.

Lemma enqueueRange_queue_inv range q :
  1 ≤ _k q → queue_inv q → queue_inv (enqueueRange range q).
Proof.
  intros Hk Hinv. unfold enqueueRange. case_match.
  - by apply enqueue_all_queue_inv.
  - by apply heapify_sweep_queue_inv, enqueueRange_load_queue_inv.
Qed.

Lemma clear_queue_inv q : queue_inv (clear q).
Proof.
  split.
  - split_and!; simpl; try (intros ??; lia); try constructor; done.
  - intros i l. unfold heap_link, js_get. simpl. by rewrite ?lookup_nil.
Qed.

Lemma shrink_copy_elems q n i heap (elems : js_array T) :
  length elems = i →
  (shrink_copy q n i heap elems).2
  = elems ++ ((λ j, stored (elems_get q (heap_link (_heap q) j))) <$> seq i n).
Proof.
  revert i heap elems. induction n as [|n IH]; intros i heap elems He; simpl.
  - by rewrite app_nil_r.
  - rewrite IH.
    + subst i. rewrite js_set_append. by rewrite <- app_assoc.
    + subst i. rewrite js_set_append, length_app. simpl. lia.
Qed.

Lemma shrink_copy_beyond q n i heap (elems : js_array T) j :
  i + n ≤ j → slot (shrink_copy q n i heap elems).1 j = slot heap j.
Proof.
  revert i heap elems. induction n as [|n IH]; intros i heap elems Hj; simpl; [done|].
  rewrite IH by lia.
  rewrite (slot_set_pair heap i (heap_prio (_heap q) i) (Some i)).
  by rewrite decide_False by lia.
Qed.

Lemma shrink_queue_inv q : queue_inv q → queue_inv (shrink q).
Proof.
  intros [(Ha & Hb & Hc & Hd & He & Hf) Hlb].
  destruct (shrink_fields q) as (Hk' & Hn' & _ & Hs).
  assert (∀ j, j < _heap_size q → heap_link (_heap (shrink q)) j = Some j) as Hlink.
  { intros j Hj. destruct (Hs j Hj) as [Hsl _]. unfold slot in Hsl. by injection Hsl. }
  assert (_elems (shrink q)
          = (λ j, stored (elems_get q (heap_link (_heap q) j))) <$> seq 0 (_heap_size q)
          ∧ _elems_size (shrink q) = _heap_size q
          ∧ _exited_indexes_count (shrink q) = 0
          ∧ ∀ j, _heap_size q ≤ j → heap_link (_heap (shrink q)) j = None)
    as (Helems & Hes & Hcnt & Hbeyond).
  { unfold shrink.
    pose proof (shrink_copy_elems q (_heap_size q) 0 [] [] eq_refl) as Hel.
    pose proof (shrink_copy_beyond q (_heap_size q) 0 [] []) as Hbe.
    destruct (shrink_copy q (_heap_size q) 0 [] []) as [heap elems].
    simpl in *. split_and!; [done | done | done |].
    intros j Hj. specialize (Hbe j Hj). unfold slot in Hbe. injection Hbe as _ ->.
    unfold heap_link, js_get. by rewrite lookup_nil. }
  split.
  - unfold store_inv. rewrite Hn', Hes, Hcnt, Helems. split_and!.
    + intros i Hi. exists i. split_and!; [by apply Hlink | done |].
      intros (j & Hj & _)%elem_of_exited_set. lia.
    + erewrite list_fmap_ext; [|intros i j Hj%lookup_seq; apply Hlink; lia].
      apply NoDup_fmap_2; [|apply NoDup_seq]. by intros ?? [=].
    + intros j Hj. lia.
    + constructor.
    + by rewrite length_fmap, length_seq.
    + intros i Hi. rewrite list_lookup_fmap, lookup_seq_lt by done. simpl.
      destruct (Ha i Hi) as (l & -> & Hl & _). simpl.
      destruct (Hf l Hl) as (e & Hel). exists e.
      by apply js_get_Some in Hel as ->.
  - intros j l Hjl. rewrite Hes.
    destruct (decide (j < _heap_size q)) as [Hj|Hj].
    + rewrite Hlink in Hjl by done. by simplify_eq.
    + rewrite Hbeyond in Hjl by lia. done.
Qed.

(** Every public operation keeps the invariant of the store. *)
Lemma perform_queue_inv (op : operation T) q :
  1 ≤ _k q → queue_inv q → queue_inv (perform op q) ∧ _k (perform op q) = _k q.
Proof.
  intros Hk Hinv. destruct op as [e p| | |e p|e p|rg| |]; simpl.
  - split; [by apply enqueue_queue_inv|]. by apply enqueue_spec, Hinv.
  - split; [by apply dequeue_queue_inv|]. unfold dequeue. by case_decide.
  - unfold peek. by case_decide.
  - unfold enqueueDequeue. case_match; [done|].
    pose proof (replace_root_queue_inv e p q Hinv).
    unfold replace_root in *. simpl in *. split; [done|]. by destruct (heap_link _ 0).
  - unfold dequeueEnqueue. case_decide; [done|].
    pose proof (replace_root_queue_inv e p q Hinv).
    unfold replace_root in *. simpl in *. split; [done|]. by destruct (heap_link _ 0).
  - split; [by apply enqueueRange_queue_inv|].
    unfold enqueueRange. case_match.
    + by apply enqueue_all_spec, Hinv.
    + destruct (heapify_sweep_fields (enqueueRange_load 0 rg q)) as (-> & _).
      by destruct (enqueueRange_load_prefix rg 0 q) as (-> & _).
  - split; [apply clear_queue_inv | done].
  - split; [by apply shrink_queue_inv|]. by destruct (shrink_fields q) as (-> & _).
Qed.

(** The states reached from the constructor satisfy the invariant of the
    store, whatever the priorities. *)
Lemma run_queue_inv (ops : list (operation T)) range k :
  1 ≤ k → queue_inv (run ops (constructor range k)).
Proof.
  intros Hk.
  assert (∀ q, 1 ≤ _k q → queue_inv q → queue_inv (run ops q)) as Hgen.
  { unfold run. induction ops as [|op ops IH]; intros q Hkq Hinv; simpl; [done|].
    destruct (perform_queue_inv op q Hkq Hinv) as [Hinv' Hk'].
    apply IH; [by rewrite Hk' | done]. }
  apply Hgen; [|apply constructor_queue_inv].
  by destruct (constructor_fields range k) as (-> & _).
Qed.

End QueueInv.

(** ** [unorderedItems] and the enqueued elements *)

Section Items.
Context {T : Type}.
Implicit Types (q : PriorityQueue T) (h : js_array Z) (ex : nat → bool)
  (range : list (IElementPriorityPair T)).

Lemma unorderedItems_visible q :
  unorderedItems q = visible (λ i, bool_decide (i ∈ exited_set q)) (_elems q).
Proof.
  unfold unorderedItems, visible. f_equal. apply imap_ext. intros i [|v] _; [done|].
  simpl. by destruct (decide (i ∈ exited_set q));
    [rewrite bool_decide_true | rewrite bool_decide_false].
Qed.

Lemma visible_middle ex (L : js_array T) c R :
  visible ex (L ++ c :: R)
  = visible ex L ++ cell_item (ex (length L)) c
    ++ visible (λ n, ex (length L + S n)) R.
Proof.
  unfold visible. rewrite omap_imap_middle. do 2 f_equal.
  destruct c as [|v]; [done|]. simpl. by destruct (ex (length L)).
Qed.

Lemma visible_ext ex ex' (l : js_array T) :
  (∀ i, i < length l → ex i = ex' i) → visible ex l = visible ex' l.
Proof.
  intros Hext. unfold visible. f_equal. apply imap_ext.
  intros i [|v] Hi; [done|]. simpl. by rewrite (Hext i) by (by eapply lookup_lt_Some).
Qed.

Lemma visible_snoc ex (l : js_array T) w :
  ex (length l) = false → visible ex (l ++ [stored w]) = visible ex l ++ [w].
Proof. intros Hex. rewrite visible_middle. simpl. by rewrite Hex. Qed.

(** A cell that stops being skipped and receives [w] adds [w]. *)
Lemma visible_reuse ex ex' (l : js_array T) x c w :
  l !! x = Some c → ex x = true → ex' x = false →
  (∀ i, i ≠ x → ex' i = ex i) →
  visible ex' (<[x := stored w]> l) ≡ₚ w :: visible ex l.
Proof.
  intros Hx Hex Hex' Hother.
  pose proof (lookup_lt_Some _ _ _ Hx) as Hlt.
  rewrite insert_take_drop by done.
  rewrite <- (take_drop_middle l x c Hx) at 3.
  rewrite !visible_middle, length_take_le by lia.
  rewrite Hex, Hex'. simpl.
  rewrite <- Permutation_middle. f_equiv.
  rewrite (visible_ext ex' ex) by (intros i Hi; rewrite length_take in Hi; apply Hother; lia).
  destruct c; simpl; f_equiv; apply reflexive_eq, visible_ext;
    intros i _; apply Hother; lia.
Qed.

(** A visible cell that starts being skipped takes its value away. *)
Lemma visible_skip ex ex' (l : js_array T) x v :
  l !! x = Some (stored v) → ex x = false → ex' x = true →
  (∀ i, i ≠ x → ex' i = ex i) →
  visible ex l ≡ₚ v :: visible ex' l.
Proof.
  intros Hx Hex Hex' Hother.
  pose proof (lookup_lt_Some _ _ _ Hx) as Hlt.
  rewrite <- (take_drop_middle l x _ Hx).
  rewrite !visible_middle, length_take_le by lia.
  rewrite Hex, Hex'. simpl.
  rewrite <- Permutation_middle. f_equiv.
  rewrite (visible_ext ex' ex) by (intros i Hi; rewrite length_take in Hi; apply Hother; lia).
  f_equiv. apply reflexive_eq, visible_ext. intros i _. symmetry. apply Hother. lia.
Qed.

(** Overwriting a skipped cell changes nothing. *)
Lemma visible_overwrite ex (l : js_array T) x c w :
  l !! x = Some c → ex x = true →
  visible ex (<[x := stored w]> l) = visible ex l.
Proof.
  intros Hx Hex.
  pose proof (lookup_lt_Some _ _ _ Hx) as Hlt.
  rewrite insert_take_drop by done.
  rewrite <- (take_drop_middle l x c Hx) at 3.
  rewrite !visible_middle, length_take_le by lia.
  rewrite Hex. by destruct c.
Qed.

Lemma visible_nil_skipped ex (l : js_array T) x v :
  visible ex l = [] → l !! x = Some (stored v) → ex x = true.
Proof.
  intros Hnil Hx. pose proof (lookup_lt_Some _ _ _ Hx) as Hlt.
  rewrite <- (take_drop_middle l x _ Hx), visible_middle in Hnil.
  rewrite length_take_le in Hnil by lia.
  apply app_eq_nil in Hnil as [_ Hnil]. apply app_eq_nil in Hnil as [Hnil _].
  simpl in Hnil. by destruct (ex x).
Qed.

Lemma visible_all {A} (g : A → option T) (js : list A) :
  visible (λ _, false) ((λ j, stored (g j)) <$> js) = g <$> js.
Proof.
  induction js as [|j js IH]; [done|].
  change ((λ j0, stored (g j0)) <$> j :: js)
    with ([] ++ stored (g j) :: ((λ j0, stored (g j0)) <$> js)).
  rewrite visible_middle. simpl. by rewrite IH.
Qed.

Lemma exited_set_bool q i :
  bool_decide (i ∈ exited_set q) = true ↔
  ∃ j, j < _exited_indexes_count q ∧ js_get (_exited_indexes q) j = Some i.
Proof. by rewrite bool_decide_eq_true, elem_of_exited_set. Qed.

(** [_addElem] adds its element to [unorderedItems]. *)
Lemma addElem_items elem q :
  store_inv q →
  unorderedItems (_addElem elem q).2 ≡ₚ Some elem :: unorderedItems q.
Proof.
  intros (Ha & Hb & Hc & Hd & He & Hf).
  rewrite !unorderedItems_visible. unfold _addElem.
  case_decide as Hcount.
  - destruct (Hc (_exited_indexes_count q - 1) ltac:(lia)) as (x & Hx & Hxlt).
    rewrite Hx. cbn [snd elems_set _elems].
    match goal with |- visible (λ i, bool_decide (i ∈ exited_set ?q1')) _ ≡ₚ _ =>
      set (q1 := q1') end.
    destruct (Hf x Hxlt) as (e0 & He0).
    unfold js_set. rewrite decide_True by lia.
    eapply visible_reuse; [exact He0 | | |].
    + apply exited_set_bool. exists (_exited_indexes_count q - 1). split; [lia | done].
    + apply bool_decide_eq_false. intros (j & Hj & Hy)%elem_of_exited_set.
      simpl in Hj, Hy. assert (j = _exited_indexes_count q - 1); [|lia].
      eapply (NoDup_fmap_seq_inj _ _ _ _ Hd); [lia | lia | congruence].
    + intros i Hi. apply bool_decide_ext. rewrite !elem_of_exited_set. simpl.
      split; intros (j & Hj & Hy).
      * exists j. split; [lia | done].
      * exists j. split; [|done].
        destruct (decide (j = _exited_indexes_count q - 1)) as [->|]; [|lia].
        congruence.
  - cbn [snd elems_set _elems]. rewrite <- He, js_set_append.
    rewrite visible_snoc.
    + rewrite <- Permutation_cons_append. f_equiv.
      apply reflexive_eq, visible_ext. intros i _. apply bool_decide_ext.
      by rewrite !elem_of_exited_set.
    + apply bool_decide_eq_false. intros (j & Hj & Hy)%elem_of_exited_set.
      simpl in Hj. lia.
Qed.

Lemma enqueue_items elem priority q :
  store_inv q →
  unorderedItems (enqueue elem priority q) ≡ₚ Some elem :: unorderedItems q.
Proof.
  intros Hst. rewrite <- (addElem_items elem q Hst). unfold enqueue.
  by destruct (_addElem elem q) as [index q1].
Qed.

(** A successful [dequeue] takes the returned element out of
    [unorderedItems]. *)
Lemma dequeue_items q :
  store_inv q → _heap_size q ≠ 0 →
  unorderedItems q
  ≡ₚ elems_get q (heap_link (_heap q) 0) :: unorderedItems (dequeue q).2.
Proof.
  intros (Ha & Hb & Hc & Hd & He & Hf) Hn.
  destruct (Ha 0 ltac:(lia)) as (l0 & Hl0 & Hl0lt & Hl0ex).
  destruct (Hf l0 Hl0lt) as (e0 & He0).
  rewrite !unorderedItems_visible. unfold dequeue. rewrite decide_False by done.
  cbn [snd]. rewrite Hl0. unfold elems_get.
  assert (js_get (_elems q) l0 = Some e0) as -> by (by apply js_get_Some).
  match goal with |- _ ≡ₚ _ :: visible (λ i, bool_decide (i ∈ exited_set ?q1')) _ =>
    set (q1 := q1') end.
  change (_elems q1) with (_elems q).
  eapply visible_skip; [exact He0 | | |].
  - by apply bool_decide_eq_false.
  - apply exited_set_bool. exists (_exited_indexes_count q). simpl.
    split; [lia|]. by rewrite js_get_set_eq.
  - intros i Hi. apply bool_decide_ext. rewrite !elem_of_exited_set. simpl.
    split; intros (j & Hj & Hy).
    + rewrite js_get_set in Hy. case_decide; [congruence|].
      exists j. split; [lia | done].
    + exists j. split; [lia|]. rewrite js_get_set_ne by lia. done.
Qed.

(** The invariant that [unorderedItems] holds the enqueued elements. *)
Lemma constructor_items range k :
  unorderedItems (constructor range k) ≡ₚ enqueued_elements (constructor range k).
Proof.
  unfold enqueued_elements. rewrite constructor_entries, unorderedItems_visible.
  destruct (constructor_fields range k) as (_ & _ & -> & _ & _ & Hex & Hc).
  rewrite <- list_fmap_compose.
  rewrite (visible_ext _ (λ _, false)).
  - by rewrite (visible_all (λ item, Some (element item)) range).
  - intros i _. apply bool_decide_eq_false.
    intros (j & Hj & _)%elem_of_exited_set. lia.
Qed.

Lemma enqueue_items_inv elem priority q :
  1 ≤ _k q → store_inv q →
  unorderedItems q ≡ₚ enqueued_elements q →
  unorderedItems (enqueue elem priority q)
  ≡ₚ enqueued_elements (enqueue elem priority q).
Proof.
  intros Hk Hst Hitems. unfold enqueued_elements in *.
  destruct (enqueue_spec elem priority q Hk Hst) as (_ & _ & _ & ->).
  by rewrite enqueue_items, Hitems.
Qed.

Lemma dequeue_items_inv q :
  store_inv q → unorderedItems q ≡ₚ enqueued_elements q →
  unorderedItems (dequeue q).2 ≡ₚ enqueued_elements (dequeue q).2.
Proof.
  intros Hst Hitems. unfold enqueued_elements in *.
  destruct (decide (_heap_size q = 0)) as [Hn|Hn].
  { unfold dequeue. by rewrite decide_True. }
  pose proof (dequeue_items q Hst Hn) as Hd.
  destruct (dequeue_entries q Hn) as (q' & Hdq & _ & _ & Hent).
  rewrite Hdq in Hd |- *. cbn [snd] in *.
  rewrite Hent in Hitems. simpl in Hitems. rewrite Hd in Hitems.
  by apply Permutation_cons_inv in Hitems.
Qed.

Lemma replace_root_items_inv elem priority q :
  queue_inv q → unorderedItems q ≡ₚ enqueued_elements q →
  unorderedItems (replace_root elem priority q).2
  ≡ₚ enqueued_elements (replace_root elem priority q).2.
Proof.
  intros [Hst Hlb] Hitems. unfold enqueued_elements in *.
  destruct (decide (0 < _heap_size q)) as [Hn|Hn].
  - destruct (replace_root_spec elem priority q Hst Hn)
      as (_ & _ & _ & _ & (tail & Ht & ->) & (A & B & HA & ->)).
    rewrite Ht, HA in Hitems. simpl in Hitems.
    rewrite <- Permutation_middle in Hitems. apply Permutation_cons_inv in Hitems.
    simpl. by rewrite <- Permutation_middle, Hitems.
  - assert (_heap_size q = 0) as Hn0 by lia.
    assert (entries q = []) as He0 by (unfold entries; by rewrite Hn0).
    rewrite He0 in Hitems. apply Permutation_nil_r in Hitems.
    unfold replace_root. cbn [snd].
    assert (∀ q0 : PriorityQueue T, _heap_size q0 = 0 → entries q0 = []) as Hent0
      by (intros q0 Hq0; unfold entries; by rewrite Hq0).
    rewrite (Hent0 (_restoreDown 0 _)) by (simpl; by destruct (heap_link _ 0)).
    apply reflexive_eq. simpl.
    rewrite unorderedItems_visible in Hitems |- *.
    change (js_set (_heap q) 0) with (js_set (_heap q) (0 * 2)).
    rewrite heap_link_set_even.
    destruct (heap_link (_heap q) 0) as [l|] eqn:Hl; [|done].
    cbn [_restoreDown set_heap elems_set _elems].
    match goal with |- visible (λ i, bool_decide (i ∈ exited_set ?q1')) _ = _ =>
      change (exited_set q1') with (exited_set q) end.
    destruct Hst as (_ & _ & _ & _ & He & Hf).
    destruct (Hf l ltac:(by eapply Hlb)) as (e0 & He0').
    unfold js_set. rewrite decide_True by (rewrite He; by eapply Hlb).
    rewrite (visible_overwrite _ _ _ _ _ He0'); [done|].
    exact (visible_nil_skipped (λ i, bool_decide (i ∈ exited_set q))
             _ l (Some e0) Hitems He0').
Qed.

Lemma shrink_items q :
  unorderedItems (shrink q) = enqueued_elements (shrink q).
Proof.
  destruct (shrink_fields q) as (_ & Hn' & _ & Hs).
  unfold enqueued_elements, entries. rewrite Hn', <- list_fmap_compose.
  rewrite unorderedItems_visible.
  assert (_elems (shrink q)
          = (λ j, stored (elems_get q (heap_link (_heap q) j))) <$> seq 0 (_heap_size q)
          ∧ _exited_indexes_count (shrink q) = 0) as [-> Hc].
  { unfold shrink.
    pose proof (shrink_copy_elems q (_heap_size q) 0 [] [] eq_refl) as Hel.
    by destruct (shrink_copy q (_heap_size q) 0 [] []) as [heap elems]. }
  rewrite (visible_ext _ (λ _, false)).
  - rewrite visible_all. apply list_fmap_ext. intros i j Hj%lookup_seq. simpl.
    destruct (Hs j ltac:(lia)) as [Hsl Hget]. unfold slot in Hsl.
    injection Hsl as _ ->. by rewrite <- Hget.
  - intros i _. apply bool_decide_eq_false.
    intros (j & Hj & _)%elem_of_exited_set. lia.
Qed.

Lemma enqueue_all_items_inv range q :
  1 ≤ _k q → queue_inv q → unorderedItems q ≡ₚ enqueued_elements q →
  unorderedItems (enqueue_all range q) ≡ₚ enqueued_elements (enqueue_all range q).
Proof.
  unfold enqueue_all. revert q.
  induction range as [|item rest IH]; intros q Hk Hinv Hitems; simpl; [done|].
  destruct (enqueue_spec (element item) (priority item) q Hk (proj1 Hinv))
    as (_ & Hk' & _).
  apply IH; [by rewrite Hk' | by apply enqueue_queue_inv |].
  apply enqueue_items_inv; [done | apply Hinv | done].
Qed.

Lemma perform_items_inv (op : operation T) q :
  1 ≤ _k q → queue_inv q → no_bulk_step op q →
  unorderedItems q ≡ₚ enqueued_elements q →
  unorderedItems (perform op q) ≡ₚ enqueued_elements (perform op q).
Proof.
  intros Hk Hinv Hbulk Hitems. destruct op as [e p| | |e p|e p|rg| |]; simpl in *.
  - apply enqueue_items_inv; [done | apply Hinv | done].
  - apply dequeue_items_inv; [apply Hinv | done].
  - unfold peek. by case_decide.
  - unfold enqueueDequeue. case_match; [done|].
    pose proof (replace_root_items_inv e p q Hinv Hitems).
    by destruct (replace_root e p q).
  - unfold dequeueEnqueue. case_decide; [done|].
    pose proof (replace_root_items_inv e p q Hinv Hitems).
    by destruct (replace_root e p q).
  - unfold enqueueRange. unfold count in Hbulk. rewrite Hbulk.
    by apply enqueue_all_items_inv.
  - done.
  - by rewrite shrink_items.
Qed.

(** As long as [enqueueRange] does not take its bulk path, [unorderedItems]
    holds exactly the elements of the enqueued pairs, whatever the
    operations were. *)
Lemma run_items_inv (ops : list (operation T)) range k :
  1 ≤ k → no_bulk_run ops (constructor range k) →
  unorderedItems (run ops (constructor range k))
  ≡ₚ enqueued_elements (run ops (constructor range k)).
Proof.
  intros Hk.
  assert (∀ q, 1 ≤ _k q → queue_inv q → no_bulk_run ops q →
            unorderedItems q ≡ₚ enqueued_elements q →
            unorderedItems (run ops q) ≡ₚ enqueued_elements (run ops q)) as Hgen.
  { unfold run. induction ops as [|op ops IH]; intros q Hkq Hinv Hrun Hitems; [done|].
    destruct Hrun as [Hstep Hrun]. simpl.
    destruct (perform_queue_inv op q Hkq Hinv) as [Hinv' Hk'].
    apply IH; [by rewrite Hk' | done | done |].
    by apply perform_items_inv. }
  intros Hrun. apply Hgen; try done.
  - by destruct (constructor_fields range k) as (-> & _).
  - apply constructor_queue_inv.
  - apply constructor_items.
Qed.

End Items.

(** ** [shrink] and the order of [dequeue] *)

Section Shrink.
Context {T : Type}.
Implicit Types (q : PriorityQueue T) (h : js_array Z).

(** [_restoreDown] takes the same decisions on two heaps that hold the same
    priorities, and moves the links alike. *)
Lemma restoreDown_loop_view {X} (g g' : option nat → X) f k n h h' c :
  (∀ i, i < n → heap_prio h i = heap_prio h' i ∧
                g (heap_link h i) = g' (heap_link h' i)) →
  ∀ i, i < n →
    heap_prio (restoreDown_loop f k n h c) i
    = heap_prio (restoreDown_loop f k n h' c) i ∧
    g (heap_link (restoreDown_loop f k n h c) i)
    = g' (heap_link (restoreDown_loop f k n h' c) i).
Proof.
  revert h h' c. induction f as [|f IH]; intros h h' c Hview; simpl; [done|].
  rewrite <- (min_child_scan_ext h h' k n c) by (intros i Hi; by apply Hview).
  destruct (min_child_scan h k n c) as [mc mi] eqn:Hscan.
  destruct (decide (mc = MAX_SAFE_INTEGER)); [done|].
  pose proof (min_child_scan_range h k n c) as Hr.
  rewrite Hscan in Hr. simpl in Hr. specialize (Hr ltac:(done)).
  destruct (Hview c ltac:(lia)) as [<- _].
  destruct (Hview mi ltac:(lia)) as [<- _].
  apply IH. destruct (js_gt (heap_prio h c) (heap_prio h mi)); [|done].
  intros i Hi. rewrite !heap_prio_swap, !heap_link_swap.
  repeat case_decide; apply Hview; lia.
Qed.

Lemma dequeue_view q q' :
  same_drain_view q q' →
  (dequeue q).1 = (dequeue q').1 ∧ same_drain_view (dequeue q).2 (dequeue q').2.
Proof.
  intros (Hk & Hn & Hview). unfold dequeue. rewrite <- Hn.
  case_decide as Hn0; [done|]. cbn [fst snd].
  split.
  - f_equal. apply (Hview 0). lia.
  - unfold same_drain_view, _restoreDown.
    cbn [set_heap _heap _k _heap_size]. rewrite <- ?Hk, <- ?Hn.
    split_and!; [done | done |].
    apply (restoreDown_loop_view (elems_get q) (elems_get q')).
    intros i Hi.
    pose proof (dequeue_move_slot (_heap q) (_heap_size q - 1) i) as Hs.
    pose proof (dequeue_move_slot (_heap q') (_heap_size q - 1) i) as Hs'.
    case_decide.
    + apply slot_eq_inv in Hs as [-> ->]. apply slot_eq_inv in Hs' as [-> ->].
      apply Hview. lia.
    + apply slot_eq_inv in Hs as [-> ->]. apply slot_eq_inv in Hs' as [-> ->].
      apply Hview. lia.
Qed.

Lemma drain_loop_view f q q' :
  same_drain_view q q' → drain_loop f q = drain_loop f q'.
Proof.
  revert q q'. induction f as [|f IH]; intros q q' Hview; simpl; [done|].
  pose proof Hview as (_ & Hn & _). unfold count. rewrite <- Hn.
  case_decide; [done|].
  destruct (dequeue_view q q' Hview) as [Hr Hview'].
  destruct (dequeue q) as [r q1], (dequeue q') as [r' q1']. simpl in *. subst r'.
  destruct r; [|done]. f_equal. by apply IH.
Qed.

Lemma shrink_view q : same_drain_view (shrink q) q.
Proof.
  destruct (shrink_fields q) as (Hk & Hn & _ & Hs).
  split_and!; [done | done |]. rewrite Hn. intros i Hi.
  destruct (Hs i Hi) as [Hsl He]. unfold slot in Hsl. injection Hsl as Hp Hl.
  split; [done|]. by rewrite Hl.
Qed.

Lemma dequeue_count q :
  _heap_size q ≠ 0 →
  count (dequeue q).2 = count q - 1 ∧ ∃ r, (dequeue q).1 = Return r.
Proof.
  intros Hn. unfold dequeue. rewrite decide_False by done. simpl. eauto.
Qed.

(** The loop of [drain] leaves because the queue is empty: any fuel from
    [count q] on gives the same list. *)
Lemma drain_loop_fuel f1 f2 q :
  count q ≤ f1 → count q ≤ f2 → drain_loop f1 q = drain_loop f2 q.
Proof.
  revert f2 q. induction f1 as [|f1 IH]; intros f2 q H1 H2.
  - destruct f2; simpl; [done|]. by rewrite decide_True by lia.
  - destruct f2; simpl.
    + by rewrite decide_True by lia.
    + case_decide as Hc; [done|].
      destruct (dequeue_count q Hc) as (Hcnt & r & Hr).
      destruct (dequeue q) as [r' q1]. simpl in *. subst r'.
      f_equal. apply IH; lia.
Qed.

End Shrink.

(** * The claims of the specification *)

Section Claims.
Context {T : Type}.
Implicit Types (q : PriorityQueue T) (elem : T) (priority : Z)
  (range : list (IElementPriorityPair T)).

Lemma enqueue_count elem priority q :
  _heap_size (enqueue elem priority q) = S (_heap_size q).
Proof.
  unfold enqueue.
  destruct (addElem_heap elem q) as (_ & _ & Hn).
  destruct (_addElem elem q) as [index q1]. simpl in *. lia.
Qed.

Lemma enqueue_all_count range q :
  _heap_size (enqueue_all range q) = _heap_size q + length range.
Proof.
  unfold enqueue_all. revert q.
  induction range as [|item rest IH]; intros q; simpl; [lia|].
  rewrite IH, enqueue_count. lia.
Qed.

(** Where no priority reaches the sentinel of [_restoreDown]: for every
    finite sequence of pairs whose priorities are below
    [Number.MAX_SAFE_INTEGER] and every branching factor [k >= 1],
    building the queue by bulk construction, or by repeated [enqueue] on a
    fresh empty queue, and then calling [dequeue] once per pair returns
    the elements in non-decreasing priority order, a permutation of the
    input sorted by priority (the order among equal priorities is that of
    the heap, not that of the input). *)
Theorem heap_sort_equivalence range k :
  1 ≤ k → Forall (λ item, below_sentinel (priority item)) range →
  drains_sorted range (constructor range k) ∧
  drains_sorted range (enqueue_all range (constructor [] k)).
Proof.
  intros Hk Hall. split.
  - destruct (constructor_fields range k) as (_ & Hn & _).
    destruct (dequeue_times_sorted (length range) (constructor range k) range)
      as (sorted & ? & ? & ? & _).
    + by apply constructor_heap_inv.
    + done.
    + apply constructor_entries.
    + by exists sorted.
  - destruct (constructor_fields ([] : list (IElementPriorityPair T)) k)
      as (Hk0 & Hn0 & _).
    destruct (enqueue_all_spec range (constructor [] k)) as (_ & _ & Hn & Hent).
    { by rewrite Hk0. }
    { apply constructor_store_inv. }
    assert (entries (constructor ([] : list (IElementPriorityPair T)) k) = []) as He0
      by (unfold entries; by rewrite Hn0).
    rewrite He0, app_nil_r in Hent. rewrite Hn0 in Hn. simpl in Hn.
    destruct (dequeue_times_sorted (length range)
                (enqueue_all range (constructor [] k)) range)
      as (sorted & ? & ? & ? & _).
    + apply enqueue_all_heap_inv; [done|]. by apply constructor_heap_inv.
    + done.
    + done.
    + by exists sorted.
Qed.

(** [count] after [enqueueRange]: on the one-at-a-time path it grows by the
    number of pairs, on the bulk path (always taken on an empty queue) it
    does not change. *)
Lemma enqueueRange_count range q :
  count (enqueueRange range q)
  = if below_log_threshold (length range) (count q)
    then count q + length range
    else count q.
Proof.
  unfold enqueueRange, count. case_match.
  - apply enqueue_all_count.
  - destruct (heapify_sweep_fields (enqueueRange_load 0 range q)) as (_ & -> & _).
    by destruct (enqueueRange_load_prefix range 0 q) as (_ & -> & _).
Qed.

(** C4.  [dequeue], [peek] and [dequeueEnqueue] throw the one exception of
    the class, an [InvalidOperationException] with the message
    "The queue is empty.", exactly when [count] is [0], and return a value
    exactly when it is not. *)
Theorem empty_queue_error_iff q elem priority :
  message empty_error = "The queue is empty."%string ∧
  ((dequeue q).1 = Throw empty_error ↔ count q = 0) ∧
  ((∃ r, (dequeue q).1 = Return r) ↔ count q ≠ 0) ∧
  ((peek q).1 = Throw empty_error ↔ count q = 0) ∧
  ((∃ r, (peek q).1 = Return r) ↔ count q ≠ 0) ∧
  ((dequeueEnqueue elem priority q).1 = Throw empty_error ↔ count q = 0) ∧
  ((∃ r, (dequeueEnqueue elem priority q).1 = Return r) ↔ count q ≠ 0).
Proof.
  unfold dequeue, peek, dequeueEnqueue, count.
  destruct (replace_root elem priority q) as [r q'].
  case_decide; simpl; split_and!; try done; split; try done; eauto.
  all: by intros [? ?].
Qed.

(** C7.  For every state of the queue, draining after [shrink] returns the
    same elements in the same order as draining without it, and [shrink]
    does not change [count]. *)
Theorem shrink_transparent q :
  drain (shrink q) = drain q ∧ count (shrink q) = count q.
Proof.
  pose proof (shrink_view q) as Hview.
  pose proof Hview as (_ & Hn & _).
  split; [|done]. unfold drain, count. rewrite Hn. by apply drain_loop_view.
Qed.

(** C10.  On an empty queue [dequeue], [peek] and [dequeueEnqueue] throw
    with the state exactly as it was before the call. *)
Theorem empty_queue_error_state q elem priority :
  count q = 0 →
  dequeue q = (Throw empty_error, q) ∧
  peek q = (Throw empty_error, q) ∧
  dequeueEnqueue elem priority q = (Throw empty_error, q).
Proof.
  unfold count, dequeue, peek, dequeueEnqueue. intros ->. done.
Qed.

(** Where no priority reaches the sentinel of [_restoreDown]: on a
    non-empty queue that satisfies the invariants (they hold in every
    state reached from the constructor, lemmas [run_heap_inv] and
    [run_queue_inv]), with priorities below
    [Number.MAX_SAFE_INTEGER]: when the priority is
    at most the least priority [p0] of the queue, [enqueueDequeue] returns
    [elem] and changes nothing; when it is greater, [enqueueDequeue]
    returns the element [r] of the root, which had a least priority, the
    enqueued pairs lose the pair of [r] and gain [(elem, priority)], the
    invariants hold again and the new root has a least priority among the
    new pairs. *)
Theorem enqueueDequeue_tie_policy elem priority q :
  heap_inv q → store_inv q → 0 < count q → below_sentinel priority →
  ∃ p0 r,
    heap_prio (_heap q) 0 = Some p0 ∧ (peek q).1 = Return r ∧
    root_is_minimum q ∧
    ((priority ≤ p0)%Z →
       enqueueDequeue elem priority q = (Return (Some elem), q)) ∧
    ((p0 < priority)%Z →
       (enqueueDequeue elem priority q).1 = Return r ∧
       heap_inv (enqueueDequeue elem priority q).2 ∧
       store_inv (enqueueDequeue elem priority q).2 ∧
       count (enqueueDequeue elem priority q).2 = count q ∧
       root_is_minimum (enqueueDequeue elem priority q).2 ∧
       (∃ tail, entries q = (r, Some p0) :: tail ∧
                entries (enqueueDequeue elem priority q).2
                ≡ₚ (Some elem, Some priority) :: tail) ∧
       (∃ A B, unorderedItems q = A ++ r :: B ∧
               unorderedItems (enqueueDequeue elem priority q).2
               = A ++ Some elem :: B)).
Proof.
  intros Hinv Hst Hn Hp. unfold count in *.
  assert (∀ q0 : PriorityQueue T, heap_inv q0 → 0 < _heap_size q0 → root_is_minimum q0)
    as Hroot.
  { intros q0 Hinv0 Hn0 x Hx.
    destruct (root_entry_min q0 x Hinv0 Hx) as (m & p & Hm & Hxp & Hle).
    by exists m, p. }
  pose proof Hinv as (Hk & Hok & Ho).
  destruct (prio_ok_pr _ _ 0 Hok Hn) as [Hp0 _].
  exists (pr (_heap q) 0), (elems_get q (heap_link (_heap q) 0)).
  split_and!.
  - done.
  - unfold peek. by rewrite decide_False by lia.
  - by apply Hroot.
  - intros Hle. unfold enqueueDequeue.
    change (js_get (_heap q) 0) with (heap_prio (_heap q) 0). rewrite Hp0. simpl.
    by destruct (Z.leb_spec priority (pr (_heap q) 0)); [|lia].
  - intros Hlt.
    pose proof (replace_root_heap_inv elem priority q Hp Hinv) as Hinv'.
    destruct (replace_root_spec elem priority q Hst Hn)
      as (Hr & Hst' & Hk' & Hn' & (tail & Ht & Ht') & HU).
    unfold enqueueDequeue.
    change (js_get (_heap q) 0) with (heap_prio (_heap q) 0). rewrite Hp0.
    cbn [js_le].
    destruct (Z.leb_spec priority (pr (_heap q) 0)); [lia|].
    destruct (replace_root elem priority q) as [r q'] eqn:Hrr. cbn [fst snd] in *.
    split_and!; try done.
    + by rewrite Hr.
    + apply Hroot; [done | lia].
    + exists tail. split; [|done]. rewrite Ht. unfold entry. by rewrite Hp0.
Qed.

(** Where no priority reaches the sentinel of [_restoreDown]: after every
    sequence of public operations on a queue constructed with [k >= 1],
    all priorities handed to the queue being below
    [Number.MAX_SAFE_INTEGER], the min-heap property holds on the logical
    heap. *)
Theorem min_heap_after_operations range k (ops : list (operation T)) :
  1 ≤ k → Forall (λ item, below_sentinel (priority item)) range →
  Forall (λ op, Forall below_sentinel (op_priorities op)) ops →
  min_heap_property (run ops (constructor range k)).
Proof.
  intros Hk Hrange Hops.
  apply heap_inv_min_heap_property, run_heap_inv; [done|].
  by apply constructor_heap_inv.
Qed.

(** The loop of the constructor as it is written: after loading [n]
    pairs it counts from [floor((n - 1) / k)] down to [0] (no turn when
    [n = 0]).  Every internal node is among these indexes; the only other
    index that can occur is the first one, when
    [k * floor((n - 1) / k) + 1 = n], and there [_restoreDown] changes
    nothing. *)
Theorem constructor_sweep range k :
  1 ≤ k →
  constructor range k
  = foldl (λ q' i, _restoreDown i q') (constructor_loaded range k)
          (heapify_indexes (length range) k) ∧
  heapify_indexes (length range) k
  = (if decide (length range = 0) then []
     else reverse (seq 0 (S ((length range - 1) / k)))) ∧
  (∀ i, internal_node k (length range) i → i ∈ heapify_indexes (length range) k) ∧
  (∀ i, i ∈ heapify_indexes (length range) k → ¬ internal_node k (length range) i →
        i = (length range - 1) / k ∧ k * i + 1 = length range ∧
        ∀ q, _k q = k → _heap_size q = length range → _restoreDown i q = q).
Proof.
  intros Hk. destruct (constructor_loaded_fields range k) as [Hk0 Hn0].
  split_and!.
  - by rewrite constructor_unfold, heapify_sweep_indexes, Hk0, Hn0.
  - unfold heapify_indexes. destruct (length range) as [|m]; [done|].
    rewrite decide_False by lia. rewrite sweep_indexes_reverse.
    by rewrite Nat.sub_succ, Nat.sub_0_r.
  - unfold internal_node, heapify_indexes. intros i Hi.
    destruct (length range) as [|m]; [lia|].
    apply elem_of_sweep_indexes. apply Nat.div_le_lower_bound; lia.
  - unfold internal_node, heapify_indexes. intros i Hi Hleaf.
    destruct (length range) as [|m] eqn:Hlen; [by apply elem_of_nil in Hi|].
    apply elem_of_sweep_indexes in Hi.
    pose proof (Nat.Div0.mul_div_le m k).
    assert (k * i ≤ k * (m / k)) by (apply Nat.mul_le_mono_l; lia).
    assert (k * i = m) as Hki by lia.
    rewrite Nat.sub_succ, Nat.sub_0_r.
    split_and!; [|lia|].
    + rewrite <- Hki. rewrite Nat.mul_comm, Nat.div_mul by lia. done.
    + intros q0 Hq0k Hq0n. apply restoreDown_leaf.
      unfold internal_node. rewrite Hq0k, Hq0n. lia.
Qed.






(** What [enqueueDequeue], which has no guard, does on an empty queue: it
    throws nothing and leaves [count] at [0], so that [dequeue] and
    [peek] still throw afterwards; it returns [elem] when the priority is
    at most the stale priority left in heap cell [0], and otherwise
    whatever the element store holds behind the stale link of heap cell
    [1].  On a queue whose
    heap array is empty, as after construction from no pairs or after
    [clear], that is [undefined], and [unorderedItems] does not change.
    In a state that satisfies the invariant of the store, an empty
    [unorderedItems] stays empty. *)
Theorem enqueueDequeue_empty elem priority q :
  count q = 0 →
  (enqueueDequeue elem priority q).1
  = Return (if js_le (Some priority) (js_get (_heap q) 0) then Some elem
            else elems_get q (heap_link (_heap q) 0)) ∧
  count (enqueueDequeue elem priority q).2 = 0 ∧
  (dequeue (enqueueDequeue elem priority q).2).1 = Throw empty_error ∧
  (peek (enqueueDequeue elem priority q).2).1 = Throw empty_error ∧
  (_heap q = [] → _elems_undefined q = None →
   (enqueueDequeue elem priority q).1 = Return None ∧
   unorderedItems (enqueueDequeue elem priority q).2 = unorderedItems q) ∧
  (queue_inv q → unorderedItems q = [] →
   unorderedItems (enqueueDequeue elem priority q).2 = []).
Proof.
  unfold count. intros Hn.
  assert (_heap_size (enqueueDequeue elem priority q).2 = 0) as Hn'.
  { unfold enqueueDequeue. case_match; [done|].
    unfold replace_root. simpl. by destruct (heap_link _ 0). }
  split_and!.
  - unfold enqueueDequeue. by case_match.
  - done.
  - unfold dequeue. by rewrite decide_True.
  - unfold peek. by rewrite decide_True.
  - intros Hh Hu. unfold enqueueDequeue, replace_root. rewrite !Hh. simpl.
    split; [by rewrite Hu|]. by destruct q; simpl in *; subst.
  - intros Hinv Hitems. unfold enqueueDequeue in *. case_match; [done|].
    assert (∀ q0 : PriorityQueue T, _heap_size q0 = 0 → enqueued_elements q0 = [])
      as Hent0 by (intros q0 Hq0; unfold enqueued_elements, entries; by rewrite Hq0).
    pose proof (replace_root_items_inv elem priority q Hinv) as Hperm.
    rewrite Hitems, (Hent0 q Hn) in Hperm. specialize (Hperm ltac:(done)).
    destruct (replace_root elem priority q) as [r q']. simpl in *.
    rewrite (Hent0 q' Hn') in Hperm. by apply Permutation_nil_r in Hperm.
Qed.

End Claims.

(** * Concrete inputs: examples and failing inputs *)

Ltac below_sentinel_all :=
  simpl;
  repeat first
    [ apply Forall_nil_2
    | apply Forall_cons_2
    | (unfold below_sentinel, MAX_SAFE_INTEGER; simpl; lia) ].

(** The example of the specification, by bulk construction and by repeated
    [enqueue]. *)
Lemma heap_sort_equivalence_witness :
  drains_sorted example_range (constructor example_range 4) ∧
  drains_sorted example_range (enqueue_all example_range (constructor [] 4)).
Proof.
  apply (heap_sort_equivalence example_range 4); [lia | below_sentinel_all].
Defined.

Example heap_sort_example :
  (dequeue_times 6 (enqueue_all example_range (constructor [] 4))).1
  = Return ∘ Some <$> ["b"; "d"; "a"; "e"; "f"; "c"]%string.
Proof. by vm_compute. Qed.

(** C1.  The queue of the pairs ("c", 5), ("b", 2^53 - 1), ("a", 2^53),
    built by the constructor or by three calls of [enqueue] on a fresh
    queue, returns "c", "a", "b" from three calls of [dequeue]: the
    priorities 5, 2^53, 2^53 - 1 are not in non-decreasing order, and the
    input sorted by priority ascending is "c", "b", "a".  After "c" has
    left, the root holds "a" and its only child "b"; the scan of
    [_restoreDown] ends with [min_child] at the sentinel
    [Number.MAX_SAFE_INTEGER], because the priority of "b" is not below
    it, and the loop is left as at a leaf. *)
Theorem heap_sort_failing :
  (dequeue_times 3 (constructor sentinel_range 4)).1
  = Return ∘ Some <$> ["c"; "a"; "b"]%string ∧
  (dequeue_times 3 (enqueue_all sentinel_range (constructor [] 4))).1
  = Return ∘ Some <$> ["c"; "a"; "b"]%string ∧
  element <$> spec_sort_by_priority sentinel_range = ["c"; "b"; "a"]%string ∧
  priority <$> spec_sort_by_priority sentinel_range
  = [5; 9007199254740991; 9007199254740992]%Z ∧
  slots (_heap (dequeue (constructor sentinel_range 4)).2) 2
  = [(Some 9007199254740992%Z, Some 2); (Some 9007199254740991%Z, Some 1)] ∧
  internal_node 4 2 0 ∧
  min_child_scan (_heap (dequeue (constructor sentinel_range 4)).2) 4 2 0
  = (MAX_SAFE_INTEGER, 0) ∧
  ¬ drains_sorted sentinel_range (constructor sentinel_range 4) ∧
  ¬ drains_sorted sentinel_range (enqueue_all sentinel_range (constructor [] 4)).
Proof.
  assert (∀ q : PriorityQueue string,
    (dequeue_times 3 q).1
    = [Return (Some "c"); Return (Some "a"); Return (Some "b")]%string →
    ¬ drains_sorted sentinel_range q) as Hgen.
  { intros q Hq (sorted & Hperm & Hsorted & Hres).
    change (length sentinel_range) with 3 in Hres. rewrite Hq in Hres.
    destruct sorted as [|x [|y [|z [|? ?]]]]; try done.
    injection Hres as Hx Hy Hz.
    assert (y ∈ sentinel_range) as Hyin
      by (rewrite <- Hperm; apply list_elem_of_further, list_elem_of_here).
    assert (z ∈ sentinel_range) as Hzin
      by (rewrite <- Hperm; do 2 apply list_elem_of_further; apply list_elem_of_here).
    unfold sentinel_range in Hyin, Hzin.
    repeat (apply elem_of_cons in Hyin as [->|Hyin]); try done;
      [|by apply elem_of_nil in Hyin].
    repeat (apply elem_of_cons in Hzin as [->|Hzin]); try done;
      [|by apply elem_of_nil in Hzin].
    simpl in Hsorted. inversion Hsorted as [|? ? Hs1 _]; subst.
    inversion Hs1 as [|? ? _ Hhd]; subst. inversion Hhd; subst. lia. }
  split_and!; [by vm_compute | by vm_compute | by vm_compute | by vm_compute
               | by vm_compute | unfold internal_node; lia | by vm_compute | |];
    apply Hgen; by vm_compute.
Qed.

(** C2.  On a freshly constructed empty queue [enqueueRange] of one pair
    takes the bulk path and leaves [count] at [0], where the claim says
    [1]. *)
Theorem enqueueRange_count_failing :
  below_log_threshold (length single_pair)
    (count (constructor ([] : list (IElementPriorityPair string)) 4)) = false ∧
  count (enqueueRange single_pair (constructor [] 4)) = 0 ∧
  length single_pair = 1.
Proof. by vm_compute. Qed.

(** C3.  After [enqueueRange] of one pair on a fresh queue the element is
    among [unorderedItems] although the queue counts as empty, and after a
    following [shrink] it is not, although it was inserted and never
    removed.  (Without the bulk path of [enqueueRange] the claim holds,
    lemma [run_items_inv].) *)
Theorem unorderedItems_failing :
  unorderedItems (enqueueRange single_pair (constructor [] 4)) = [Some "a"%string] ∧
  unorderedItems (shrink (enqueueRange single_pair (constructor [] 4))) = [] ∧
  (dequeue (enqueueRange single_pair (constructor [] 4))).1 = Throw empty_error.
Proof. by vm_compute. Qed.

(** A queue of the example pairs and an offer above its least priority. *)
Lemma enqueueDequeue_tie_policy_witness :
  ∃ p0 r,
    heap_prio (_heap (constructor example_range 4)) 0 = Some p0 ∧
    (p0 < 5)%Z ∧ (peek (constructor example_range 4)).1 = Return r ∧
    (enqueueDequeue "g"%string 5 (constructor example_range 4)).1 = Return r.
Proof.
  destruct (enqueueDequeue_tie_policy "g"%string 5%Z (constructor example_range 4))
    as (p0 & r & Hp0 & Hpeek & _ & _ & Hgt).
  - apply constructor_heap_inv; [lia | below_sentinel_all].
  - apply constructor_store_inv.
  - vm_compute. lia.
  - unfold below_sentinel, MAX_SAFE_INTEGER. lia.
  - exists p0, r.
    assert (p0 < 5)%Z as Hlt by (vm_compute in Hp0; injection Hp0 as <-; lia).
    split_and!; [done | done | done | by apply Hgt].
Defined.

(** C5.  The queue built from ("a", 5), ("b", 2^53 - 1) is a min-heap
    with "a" at the root.  [enqueueDequeue("c", 2^53)] returns "a", the
    previous minimum, and leaves "c" with priority [2^53] at the root
    above "b" with priority [2^53 - 1]: [peek] and [dequeue] then return
    "c", which is not the minimum of the two pairs.  The scan of
    [_restoreDown] at the root ends with [min_child] at the sentinel,
    because the priority of the child "b" is not below it. *)
Theorem enqueueDequeue_failing :
  min_heap_property (constructor sentinel_child 4) ∧
  count (constructor sentinel_child 4) = 2 ∧
  (peek (constructor sentinel_child 4)).1 = Return (Some "a"%string) ∧
  (enqueueDequeue "c"%string 9007199254740992 (constructor sentinel_child 4)).1
  = Return (Some "a"%string) ∧
  entries (enqueueDequeue "c"%string 9007199254740992 (constructor sentinel_child 4)).2
  = [(Some "c"%string, Some 9007199254740992%Z);
     (Some "b"%string, Some 9007199254740991%Z)] ∧
  (peek (enqueueDequeue "c"%string 9007199254740992 (constructor sentinel_child 4)).2).1
  = Return (Some "c"%string) ∧
  (dequeue (enqueueDequeue "c"%string 9007199254740992 (constructor sentinel_child 4)).2).1
  = Return (Some "c"%string) ∧
  ¬ root_is_minimum
      (enqueueDequeue "c"%string 9007199254740992 (constructor sentinel_child 4)).2 ∧
  ¬ min_heap_property
      (enqueueDequeue "c"%string 9007199254740992 (constructor sentinel_child 4)).2.
Proof.
  split_and!.
  - intros i Hi. assert (i = 1) as -> by (vm_compute in Hi; lia).
    exists 5%Z, 9007199254740991%Z. split_and!; [by vm_compute | by vm_compute | lia].
  - by vm_compute.
  - by vm_compute.
  - by vm_compute.
  - by vm_compute.
  - by vm_compute.
  - by vm_compute.
  - intros Hmin.
    destruct (Hmin (Some "b"%string, Some 9007199254740991%Z))
      as (m & p & Hm & Hp & Hle).
    + replace (entries _) with
        [(Some "c"%string, Some 9007199254740992%Z);
         (Some "b"%string, Some 9007199254740991%Z)] by (by vm_compute).
      apply list_elem_of_further, list_elem_of_here.
    + vm_compute in Hm. simpl in Hp. simplify_eq. lia.
  - intros Hheap.
    destruct (Hheap 1) as (pp & pi & Hpp & Hpi & Hle); [vm_compute; lia|].
    vm_compute in Hpp, Hpi. simplify_eq. lia.
Qed.

(** A run of every public operation on the example queue. *)
Lemma min_heap_after_operations_witness :
  min_heap_property (run example_operations (constructor example_range 4)).
Proof.
  apply (min_heap_after_operations example_range 4 example_operations).
  - lia.
  - below_sentinel_all.
  - unfold example_operations. repeat (apply Forall_cons_2; [below_sentinel_all|]).
    apply Forall_nil_2.
Defined.

(** C6.  After the constructor has returned on the pairs ("a", 2^53),
    ("b", 2^53 - 1), position [0] holds the priority [2^53] and position
    [1], whose parent is position [0], holds [2^53 - 1]: the min-heap
    property does not hold, and [peek] returns "a" although "b" has the
    smaller priority.  The scan of [_restoreDown] at the root, which has
    a child, ends with [min_child] at the sentinel. *)
Theorem min_heap_failing :
  slots (_heap (constructor sentinel_pair 4)) (count (constructor sentinel_pair 4))
  = [(Some 9007199254740992%Z, Some 0); (Some 9007199254740991%Z, Some 1)] ∧
  parent (_k (constructor sentinel_pair 4)) 1 = 0 ∧
  internal_node 4 2 0 ∧
  min_child_scan (_heap (constructor_loaded sentinel_pair 4)) 4 2 0
  = (MAX_SAFE_INTEGER, 0) ∧
  (peek (constructor sentinel_pair 4)).1 = Return (Some "a"%string) ∧
  ¬ min_heap_property (constructor sentinel_pair 4).
Proof.
  split_and!; [by vm_compute | by vm_compute | unfold internal_node; lia
               | by vm_compute | by vm_compute |].
  intros Hheap.
  destruct (Hheap 1) as (pp & pi & Hpp & Hpi & Hle); [vm_compute; lia|].
  vm_compute in Hpp, Hpi. simplify_eq. lia.
Qed.

(** The sweep of the bulk path works with the heap size before the call:
    [enqueueRange] of the six example pairs on a fresh queue, where
    [_heap_size] is [0], leaves the state of the loading loop, with the
    pairs in the order of the input, while the constructor, which sets
    [_heap_size] before its sweep, brings the least priority of the same
    loaded arrays to the root. *)
Example enqueueRange_sweep_example :
  below_log_threshold (length example_range)
    (count (constructor ([] : list (IElementPriorityPair string)) 4)) = false ∧
  enqueueRange example_range (constructor [] 4)
  = enqueueRange_load 0 example_range (constructor [] 4) ∧
  _heap_size (enqueueRange example_range (constructor [] 4)) = 0 ∧
  slots (_heap (enqueueRange example_range (constructor [] 4))) 6
  = [(Some 3%Z, Some 0); (Some (-1)%Z, Some 1); (Some 7%Z, Some 2);
     (Some 2%Z, Some 3); (Some 4%Z, Some 4); (Some 6%Z, Some 5)] ∧
  spec_heapify_indexes (length example_range) 4 = [1; 0] ∧
  internal_node 4 (length example_range) 1 ∧ internal_node 4 (length example_range) 0 ∧
  _heap (enqueueRange_load 0 example_range (constructor [] 4))
  = _heap (constructor_loaded example_range 4) ∧
  _elems (enqueueRange_load 0 example_range (constructor [] 4))
  = _elems (constructor_loaded example_range 4) ∧
  constructor example_range 4
  = foldl (λ q' i, _restoreDown i q') (constructor_loaded example_range 4)
          (spec_heapify_indexes (length example_range) 4) ∧
  _heap_size (constructor example_range 4) = 6 ∧
  slots (_heap (constructor example_range 4)) 6
  = [(Some (-1)%Z, Some 1); (Some 3%Z, Some 0); (Some 7%Z, Some 2);
     (Some 2%Z, Some 3); (Some 4%Z, Some 4); (Some 6%Z, Some 5)].
Proof.
  split_and!; try (by vm_compute); unfold internal_node; simpl; lia.
Qed.


(** [enqueueDequeue] on a freshly constructed empty queue. *)
Lemma enqueueDequeue_empty_witness :
  (enqueueDequeue "b"%string 7 (constructor [] 4)).1 = Return None ∧
  count (enqueueDequeue "b"%string 7 (constructor [] 4)).2 = 0.
Proof.
  destruct (enqueueDequeue_empty "b"%string 7%Z (constructor [] 4))
    as (_ & Hcount & _ & _ & Hfresh & _); [reflexivity|].
  split; [|exact Hcount]. apply Hfresh; reflexivity.
Defined.

(** C9.  On the empty queue that [enqueue("a", 5)] and [dequeue()] leave
    behind, [enqueueDequeue("b", 7)] returns "a", the element that was
    dequeued before, and writes "b" over it; [enqueueDequeue("b", 3)]
    returns "b".  Neither returns [undefined], which is what the call
    returns on a freshly constructed queue.  [enqueueDequeue] has no
    guard and reads the root slot that [dequeue] left in the heap array;
    [dequeueEnqueue] has the guard and throws on the same queue. *)
Theorem enqueueDequeue_empty_failing :
  count drained_queue = 0 ∧
  slot (_heap drained_queue) 0 = (Some 5%Z, Some 0) ∧
  (enqueueDequeue "b"%string 7 drained_queue).1 = Return (Some "a"%string) ∧
  js_get (_elems (enqueueDequeue "b"%string 7 drained_queue).2) 0 = Some "b"%string ∧
  (enqueueDequeue "b"%string 3 drained_queue).1 = Return (Some "b"%string) ∧
  (enqueueDequeue "b"%string 7 (constructor [] 4)).1 = Return None ∧
  (dequeueEnqueue "b"%string 7 drained_queue).1 = Throw empty_error.
Proof. by vm_compute. Qed.

(** The three throwing methods on a freshly constructed empty queue. *)
Lemma empty_queue_error_state_witness :
  dequeue (constructor ([] : list (IElementPriorityPair string)) 4)
  = (Throw empty_error, constructor [] 4) ∧
  peek (constructor ([] : list (IElementPriorityPair string)) 4)
  = (Throw empty_error, constructor [] 4) ∧
  dequeueEnqueue "x"%string 1 (constructor [] 4) = (Throw empty_error, constructor [] 4).
Proof.
  apply (empty_queue_error_state (constructor [] 4) "x"%string 1%Z). reflexivity.
Defined.

(** * Further properties of the class *)

Section Further.
Context {T : Type}.
Implicit Types (q : PriorityQueue T) (elem : T) (priority : Z)
  (range : list (IElementPriorityPair T)) (h : js_array Z).

(** ** Helper lemmas *)

(** No index is freed while the stack of freed indexes is empty. *)
Lemma exited_set_empty q i :
  _exited_indexes_count q = 0 → bool_decide (i ∈ exited_set q) = false.
Proof.
  intros Hc. apply bool_decide_eq_false.
  intros (j & Hj & _)%elem_of_exited_set. lia.
Qed.

(** Under the invariants every live pair has an element and a priority. *)
Lemma entry_defined q i :
  store_inv q → prio_ok (_heap q) (_heap_size q) → i < _heap_size q →
  ∃ l e p, heap_link (_heap q) i = Some l ∧ l < _elems_size q ∧
           (l ∉ exited_set q) ∧ _elems q !! l = Some (stored (Some e)) ∧
           heap_prio (_heap q) i = Some p ∧ (p < MAX_SAFE_INTEGER)%Z ∧
           entry q i = (Some e, Some p).
Proof.
  intros (Hl & _ & _ & _ & _ & Hcell) Hok Hi.
  destruct (Hl i Hi) as (l & Hlink & Hlt & Hnex).
  destruct (Hcell l Hlt) as (e & He).
  destruct (Hok i Hi) as (p & Hp & Hlt').
  exists l, e, p. split_and!; try done.
  unfold entry. rewrite Hlink, Hp. simpl. f_equal. by apply js_get_Some.
Qed.



(** [_restoreDown] on a heap that is in order changes nothing: it walks
    down along least children without an exchange. *)
Lemma restoreDown_loop_noop f k n h c :
  1 ≤ k → prio_ok h n → ordered_from k h n 0 → restoreDown_loop f k n h c = h.
Proof.
  intros Hk Hok Ho. revert c. induction f as [|f IH]; intros c; simpl; [done|].
  pose proof (min_child_scan_spec h k n c Hok) as Hspec. cbv zeta in Hspec.
  destruct (min_child_scan h k n c) as [mc mi]. simpl in Hspec.
  destruct Hspec as [[[= -> ->] _] | (Hlt & (j & Hj & ->) & Hin & Hmi & _)].
  - by rewrite decide_True.
  - rewrite decide_False by lia.
    assert (c < n) as Hc by nia.
    destruct (prio_ok_pr h n c Hok Hc) as [Hpc _].
    specialize (Ho (k * c + j) ltac:(nia)).
    rewrite parent_child in Ho by done. specialize (Ho ltac:(lia)).
    unfold pr in Ho at 2. rewrite Hmi in Ho. simpl in Ho.
    rewrite Hpc, Hmi. unfold js_gt, js_lt.
    destruct (Z.ltb_spec mc (pr h c)); [lia|]. apply IH.
Qed.

Lemma restoreDown_noop c q : heap_inv q → _restoreDown c q = q.
Proof.
  intros (Hk & Hok & Ho). unfold _restoreDown.
  rewrite restoreDown_loop_noop by done. by destruct q.
Qed.

Lemma sweep_from_noop i q : heap_inv q → sweep_from i q = q.
Proof.
  intros Hinv. induction i as [|i IH]; simpl; rewrite restoreDown_noop by done; done.
Qed.

Lemma heapify_sweep_noop q : heap_inv q → heapify_sweep q = q.
Proof.
  intros Hinv. unfold heapify_sweep. destruct (_heap_size q); [done|].
  by apply sweep_from_noop.
Qed.

(** ** The constructor, [count] and [unorderedItems] *)

(** A queue constructed from a sequence of pairs counts as many elements
    as the sequence has pairs, and [unorderedItems] returns their elements
    in the order of the sequence, whatever the priorities are. *)
Theorem constructor_items_in_order range k :
  1 ≤ k →
  count (constructor range k) = length range ∧
  unorderedItems (constructor range k) = (λ item, Some (element item)) <$> range ∧
  entries (constructor range k) ≡ₚ entry_of <$> range.
Proof.
  intros Hk.
  destruct (constructor_fields range k) as (_ & Hn & Hel & _ & _ & _ & Hc).
  split_and!; [done | | apply constructor_entries].
  rewrite unorderedItems_visible, Hel.
  rewrite (visible_ext _ (λ _, false)) by (intros i _; by apply exited_set_empty).
  apply (visible_all (λ item, Some (element item)) range).
Qed.

(** ** [peek] and [dequeue] *)

(** [peek] never changes the queue, and it returns what the next call of
    [dequeue] returns: the same element, or the same exception on an
    empty queue. *)
Theorem peek_agrees_with_dequeue q :
  (peek q).2 = q ∧ (peek q).1 = (dequeue q).1.
Proof.
  unfold peek, dequeue. case_decide; [done|]. split; [done|].
  cbn [fst snd]. by f_equal.
Qed.




(** ** [enqueue] *)

(** In a state that satisfies the invariant of the store, [enqueue] adds
    exactly the pair [(elem, priority)] to the enqueued pairs and [elem] to
    [unorderedItems], raises [count] by one and keeps the invariant; it
    keeps the heap order when the priority is below the sentinel. *)
Theorem enqueue_adds_pair elem priority q :
  1 ≤ _k q → store_inv q →
  count (enqueue elem priority q) = S (count q) ∧
  entries (enqueue elem priority q) ≡ₚ (Some elem, Some priority) :: entries q ∧
  unorderedItems (enqueue elem priority q) ≡ₚ Some elem :: unorderedItems q ∧
  store_inv (enqueue elem priority q) ∧
  (below_sentinel priority → heap_inv q → heap_inv (enqueue elem priority q)).
Proof.
  intros Hk Hst.
  destruct (enqueue_spec elem priority q Hk Hst) as (Hst' & _ & Hn & Hent).
  split_and!; try done.
  - by apply enqueue_items.
  - intros. by apply enqueue_heap_inv.
Qed.

(** ** [dequeueEnqueue] *)

(** On a non-empty queue in a state that satisfies the invariants,
    [dequeueEnqueue] returns the element that [peek] returns, an element of
    least priority, also when the new priority is not greater; the pair of
    that element is replaced by [(elem, priority)] among the enqueued
    pairs, and [elem] takes its place in [unorderedItems]; [count] does not
    change and the invariants hold again. *)
Theorem dequeueEnqueue_replaces_minimum elem priority q :
  heap_inv q → store_inv q → count q ≠ 0 → below_sentinel priority →
  ∃ e p0 tail A B,
    (peek q).1 = Return (Some e) ∧
    (dequeueEnqueue elem priority q).1 = Return (Some e) ∧
    entries q = (Some e, Some p0) :: tail ∧
    (∀ x, x ∈ entries q → ∃ p', x.2 = Some p' ∧ (p0 ≤ p')%Z) ∧
    entries (dequeueEnqueue elem priority q).2 ≡ₚ (Some elem, Some priority) :: tail ∧
    unorderedItems q = A ++ Some e :: B ∧
    unorderedItems (dequeueEnqueue elem priority q).2 = A ++ Some elem :: B ∧
    count (dequeueEnqueue elem priority q).2 = count q ∧
    heap_inv (dequeueEnqueue elem priority q).2 ∧
    store_inv (dequeueEnqueue elem priority q).2.
Proof.
  unfold count. intros Hinv Hst Hn Hp.
  pose proof Hinv as (_ & Hok & _).
  destruct (entry_defined q 0 Hst Hok ltac:(lia))
    as (l & e & p0 & _ & _ & _ & _ & _ & _ & He).
  assert (elems_get q (heap_link (_heap q) 0) = Some e) as Hget
    by (unfold entry in He; by injection He).
  pose proof (replace_root_heap_inv elem priority q Hp Hinv) as Hinv'.
  destruct (replace_root_spec elem priority q Hst ltac:(lia))
    as (Hr & Hst' & _ & Hn' & (tail & Ht & Ht') & (A & B & HA & HB)).
  unfold peek, dequeueEnqueue. rewrite !decide_False by done.
  destruct (replace_root elem priority q) as [r q']. cbn [fst snd] in *.
  rewrite Hget in *. subst r.
  exists e, p0, tail, A, B. split_and!; try done.
  - by rewrite Ht, He.
  - intros x Hx. destruct (root_entry_min q x Hinv Hx) as (m & p' & Hm & Hp' & Hle).
    rewrite He in Hm. simpl in Hm. injection Hm as <-. by exists p'.
Qed.

(** ** [clear] *)

(** [clear] puts the queue into the state of a freshly constructed empty
    queue with the same branching factor: [count] is [0], [unorderedItems]
    is empty, [peek] and [dequeue] throw, and every later call behaves as
    on the fresh queue. *)
Theorem clear_is_fresh q (ops : list (operation T)) :
  clear q = constructor [] (_k q) ∧
  count (clear q) = 0 ∧ unorderedItems (clear q) = [] ∧
  (peek (clear q)).1 = Throw empty_error ∧
  (dequeue (clear q)).1 = Throw empty_error ∧
  run ops (clear q) = run ops (constructor [] (_k q)).
Proof. by assert (clear q = constructor [] (_k q)) as -> by done. Qed.

(** ** [count] *)

(** [count] after a call depends only on [count] before it and on the
    call, in every state with a branching factor of at least [1]:
    [enqueue] adds one, a successful [dequeue] takes
    one off, [clear] gives [0], [enqueueRange] adds the length of the range
    on its one-at-a-time path and nothing on its bulk path, and no other
    call changes it. *)
Theorem count_after_operation (op : operation T) q :
  1 ≤ _k q → count (perform op q) = count_after op (count q).
Proof.
  intros _. unfold count. destruct op as [e p| | |e p|e p|rg| |]; simpl.
  - apply enqueue_count.
  - unfold dequeue. case_decide; simpl; lia.
  - unfold peek. by case_decide.
  - unfold enqueueDequeue. case_match; [done|].
    unfold replace_root. simpl. by destruct (heap_link _ 0).
  - unfold dequeueEnqueue. case_decide; [done|].
    unfold replace_root. simpl. by destruct (heap_link _ 0).
  - unfold enqueueRange. case_match.
    + apply enqueue_all_count.
    + destruct (heapify_sweep_fields (enqueueRange_load 0 rg q)) as (_ & -> & _).
      by destruct (enqueueRange_load_prefix rg 0 q) as (_ & -> & _).
  - done.
  - by destruct (shrink_fields q) as (_ & -> & _).
Qed.

(** ** [shrink] *)

(** The heap array that the loop of [shrink] builds. *)
Lemma shrink_copy_heap q n i heap (elems : js_array T) :
  length heap = i * 2 →
  (shrink_copy q n i heap elems).1
  = heap ++ concat ((λ j, [stored (heap_prio (_heap q) j); stored (Some (Z.of_nat j))])
                      <$> seq i n).
Proof.
  revert i heap elems. induction n as [|n IH]; intros i heap elems Hlen; simpl.
  - by rewrite app_nil_r.
  - rewrite <- Hlen at 1. rewrite js_set_append.
    replace (i * 2 + 1) with (length (heap ++ [stored (heap_prio (_heap q) i)]))
      by (rewrite length_app; simpl; lia).
    rewrite js_set_append, IH by (rewrite !length_app; simpl; lia).
    by rewrite <- !app_assoc.
Qed.

Lemma length_concat_pairs {A} (f g : nat → A) i n :
  length (concat ((λ j, [f j; g j]) <$> seq i n)) = 2 * n.
Proof.
  revert i. induction n as [|n IH]; intros i; simpl; [done|]. rewrite IH. lia.
Qed.

Lemma shrink_unfold q :
  shrink q
  = mkQueue
      (concat ((λ j, [stored (heap_prio (_heap q) j); stored (Some (Z.of_nat j))])
                 <$> seq 0 (_heap_size q)))
      (_k q) (_heap_size q)
      ((λ j, stored (elems_get q (heap_link (_heap q) j))) <$> seq 0 (_heap_size q))
      None (_heap_size q) [] 0.
Proof.
  unfold shrink.
  pose proof (shrink_copy_heap q (_heap_size q) 0 [] [] eq_refl) as Hh.
  pose proof (shrink_copy_elems q (_heap_size q) 0 [] [] eq_refl) as He.
  destruct (shrink_copy q (_heap_size q) 0 [] []) as [heap elems].
  simpl in Hh, He. by rewrite Hh, He.
Qed.

Lemma shrink_entry q j :
  j < _heap_size q → entry (shrink q) j = entry q j.
Proof.
  intros Hj. destruct (shrink_fields q) as (_ & _ & _ & Hs).
  destruct (Hs j Hj) as [Hsl Hget]. unfold slot in Hsl. injection Hsl as Hp Hl.
  unfold entry. rewrite Hp, Hl. simpl in *. by rewrite Hget.
Qed.

(** In every state, [shrink] keeps the enqueued pairs and their heap
    order, and leaves arrays without unused cells: the heap array has two
    cells per element, the element store one cell per element, in heap
    order, and no freed index remains; [unorderedItems] then lists the
    elements in heap order. *)
Theorem shrink_compacts q :
  entries (shrink q) = entries q ∧
  unorderedItems (shrink q) = enqueued_elements q ∧
  length (_heap (shrink q)) = 2 * count q ∧
  length (_elems (shrink q)) = count q ∧
  _elems_size (shrink q) = count q ∧
  _exited_indexes (shrink q) = [] ∧ _exited_indexes_count (shrink q) = 0 ∧
  _k (shrink q) = _k q.
Proof.
  assert (entries (shrink q) = entries q) as Hent.
  { unfold entries. destruct (shrink_fields q) as (_ & -> & _).
    apply list_fmap_ext. intros i j Hj%lookup_seq. apply shrink_entry. lia. }
  split_and!; [done | | | | | | |].
  - rewrite shrink_items. unfold enqueued_elements. by rewrite Hent.
  - rewrite shrink_unfold. unfold count. cbn [_heap]. apply length_concat_pairs.
  - rewrite shrink_unfold. unfold count. simpl. by rewrite length_fmap, length_seq.
  - by rewrite shrink_unfold.
  - by rewrite shrink_unfold.
  - by rewrite shrink_unfold.
  - by rewrite shrink_unfold.
Qed.

(** In every state, a second [shrink] changes nothing. *)
Theorem shrink_idempotent q : shrink (shrink q) = shrink q.
Proof.
  destruct (shrink_fields q) as (Hk & Hn & _ & Hs).
  etrans; [apply shrink_unfold|]. symmetry. etrans; [apply shrink_unfold|]. symmetry.
  rewrite Hk, Hn. f_equal.
  - f_equal. apply list_fmap_ext. intros i j Hj%lookup_seq.
    destruct (Hs j ltac:(lia)) as [Hsl _]. unfold slot in Hsl. injection Hsl as Hp _.
    by rewrite Hp.
  - apply list_fmap_ext. intros i j Hj%lookup_seq.
    destruct (Hs j ltac:(lia)) as [Hsl Hget]. unfold slot in Hsl. injection Hsl as _ Hl.
    rewrite Hl. simpl. by rewrite Hget.
Qed.

(** ** The element store and the stack of freed indexes *)

Lemma dequeue_fields q :
  _heap_size q ≠ 0 →
  _elems (dequeue q).2 = _elems q ∧
  _elems_undefined (dequeue q).2 = _elems_undefined q ∧
  _elems_size (dequeue q).2 = _elems_size q ∧
  _exited_indexes (dequeue q).2
  = js_set (_exited_indexes q) (_exited_indexes_count q) (heap_link (_heap q) 0) ∧
  _exited_indexes_count (dequeue q).2 = S (_exited_indexes_count q) ∧
  _heap_size (dequeue q).2 = _heap_size q - 1 ∧ _k (dequeue q).2 = _k q.
Proof. intros Hn. unfold dequeue. by rewrite decide_False. Qed.

Lemma enqueue_fields elem priority q :
  _elems (enqueue elem priority q) = _elems (_addElem elem q).2 ∧
  _elems_undefined (enqueue elem priority q) = _elems_undefined (_addElem elem q).2 ∧
  _elems_size (enqueue elem priority q) = _elems_size (_addElem elem q).2 ∧
  _exited_indexes (enqueue elem priority q) = _exited_indexes (_addElem elem q).2 ∧
  _exited_indexes_count (enqueue elem priority q)
  = _exited_indexes_count (_addElem elem q).2 ∧
  _heap_size (enqueue elem priority q) = S (_heap_size q) ∧
  _k (enqueue elem priority q) = _k q.
Proof.
  unfold enqueue. destruct (addElem_heap elem q) as (_ & Hk & Hn).
  destruct (_addElem elem q) as [index q1]. simpl in *. by rewrite Hk, Hn.
Qed.

Lemma replace_root_fields elem priority q :
  _elems_size (replace_root elem priority q).2 = _elems_size q ∧
  _exited_indexes (replace_root elem priority q).2 = _exited_indexes q ∧
  _exited_indexes_count (replace_root elem priority q).2 = _exited_indexes_count q ∧
  _heap_size (replace_root elem priority q).2 = _heap_size q ∧
  _k (replace_root elem priority q).2 = _k q.
Proof. unfold replace_root. simpl. by destruct (heap_link _ 0). Qed.

Lemma enqueue_balanced elem priority q : balanced q → balanced (enqueue elem priority q).
Proof.
  unfold balanced. intros Hb.
  destruct (enqueue_fields elem priority q) as (_ & _ & -> & _ & -> & -> & _).
  unfold _addElem. case_decide; [destruct (js_get _ _)|]; simpl; lia.
Qed.

Lemma perform_balanced (op : operation T) q :
  no_bulk_step op q → balanced q → balanced (perform op q).
Proof.
  intros Hstep Hb. destruct op as [e p| | |e p|e p|rg| |]; simpl in *.
  - by apply enqueue_balanced.
  - unfold balanced in *. unfold dequeue. case_decide; simpl; lia.
  - unfold peek. by case_decide.
  - unfold enqueueDequeue. case_match; [done|].
    destruct (replace_root_fields e p q) as (He & _ & Hc & Hn & _).
    destruct (replace_root e p q). unfold balanced in *. simpl in *. lia.
  - unfold dequeueEnqueue. case_decide; [done|].
    destruct (replace_root_fields e p q) as (He & _ & Hc & Hn & _).
    destruct (replace_root e p q). unfold balanced in *. simpl in *. lia.
  - unfold enqueueRange. unfold count in Hstep. rewrite Hstep. clear Hstep.
    unfold enqueue_all. revert q Hb.
    induction rg as [|item rest IH]; intros q Hb; simpl; [done|].
    by apply IH, enqueue_balanced.
  - done.
  - rewrite shrink_unfold. unfold balanced. simpl. lia.
Qed.

Lemma run_balanced (ops : list (operation T)) q :
  no_bulk_run ops q → balanced q → balanced (run ops q).
Proof.
  unfold run. revert q. induction ops as [|op ops IH]; intros q Hrun Hb; [done|].
  destruct Hrun as [Hstep Hrun]. simpl. apply IH; [done|]. by apply perform_balanced.
Qed.

(** As long as [enqueueRange] does not take its bulk path, the element
    store never holds an idle cell: in every state reached from the
    constructor its length is [count] plus the number of freed indexes
    that wait for reuse. *)
Theorem store_size_balance (ops : list (operation T)) range k :
  1 ≤ k → no_bulk_run ops (constructor range k) →
  length (_elems (run ops (constructor range k)))
  = count (run ops (constructor range k))
    + _exited_indexes_count (run ops (constructor range k)).
Proof.
  intros Hk Hrun.
  destruct (run_queue_inv ops range k Hk) as [(_ & _ & _ & _ & -> & _) _].
  apply run_balanced; [done|]. unfold balanced.
  destruct (constructor_fields range k) as (_ & -> & _ & _ & -> & _ & ->). lia.
Qed.

(** The link of a live heap position leads to a cell of the store that
    holds an element and is not freed. *)
Lemma live_cell q i :
  store_inv q → i < _heap_size q →
  ∃ l e, heap_link (_heap q) i = Some l ∧ l < length (_elems q) ∧
         (l ∉ exited_set q) ∧ _elems q !! l = Some (stored (Some e)) ∧
         elems_get q (heap_link (_heap q) i) = Some e.
Proof.
  intros (Hl & _ & _ & _ & Hlen & Hcell) Hi.
  destruct (Hl i Hi) as (l & Hlink & Hlt & Hnex).
  destruct (Hcell l Hlt) as (e & He).
  exists l, e. split_and!; try done; [lia|].
  rewrite Hlink. simpl. by apply js_get_Some.
Qed.

Lemma cell_visible q l v :
  _elems q !! l = Some (stored v) → l ∉ exited_set q → v ∈ unorderedItems q.
Proof.
  intros Hcell Hnex.
  apply list_elem_of_split_length in Hcell as (L & R & Hsplit & Hlen).
  rewrite unorderedItems_visible, Hsplit, visible_middle.
  rewrite <- Hlen. rewrite bool_decide_eq_false_2 by done. simpl.
  apply elem_of_app. right. apply list_elem_of_here.
Qed.

(** In a state that satisfies the invariant of the store, a [dequeue]
    followed by an [enqueue] reuses the cell of the dequeued element: the
    new element is written over it, the store does not grow and the stack
    of freed indexes is as high as before. *)
Theorem dequeue_enqueue_reuses_cell elem priority q :
  1 ≤ _k q → store_inv q → count q ≠ 0 →
  ∃ l e,
    heap_link (_heap q) 0 = Some l ∧ (dequeue q).1 = Return (Some e) ∧
    _elems q !! l = Some (stored (Some e)) ∧
    _elems (enqueue elem priority (dequeue q).2) = <[l := stored (Some elem)]> (_elems q) ∧
    _elems_size (enqueue elem priority (dequeue q).2) = _elems_size q ∧
    _exited_indexes_count (enqueue elem priority (dequeue q).2)
    = _exited_indexes_count q.
Proof.
  unfold count. intros _ Hst Hn.
  destruct (live_cell q 0 Hst ltac:(lia)) as (l & e & Hlink & Hlt & _ & Hcell & Hget).
  destruct (dequeue_fields q Hn) as (Hel & Hu & Hes & Hex & Hec & _).
  destruct (enqueue_fields elem priority (dequeue q).2) as (-> & _ & -> & _ & -> & _).
  assert ((_addElem elem (dequeue q).2).2
          = mkQueue (_heap (dequeue q).2) (_k (dequeue q).2) (_heap_size (dequeue q).2)
                    (<[l := stored (Some elem)]> (_elems q)) (_elems_undefined q)
                    (_elems_size q) (_exited_indexes (dequeue q).2)
                    (_exited_indexes_count q)) as ->.
  { unfold _addElem. rewrite decide_True by lia.
    rewrite Hec, Hex, Hel, Hu, Hes.
    replace (S (_exited_indexes_count q) - 1) with (_exited_indexes_count q) by lia.
    rewrite js_get_set_eq, Hlink. simpl. unfold js_set at 1.
    by rewrite decide_True by done. }
  exists l, e. split_and!; try done.
  unfold dequeue. rewrite decide_False by done. cbn [fst]. by rewrite <- Hget.
Qed.

(** In a state that satisfies the invariant of the store, an element
    enqueued into an empty queue is the one that [peek] and [dequeue]
    return next, whatever its priority, and the queue is empty again
    afterwards. *)
Theorem enqueue_dequeue_round_trip elem priority q :
  1 ≤ _k q → store_inv q → count q = 0 →
  (peek (enqueue elem priority q)).1 = Return (Some elem) ∧
  (dequeue (enqueue elem priority q)).1 = Return (Some elem) ∧
  count (dequeue (enqueue elem priority q)).2 = 0.
Proof.
  unfold count. intros Hk Hst Hn.
  destruct (enqueue_spec elem priority q Hk Hst) as (_ & _ & Hn' & Hent).
  unfold entries in Hent. rewrite Hn', Hn in Hent. simpl in Hent.
  apply Permutation_singleton_r in Hent. injection Hent as He _.
  unfold peek, dequeue. rewrite !decide_False by lia. cbn [fst snd].
  split_and!; [by rewrite He | by rewrite <- He | simpl; lia].
Qed.

(** In every state reached from the constructor, whatever the operations
    and the priorities were, [peek] and [dequeue] on a non-empty queue
    return an element, never [undefined], and that element is one of
    [unorderedItems]. *)
Theorem reachable_root_defined (ops : list (operation T)) range k :
  1 ≤ k → count (run ops (constructor range k)) ≠ 0 →
  ∃ e,
    (peek (run ops (constructor range k))).1 = Return (Some e) ∧
    (dequeue (run ops (constructor range k))).1 = Return (Some e) ∧
    Some e ∈ unorderedItems (run ops (constructor range k)).
Proof.
  intros Hk. destruct (run_queue_inv ops range k Hk) as [Hst _].
  generalize dependent (run ops (constructor range k)). intros q Hst Hn.
  unfold count in Hn.
  destruct (live_cell q 0 Hst ltac:(lia)) as (l & e & Hlink & _ & Hnex & Hcell & Hget).
  exists e. unfold peek, dequeue. rewrite !decide_False by done. cbn [fst].
  split_and!; [by rewrite Hget | by rewrite <- Hget | by eapply cell_visible].
Qed.

(** As long as [enqueueRange] does not take its bulk path, in every state
    reached from the constructor [unorderedItems] holds the elements of
    the enqueued pairs, each once per pair, so it is [count] long. *)
Theorem unorderedItems_counted (ops : list (operation T)) range k :
  1 ≤ k → no_bulk_run ops (constructor range k) →
  unorderedItems (run ops (constructor range k))
  ≡ₚ enqueued_elements (run ops (constructor range k)) ∧
  length (unorderedItems (run ops (constructor range k)))
  = count (run ops (constructor range k)).
Proof.
  intros Hk Hrun. pose proof (run_items_inv ops range k Hk Hrun) as Hperm.
  split; [done|]. rewrite Hperm. unfold enqueued_elements, entries, count.
  by rewrite !length_fmap, length_seq.
Qed.

(** ** [enqueueRange] *)



Lemma enqueue_all_items range q :
  1 ≤ _k q → store_inv q →
  unorderedItems (enqueue_all range q)
  ≡ₚ ((λ item, Some (element item)) <$> range) ++ unorderedItems q.
Proof.
  unfold enqueue_all. revert q.
  induction range as [|item rest IH]; intros q Hk Hst; simpl; [done|].
  destruct (enqueue_spec (element item) (priority item) q Hk Hst) as (Hst' & Hk' & _).
  rewrite IH by (by rewrite ?Hk').
  rewrite enqueue_items by done. by rewrite Permutation_middle.
Qed.

(** On its one-at-a-time path, in a state that satisfies the invariant of
    the store, [enqueueRange] enqueues every pair of the range: [count]
    grows by the length of the range, the enqueued pairs gain exactly the
    pairs of the range and [unorderedItems] their elements; the invariant
    holds again, and so does the heap order when the priorities are below
    the sentinel. *)
Theorem enqueueRange_one_at_a_time range q :
  1 ≤ _k q → store_inv q →
  below_log_threshold (length range) (count q) = true →
  count (enqueueRange range q) = count q + length range ∧
  entries (enqueueRange range q) ≡ₚ (entry_of <$> range) ++ entries q ∧
  unorderedItems (enqueueRange range q)
  ≡ₚ ((λ item, Some (element item)) <$> range) ++ unorderedItems q ∧
  store_inv (enqueueRange range q) ∧
  (Forall (λ item, below_sentinel (priority item)) range → heap_inv q →
   heap_inv (enqueueRange range q)).
Proof.
  unfold count. intros Hk Hst Hth. unfold enqueueRange. rewrite Hth.
  destruct (enqueue_all_spec range q Hk Hst) as (Hst' & _ & Hn & Hent).
  split_and!; try done.
  - by apply enqueue_all_items.
  - intros. by apply enqueue_all_heap_inv.
Qed.

(** The edges of the choice between the two paths of [enqueueRange], in
    every state with a branching factor of at least [1]: an empty range changes nothing; on a queue that counts no
    element the bulk path is taken, so that the queue still counts none
    and [peek] and [dequeue] throw; on a queue that counts one element
    the pairs are enqueued one at a time and all of them are counted. *)
Theorem enqueueRange_edge_cases range q :
  1 ≤ _k q →
  enqueueRange [] q = q ∧
  (count q = 0 →
   count (enqueueRange range q) = 0 ∧
   (peek (enqueueRange range q)).1 = Throw empty_error ∧
   (dequeue (enqueueRange range q)).1 = Throw empty_error) ∧
  (count q = 1 →
   enqueueRange range q = enqueue_all range q ∧
   count (enqueueRange range q) = 1 + length range).
Proof.
  intros _. unfold count. split_and!.
  - unfold enqueueRange, heapify_sweep. simpl.
    destruct (_heap_size q) as [|[|n]] eqn:Hn; simpl; [done | done |].
    rewrite bool_decide_eq_true_2; [done|].
    apply (Nat.pow_gt_1 2 (S (S n))); lia.
  - intros Hn.
    assert (_heap_size (enqueueRange range q) = 0) as Hn'.
    { unfold enqueueRange. rewrite Hn. simpl.
      destruct (heapify_sweep_fields (enqueueRange_load 0 range q)) as (_ & -> & _).
      by destruct (enqueueRange_load_prefix range 0 q) as (_ & -> & _). }
    unfold peek, dequeue. by rewrite !decide_True.
  - intros Hn. unfold enqueueRange. rewrite Hn. simpl.
    split; [done|]. rewrite enqueue_all_count. lia.
Qed.

(** ** [enqueue] and the root *)

(** [_restoreUp] never moves a pair to the root whose priority is not
    below the priority of the root. *)
Lemma restoreUp_loop_root f k h c p p0 :
  1 ≤ k → 0 < c → heap_prio h c = Some p → heap_prio h 0 = Some p0 → (p0 ≤ p)%Z →
  slot (restoreUp_loop f k h c) 0 = slot h 0.
Proof.
  intros Hk. revert h c. induction f as [|f IH]; intros h c Hc Hp Hp0 Hle; simpl; [done|].
  destruct c as [|c']; [lia|].
  destruct (js_lt (heap_prio h (S c')) (heap_prio h (c' / k))) eqn:Hlt; [|done].
  assert (c' / k ≠ 0) as Hpar.
  { intros Hz. rewrite Hz, Hp, Hp0 in Hlt. simpl in Hlt.
    apply Z.ltb_lt in Hlt. lia. }
  assert (c' / k < S c') as Hparlt.
  { pose proof (Nat.Div0.div_le_upper_bound c' k c'). nia. }
  rewrite IH.
  - rewrite slot_swap. unfold transpose. by rewrite !decide_False by lia.
  - lia.
  - rewrite heap_prio_swap. by rewrite decide_True.
  - rewrite heap_prio_swap. by rewrite !decide_False by lia.
  - done.
Qed.

Lemma enqueue_root_kept elem priority q p0 :
  1 ≤ _k q → store_inv q → _heap_size q ≠ 0 →
  heap_prio (_heap q) 0 = Some p0 → (p0 ≤ priority)%Z →
  entry (enqueue elem priority q) 0 = entry q 0.
Proof.
  intros Hk Hst Hn Hp0 Hle. unfold enqueue.
  destruct (addElem_spec elem q Hst)
    as (x & q1 & -> & _ & Hh & Hk1 & Hn1 & Hu & _ & _ & Hfresh & _ & Hother).
  cbv zeta. rewrite Hh, Hk1, Hn1.
  set (h2 := js_set (js_set (_heap q) (_heap_size q * 2) (Some priority)) _ _).
  assert (∀ j, slot h2 j
    = if decide (_heap_size q = j) then (Some priority, Some x) else slot (_heap q) j)
    as Hslot by (intros j; apply (slot_set_pair _ _ _ (Some x))).
  pose proof (Hslot 0) as Hs0. rewrite decide_False in Hs0 by done.
  pose proof (Hslot (_heap_size q)) as Hsn. rewrite decide_True in Hsn by done.
  apply slot_eq_inv in Hs0 as [Hp0' Hl0].
  unfold slot in Hsn. injection Hsn as Hpn _.
  unfold _restoreUp. cbn [_heap _k _heap_size set_heap].
  replace (S (_heap_size q) - 1) with (_heap_size q) by lia.
  pose proof (restoreUp_loop_root (_heap_size q) (_k q) h2 (_heap_size q) priority p0
                Hk ltac:(lia) Hpn ltac:(by rewrite Hp0') Hle) as Hroot.
  apply slot_eq_inv in Hroot as [Hrp Hrl].
  unfold entry. cbn [_heap set_heap]. rewrite Hrp, Hrl, Hp0', Hl0. f_equal.
  destruct (heap_link (_heap q) 0) as [l|] eqn:Hl; simpl; [|done].
  apply Hother. intros ->. by apply (Hfresh 0); [lia|].
Qed.

(** In a state that satisfies the invariants, with a priority below the
    sentinel: an element enqueued with a priority below every priority of
    the queue is the one that [peek] returns next; after an [enqueue] with
    a priority that is not below the least one, [peek] returns the
    element that it returned before. *)
Theorem enqueue_and_peek elem priority q :
  heap_inv q → store_inv q → below_sentinel priority →
  ((∀ x, x ∈ entries q → ∃ p', x.2 = Some p' ∧ (priority < p')%Z) →
   (peek (enqueue elem priority q)).1 = Return (Some elem)) ∧
  (∀ p0, count q ≠ 0 → heap_prio (_heap q) 0 = Some p0 → (p0 ≤ priority)%Z →
   (peek (enqueue elem priority q)).1 = (peek q).1).
Proof.
  unfold count. intros Hinv Hst Hp. pose proof Hinv as (Hk & _ & _).
  destruct (enqueue_spec elem priority q Hk Hst) as (Hst' & _ & Hn' & Hent).
  split.
  - intros Hless.
    pose proof (enqueue_heap_inv elem priority q Hp Hinv) as Hinv'.
    pose proof Hinv' as (_ & Hok' & _).
    destruct (entry_defined _ 0 Hst' Hok' ltac:(lia))
      as (l & e & p & _ & _ & _ & _ & _ & _ & He).
    unfold peek. rewrite decide_False by lia. cbn [fst]. f_equal.
    assert (entry (enqueue elem priority q) 0 ∈ (Some elem, Some priority) :: entries q)
      as Hin by (rewrite <- Hent; apply entries_lookup; lia).
    assert (elems_get (enqueue elem priority q)
              (heap_link (_heap (enqueue elem priority q)) 0) = Some e) as ->
      by (unfold entry in He; by injection He).
    rewrite He in Hin. apply elem_of_cons in Hin as [[= -> _]|Hin]; [done|].
    destruct (Hless _ Hin) as (p' & [= <-] & Hlt).
    destruct (root_entry_min (enqueue elem priority q) (Some elem, Some priority) Hinv')
      as (m & p'' & Hm & [= <-] & Hle).
    { rewrite Hent. apply list_elem_of_here. }
    rewrite He in Hm. injection Hm as <-. lia.
  - intros p0 Hn Hp0 Hle.
    pose proof (enqueue_root_kept elem priority q p0 Hk Hst Hn Hp0 Hle) as He.
    unfold entry in He. injection He as He _.
    unfold peek. rewrite !decide_False by lia. cbn [fst]. by rewrite He.
Qed.

(** ** [_restoreDown] and [_restoreUp] *)

(** [_restoreDown] does not see a child whose priority is not below
    [Number.MAX_SAFE_INTEGER]: at a position whose children inside the
    heap all hold such priorities it changes nothing, whatever the
    priority of the position itself is. *)
Theorem restoreDown_sentinel_children c q :
  (∀ j p, 1 ≤ j ≤ _k q → _k q * c + j < _heap_size q →
          heap_prio (_heap q) (_k q * c + j) = Some p → (MAX_SAFE_INTEGER ≤ p)%Z) →
  _restoreDown c q = q.
Proof.
  intros Hch.
  assert (min_child_scan (_heap q) (_k q) (_heap_size q) c = (MAX_SAFE_INTEGER, 0)) as Hscan.
  { unfold min_child_scan.
    assert (∀ m, m ≤ _k q →
              foldl (min_child_step (_heap q) (_k q) (_heap_size q) c)
                    (MAX_SAFE_INTEGER, 0) (seq 1 m) = (MAX_SAFE_INTEGER, 0)) as Hgen.
    { induction m as [|m IH]; intros Hm; [done|].
      rewrite min_child_scan_snoc, IH by lia. unfold min_child_step.
      case_decide as Hin; [|done].
      destruct (heap_prio (_heap q) (_k q * c + S m)) as [p|] eqn:Hp; [|done].
      specialize (Hch (S m) p ltac:(lia) Hin Hp). simpl.
      by destruct (Z.ltb_spec p MAX_SAFE_INTEGER); [lia|]. }
    by apply Hgen. }
  assert (∀ f, restoreDown_loop f (_k q) (_heap_size q) (_heap q) c = _heap q) as Hloop.
  { intros [|f]; simpl; [done|]. rewrite Hscan. by rewrite decide_True. }
  unfold _restoreDown. rewrite Hloop. by destruct q.
Qed.

Lemma restoreDown_entries c q : entries (_restoreDown c q) ≡ₚ entries q.
Proof. apply entries_perm; try done. apply restoreDown_loop_slots. Qed.

(** [_restoreDown(c)] repairs a heap that is out of order below [c] only:
    when the priorities are below the sentinel, every position whose
    parent is not [c] is in order with its parent, and the children of [c]
    are in order with the parent of [c], then after the call the whole
    heap is in order; the call only permutes the enqueued pairs. *)
Theorem restoreDown_repairs c q :
  1 ≤ _k q → prio_ok (_heap q) (_heap_size q) →
  (∀ i, 0 < i < _heap_size q → parent (_k q) i ≠ c →
        (pr (_heap q) (parent (_k q) i) ≤ pr (_heap q) i)%Z) →
  (0 < c → ∀ i, 0 < i < _heap_size q → parent (_k q) i = c →
        (pr (_heap q) (parent (_k q) c) ≤ pr (_heap q) i)%Z) →
  heap_inv (_restoreDown c q) ∧ min_heap_property (_restoreDown c q) ∧
  entries (_restoreDown c q) ≡ₚ entries q ∧
  count (_restoreDown c q) = count q ∧
  unorderedItems (_restoreDown c q) = unorderedItems q.
Proof.
  intros Hk Hok Hrest Hch.
  assert (heap_inv (_restoreDown c q)) as Hinv.
  { destruct (restoreDown_heap_inv_from q c 0 Hk Hok ltac:(lia)) as [Hok' Ho'].
    - intros i Hi _ Hne. by apply Hrest.
    - intros Hc _ i Hi Hpar. by apply Hch.
    - by split_and!. }
  split_and!; [done | by apply heap_inv_min_heap_property
               | apply restoreDown_entries | done | done].
Qed.

(** [_restoreUp(c)] repairs a heap that is out of order above [c] only:
    when the priorities are below the sentinel, every position other
    than [c] is in order with its parent, and the children of [c] are in
    order with the parent of [c], then after the call the whole heap is in
    order; the call only permutes the enqueued pairs. *)
Theorem restoreUp_repairs c q :
  1 ≤ _k q → prio_ok (_heap q) (_heap_size q) → c < _heap_size q →
  (∀ i, 0 < i < _heap_size q → i ≠ c →
        (pr (_heap q) (parent (_k q) i) ≤ pr (_heap q) i)%Z) →
  (0 < c → ∀ i, 0 < i < _heap_size q → parent (_k q) i = c →
        (pr (_heap q) (parent (_k q) c) ≤ pr (_heap q) i)%Z) →
  heap_inv (_restoreUp c q) ∧ min_heap_property (_restoreUp c q) ∧
  entries (_restoreUp c q) ≡ₚ entries q ∧
  count (_restoreUp c q) = count q ∧
  unorderedItems (_restoreUp c q) = unorderedItems q.
Proof.
  intros Hk Hok Hc Hrest Hch.
  assert (slots (_heap (_restoreUp c q)) (_heap_size q) ≡ₚ slots (_heap q) (_heap_size q))
    as Hperm by (by apply restoreUp_loop_slots).
  assert (heap_inv (_restoreUp c q)) as Hinv.
  { split_and!; [done | by eapply prio_ok_perm |].
    by apply restoreUp_loop_ordered. }
  split_and!; [done | by apply heap_inv_min_heap_property | | done | done].
  by apply entries_perm.
Qed.

(** On a heap that is in order, with priorities below the sentinel,
    [_restoreDown] and [_restoreUp] at any position and the heapify sweep
    change nothing. *)
Theorem restore_in_order_heap c q :
  heap_inv q →
  _restoreDown c q = q ∧ (c < _heap_size q → _restoreUp c q = q) ∧
  heapify_sweep q = q.
Proof.
  intros Hinv. split_and!; [by apply restoreDown_noop | | by apply heapify_sweep_noop].
  destruct Hinv as (Hk & Hok & Ho). intros Hc. unfold _restoreUp.
  assert (restoreUp_loop c (_k q) (_heap q) c = _heap q) as ->; [|by destruct q].
  destruct c as [|c']; simpl; [done|].
  specialize (Ho (S c') ltac:(lia) ltac:(lia)). unfold parent in Ho.
  rewrite Nat.sub_succ, Nat.sub_0_r in Ho.
  assert (c' / _k q < _heap_size q) as Hpar.
  { pose proof (Nat.Div0.div_le_upper_bound c' (_k q) c'). nia. }
  destruct (prio_ok_pr _ _ (S c') Hok Hc) as [-> _].
  destruct (prio_ok_pr _ _ (c' / _k q) Hok Hpar) as [-> _].
  simpl. by destruct (Z.ltb_spec (pr (_heap q) (S c')) (pr (_heap q) (c' / _k q))); [lia|].
Qed.

(** ** The fused operations and their compositions *)

Lemma enqueue_least_entry elem priority q :
  heap_inv q → store_inv q → below_sentinel priority →
  (∀ x, x ∈ entries q → ∃ p', x.2 = Some p' ∧ (priority < p')%Z) →
  entry (enqueue elem priority q) 0 = (Some elem, Some priority).
Proof.
  intros Hinv Hst Hp Hless. pose proof Hinv as (Hk & _ & _).
  destruct (enqueue_spec elem priority q Hk Hst) as (Hst' & _ & Hn' & Hent).
  pose proof (enqueue_heap_inv elem priority q Hp Hinv) as Hinv'.
  pose proof Hinv' as (_ & Hok' & _).
  destruct (entry_defined _ 0 Hst' Hok' ltac:(lia))
    as (l & e & p & _ & _ & _ & _ & _ & _ & He).
  assert (entry (enqueue elem priority q) 0 ∈ (Some elem, Some priority) :: entries q)
    as Hin by (rewrite <- Hent; apply entries_lookup; lia).
  rewrite He in Hin |- *. apply elem_of_cons in Hin as [Heq|Hin]; [done|].
  destruct (Hless _ Hin) as (p' & [= <-] & Hlt).
  destruct (root_entry_min (enqueue elem priority q) (Some elem, Some priority) Hinv')
    as (m & p'' & Hm & [= <-] & Hle).
  { rewrite Hent. apply list_elem_of_here. }
  rewrite He in Hm. injection Hm as <-. lia.
Qed.

(** In a state that satisfies the invariant of the store, on a non-empty
    queue, [dequeueEnqueue] returns what [dequeue] returns and leaves the
    enqueued pairs that [dequeue] followed by [enqueue] leaves. *)
Theorem dequeueEnqueue_as_composition elem priority q :
  1 ≤ _k q → store_inv q → count q ≠ 0 →
  (dequeueEnqueue elem priority q).1 = (dequeue q).1 ∧
  entries (dequeueEnqueue elem priority q).2
  ≡ₚ entries (enqueue elem priority (dequeue q).2) ∧
  count (dequeueEnqueue elem priority q).2
  = count (enqueue elem priority (dequeue q).2).
Proof.
  unfold count. intros Hk Hst Hn.
  destruct (replace_root_spec elem priority q Hst ltac:(lia))
    as (Hr & _ & _ & Hn' & (tail & Ht & Ht') & _).
  destruct (dequeue_entries q Hn) as (q' & Hdq & Hnq' & Hkq' & Hperm).
  pose proof (dequeue_store_inv q Hst) as Hst'. rewrite Hdq in Hst' |- *.
  cbn [fst snd] in *.
  destruct (enqueue_spec elem priority q' ltac:(by rewrite Hkq') Hst')
    as (_ & _ & Hne & Hent).
  unfold dequeueEnqueue. rewrite decide_False by done.
  destruct (replace_root elem priority q) as [r q'']. cbn [fst snd] in *.
  split_and!.
  - by rewrite Hr.
  - rewrite Ht', Hent. f_equiv. rewrite Ht in Hperm.
    by apply Permutation_cons_inv in Hperm.
  - lia.
Qed.

(** In a state that satisfies the invariants, on a non-empty queue and
    with a priority below the sentinel that differs from the least
    priority of the queue, [enqueueDequeue] returns what [enqueue]
    followed by [dequeue] returns and leaves the same enqueued pairs.
    (With a priority equal to the least one, [enqueueDequeue] returns the
    new element, [enqueue] followed by [dequeue] the element of the
    root.) *)
Theorem enqueueDequeue_as_composition elem priority q p0 :
  heap_inv q → store_inv q → count q ≠ 0 → below_sentinel priority →
  heap_prio (_heap q) 0 = Some p0 →
  (priority ≠ p0 →
   (enqueueDequeue elem priority q).1 = (dequeue (enqueue elem priority q)).1 ∧
   entries (enqueueDequeue elem priority q).2
   ≡ₚ entries (dequeue (enqueue elem priority q)).2) ∧
  (priority = p0 →
   (enqueueDequeue elem priority q).1 = Return (Some elem) ∧
   (dequeue (enqueue elem priority q)).1 = (peek q).1).
Proof.
  unfold count. intros Hinv Hst Hn Hp Hp0. pose proof Hinv as (Hk & _ & _).
  destruct (enqueue_spec elem priority q Hk Hst) as (_ & _ & Hn' & Hent).
  destruct (dequeue_entries (enqueue elem priority q) ltac:(lia))
    as (q' & Hdq & _ & _ & Hperm).
  rewrite Hdq. cbn [fst snd].
  change (elems_get (enqueue elem priority q)
            (heap_link (_heap (enqueue elem priority q)) 0))
    with (entry (enqueue elem priority q) 0).1.
  assert ((p0 ≤ priority)%Z → entry (enqueue elem priority q) 0 = entry q 0) as Hkept
    by (intros; by apply (enqueue_root_kept elem priority q p0)).
  split.
  - intros Hne. destruct (Z.lt_total priority p0) as [Hlt|[?|Hgt]]; [|done|].
    + assert (entry (enqueue elem priority q) 0 = (Some elem, Some priority)) as He.
      { apply enqueue_least_entry; try done.
        intros x Hx. destruct (root_entry_min q x Hinv Hx) as (m & p' & Hm & Hp' & Hle).
        unfold entry in Hm. simpl in Hm. rewrite Hp0 in Hm. injection Hm as <-.
        exists p'. split; [done | lia]. }
      rewrite He in Hperm |- *. rewrite Hent in Hperm.
      apply Permutation_cons_inv in Hperm.
      unfold enqueueDequeue.
      change (js_get (_heap q) 0) with (heap_prio (_heap q) 0). rewrite Hp0. simpl.
      destruct (Z.leb_spec priority p0); [|lia]. by split.
    + rewrite Hkept in Hperm |- * by lia.
      destruct (replace_root_spec elem priority q Hst ltac:(lia))
        as (Hr & _ & _ & _ & (tail & Ht & Ht') & _).
      unfold enqueueDequeue.
      change (js_get (_heap q) 0) with (heap_prio (_heap q) 0). rewrite Hp0.
      cbn [js_le]. destruct (Z.leb_spec priority p0); [lia|].
      destruct (replace_root elem priority q) as [r q'']. cbn [fst snd] in *.
      split; [by rewrite Hr|].
      rewrite Ht'. rewrite Hent, Ht in Hperm.
      rewrite (Permutation_swap (entry q 0) (Some elem, Some priority)) in Hperm.
      by apply Permutation_cons_inv in Hperm.
  - intros ->. split.
    + unfold enqueueDequeue.
      change (js_get (_heap q) 0) with (heap_prio (_heap q) 0). rewrite Hp0. simpl.
      by destruct (Z.leb_spec p0 p0); [|lia].
    + rewrite Hkept by lia. unfold peek. by rewrite decide_False.
Qed.

(** ** [_addElem] *)

(** In a state that satisfies the invariant of the store, [_addElem]
    stores the element in a cell that no live heap position links to and
    returns the index of that cell: the most recently freed index when
    there is one, which is taken off the stack while the store keeps its
    length, and otherwise a new cell at the end of the store.  No other
    cell changes, and the element joins [unorderedItems]. *)
Theorem addElem_contract elem q :
  store_inv q →
  ∃ x q1,
    _addElem elem q = (Some x, q1) ∧
    js_get (_elems q1) x = Some elem ∧
    (∀ l, l ≠ x → js_get (_elems q1) l = js_get (_elems q) l) ∧
    (∀ i, i < _heap_size q → heap_link (_heap q) i ≠ Some x) ∧
    unorderedItems q1 ≡ₚ Some elem :: unorderedItems q ∧
    store_inv q1 ∧
    (if decide (0 < _exited_indexes_count q)
     then js_get (_exited_indexes q) (_exited_indexes_count q - 1) = Some x ∧
          _exited_indexes_count q1 = _exited_indexes_count q - 1 ∧
          length (_elems q1) = length (_elems q)
     else x = length (_elems q) ∧ _exited_indexes_count q1 = 0 ∧
          length (_elems q1) = S (length (_elems q))).
Proof.
  intros Hst. pose proof (addElem_items elem q Hst) as Hitems.
  destruct (addElem_spec elem q Hst)
    as (x & q1 & Hadd & Hst1 & _ & _ & _ & _ & _ & _ & Hfresh & Hget & Hother).
  rewrite Hadd in Hitems. exists x, q1. split_and!; try done.
  destruct Hst as (_ & _ & Hex & _ & Hlen & _).
  unfold _addElem in Hadd. case_decide as Hc.
  - injection Hadd as Hx <-. rewrite Hx. simpl.
    destruct (Hex (_exited_indexes_count q - 1) ltac:(lia)) as (y & Hy & Hlt).
    rewrite Hy in Hx. injection Hx as ->.
    split_and!; [done | done |]. apply js_set_length_lt. lia.
  - injection Hadd as <- <-. simpl.
    split_and!; [lia | lia |]. rewrite js_set_length_ge; lia.
Qed.

(** ** The states reached from the constructor *)

(** Every state reached from the constructor by public operations, with a
    branching factor of at least [1], keeps that branching factor and
    satisfies the invariant of the store, whatever the priorities are and
    also after the bulk path of [enqueueRange]; it satisfies the
    invariant of the heap when all priorities are below the sentinel. *)
Theorem reachable_invariants (ops : list (operation T)) range k :
  1 ≤ k →
  _k (run ops (constructor range k)) = k ∧
  store_inv (run ops (constructor range k)) ∧
  links_bounded (run ops (constructor range k)) ∧
  (Forall (λ item, below_sentinel (priority item)) range →
   Forall (λ op, Forall below_sentinel (op_priorities op)) ops →
   heap_inv (run ops (constructor range k))).
Proof.
  intros Hk.
  assert (∀ q, 1 ≤ _k q → queue_inv q → _k (run ops q) = _k q) as Hgen.
  { unfold run. induction ops as [|op ops IH]; intros q Hkq Hinv; simpl; [done|].
    destruct (perform_queue_inv op q Hkq Hinv) as [Hinv' Hk'].
    rewrite IH; [done | by rewrite Hk' | done]. }
  destruct (run_queue_inv ops range k Hk) as [Hst Hlb].
  destruct (constructor_fields range k) as (Hkc & _).
  split_and!; [| done | done |].
  - rewrite Hgen, Hkc; [done | by rewrite Hkc | apply constructor_queue_inv].
  - intros Hrange Hops. apply run_heap_inv; [done|]. by apply constructor_heap_inv.
Qed.

End Further.

(** ** The helper [arrayEquals] of the tests *)

Section ArrayEquals.
Context {A : Type} `{EqDecision A}.

Lemma forallb_imap {B} (f : nat → B → bool) (l : list B) :
  forallb (λ r : bool, r) (imap f l) = true ↔ ∀ i x, l !! i = Some x → f i x = true.
Proof.
  revert f. induction l as [|y l IH]; intros f; simpl.
  - split; [by intros _ i x | done].
  - rewrite andb_true_iff, IH. split.
    + intros [Hy Hl] [|i] x Hx; simpl in Hx; [by injection Hx as <- | by apply Hl].
    + intros Hall. split; [by apply (Hall 0) | intros i x Hx; by apply (Hall (S i))].
Qed.

(** [arrayEquals(a, b)] holds exactly when the two arrays are equally long
    and [b] reads, at every index where [a] has a cell that is not a hole,
    the value of that cell; on arrays without holes that is the equality
    of the two arrays. *)
Theorem arrayEquals_spec (a b : js_array A) (xs ys : list (option A)) :
  (arrayEquals a b = true ↔
   length a = length b ∧ ∀ i val, a !! i = Some (stored val) → js_get b i = val) ∧
  (arrayEquals (stored <$> xs) (stored <$> ys) = true ↔ xs = ys).
Proof.
  assert (∀ a b : js_array A, arrayEquals a b = true ↔
    length a = length b ∧ ∀ i val, a !! i = Some (stored val) → js_get b i = val)
    as Hspec.
  { clear. intros a b. unfold arrayEquals.
    rewrite andb_true_iff, bool_decide_eq_true, forallb_imap.
    split; intros [Hlen Hall]; (split; [done|]).
    - intros i val Hi. specialize (Hall i _ Hi). simpl in Hall.
      by apply bool_decide_eq_true in Hall.
    - intros i [|val] Hi; [done|]. apply bool_decide_eq_true. symmetry. by apply Hall. }
  split; [apply Hspec|]. rewrite Hspec, !length_fmap. split.
  - intros [Hlen Hall]. apply list_eq_same_length with (length xs); [done | done |].
    intros i x y Hi Hx Hy.
    specialize (Hall i x). rewrite list_lookup_fmap, Hx in Hall.
    specialize (Hall eq_refl). unfold js_get in Hall.
    rewrite list_lookup_fmap, Hy in Hall. done.
  - intros ->. split; [done|]. intros i val Hi. unfold js_get. by rewrite Hi.
Qed.

End ArrayEquals.

(** ** Concrete inputs of the further properties *)

Lemma example_queue_heap_inv : heap_inv example_queue.
Proof. apply constructor_heap_inv; [lia | below_sentinel_all]. Qed.

Lemma example_queue_store_inv : store_inv example_queue.
Proof. apply constructor_store_inv. Qed.


Lemma steady_operations_no_bulk : no_bulk_run steady_operations (constructor example_range 4).
Proof. vm_compute. by repeat split. Qed.

(** The queue constructed from the six example pairs. *)
Lemma constructor_items_in_order_witness :
  count (constructor example_range 4) = 6 ∧
  unorderedItems (constructor example_range 4)
  = Some <$> ["a"; "b"; "c"; "d"; "e"; "f"]%string.
Proof.
  destruct (constructor_items_in_order example_range 4 ltac:(lia)) as (Hc & Hu & _).
  split; [exact Hc | exact Hu].
Defined.




(** [enqueue("g", 5)] on the queue of the example pairs. *)
Lemma enqueue_adds_pair_witness :
  count (enqueue "g"%string 5 example_queue) = S (count example_queue) ∧
  entries (enqueue "g"%string 5 example_queue)
  ≡ₚ (Some "g"%string, Some 5%Z) :: entries example_queue ∧
  unorderedItems (enqueue "g"%string 5 example_queue)
  ≡ₚ Some "g"%string :: unorderedItems example_queue.
Proof.
  destruct (enqueue_adds_pair "g"%string 5%Z example_queue
              ltac:(vm_compute; lia) example_queue_store_inv)
    as (Hc & Hent & Hu & _).
  split_and!; [exact Hc | exact Hent | exact Hu].
Defined.

(** [dequeueEnqueue] with a priority below the least one of the example pairs. *)
Lemma dequeueEnqueue_replaces_minimum_witness :
  ∃ e p0 tail A B,
    (peek example_queue).1 = Return (Some e) ∧
    (dequeueEnqueue "g"%string (-5) example_queue).1 = Return (Some e) ∧
    entries example_queue = (Some e, Some p0) :: tail ∧
    entries (dequeueEnqueue "g"%string (-5) example_queue).2
    ≡ₚ (Some "g"%string, Some (-5)%Z) :: tail ∧
    unorderedItems example_queue = A ++ Some e :: B ∧
    unorderedItems (dequeueEnqueue "g"%string (-5) example_queue).2
    = A ++ Some "g"%string :: B.
Proof.
  destruct (dequeueEnqueue_replaces_minimum "g"%string (-5)%Z example_queue
              example_queue_heap_inv example_queue_store_inv ltac:(by vm_compute)
              ltac:(by vm_compute))
    as (e & p0 & tail & A & B & H1 & H2 & H3 & _ & H5 & H6 & H7 & _).
  exists e, p0, tail, A, B.
  split_and!; [exact H1 | exact H2 | exact H3 | exact H5 | exact H6 | exact H7].
Defined.

(** The store after a run of operations without the bulk path. *)
Lemma store_size_balance_witness :
  length (_elems (run steady_operations (constructor example_range 4)))
  = count (run steady_operations (constructor example_range 4))
    + _exited_indexes_count (run steady_operations (constructor example_range 4)).
Proof.
  apply (store_size_balance steady_operations example_range 4);
    [lia | apply steady_operations_no_bulk].
Defined.

(** [dequeue] and then [enqueue] on the queue of the example pairs. *)
Lemma dequeue_enqueue_reuses_cell_witness :
  ∃ l e,
    heap_link (_heap example_queue) 0 = Some l ∧
    (dequeue example_queue).1 = Return (Some e) ∧
    _elems (enqueue "g"%string 5 (dequeue example_queue).2)
    = <[l := stored (Some "g"%string)]> (_elems example_queue) ∧
    _elems_size (enqueue "g"%string 5 (dequeue example_queue).2)
    = _elems_size example_queue.
Proof.
  destruct (dequeue_enqueue_reuses_cell "g"%string 5%Z example_queue
              ltac:(vm_compute; lia) example_queue_store_inv ltac:(by vm_compute))
    as (l & e & H1 & H2 & _ & H4 & H5 & _).
  exists l, e. split_and!; [exact H1 | exact H2 | exact H4 | exact H5].
Defined.

(** An empty queue that has held an element, and a priority above the sentinel. *)
Lemma enqueue_dequeue_round_trip_witness :
  (peek (enqueue "b"%string 9007199254740992 drained_queue)).1 = Return (Some "b"%string) ∧
  (dequeue (enqueue "b"%string 9007199254740992 drained_queue)).1
  = Return (Some "b"%string) ∧
  count (dequeue (enqueue "b"%string 9007199254740992 drained_queue)).2 = 0.
Proof.
  apply (enqueue_dequeue_round_trip "b"%string 9007199254740992%Z drained_queue).
  - vm_compute. lia.
  - apply (dequeue_store_inv (enqueue "a"%string 5%Z (constructor [] 4))).
    apply enqueue_spec; [vm_compute; lia | apply constructor_store_inv].
  - reflexivity.
Defined.

(** The state after the run of every public operation. *)
Lemma reachable_root_defined_witness :
  ∃ e,
    (peek (run example_operations (constructor example_range 4))).1 = Return (Some e) ∧
    (dequeue (run example_operations (constructor example_range 4))).1
    = Return (Some e) ∧
    Some e ∈ unorderedItems (run example_operations (constructor example_range 4)).
Proof.
  apply (reachable_root_defined example_operations example_range 4); [lia|].
  by vm_compute.
Defined.

(** [unorderedItems] after a run of operations without the bulk path. *)
Lemma unorderedItems_counted_witness :
  unorderedItems (run steady_operations (constructor example_range 4))
  ≡ₚ enqueued_elements (run steady_operations (constructor example_range 4)) ∧
  length (unorderedItems (run steady_operations (constructor example_range 4)))
  = count (run steady_operations (constructor example_range 4)).
Proof.
  apply (unorderedItems_counted steady_operations example_range 4);
    [lia | apply steady_operations_no_bulk].
Defined.


(** One pair offered to a queue of six: the one-at-a-time path. *)
Lemma enqueueRange_one_at_a_time_witness :
  count (enqueueRange single_pair example_queue) = count example_queue + 1 ∧
  entries (enqueueRange single_pair example_queue)
  ≡ₚ (entry_of <$> single_pair) ++ entries example_queue.
Proof.
  destruct (enqueueRange_one_at_a_time single_pair example_queue
              ltac:(vm_compute; lia) example_queue_store_inv ltac:(by vm_compute))
    as (Hc & Hent & _).
  split; [exact Hc | exact Hent].
Defined.

(** An empty range, an empty queue and a queue of one pair. *)
Lemma enqueueRange_edge_cases_witness :
  enqueueRange [] example_queue = example_queue ∧
  count (enqueueRange example_range (constructor [] 4)) = 0 ∧
  count (enqueueRange example_range (constructor single_pair 4)) = 7.
Proof.
  destruct (enqueueRange_edge_cases example_range example_queue ltac:(vm_compute; lia))
    as (Hnil & _).
  destruct (enqueueRange_edge_cases example_range (constructor [] 4)
              ltac:(vm_compute; lia))
    as (_ & Hempty & _).
  destruct (enqueueRange_edge_cases example_range (constructor single_pair 4)
              ltac:(vm_compute; lia))
    as (_ & _ & Hone).
  split_and!; [exact Hnil | apply Hempty; reflexivity | apply Hone; reflexivity].
Defined.

Lemma example_queue_root : heap_prio (_heap example_queue) 0 = Some (-1)%Z.
Proof. by vm_compute. Qed.

(** A priority below and a priority above the least one of the example pairs. *)
Lemma enqueue_and_peek_witness :
  (peek (enqueue "g"%string (-5) example_queue)).1 = Return (Some "g"%string) ∧
  (peek (enqueue "g"%string 5 example_queue)).1 = (peek example_queue).1.
Proof.
  split.
  - apply (enqueue_and_peek "g"%string (-5)%Z example_queue
             example_queue_heap_inv example_queue_store_inv ltac:(by vm_compute)).
    intros x Hx.
    destruct (root_entry_min example_queue x example_queue_heap_inv Hx)
      as (m & p & Hm & Hp & Hle).
    exists p. split; [exact Hp|].
    change ((entry example_queue 0).2) with (heap_prio (_heap example_queue) 0) in Hm.
    rewrite example_queue_root in Hm. injection Hm as <-. lia.
  - apply (enqueue_and_peek "g"%string 5%Z example_queue
             example_queue_heap_inv example_queue_store_inv ltac:(by vm_compute))
      with (p0 := (-1)%Z); [by vm_compute | apply example_queue_root | lia].
Defined.

(** A root with priority [2^53] above a child with priority [2^53 - 1]. *)
Lemma restoreDown_sentinel_children_witness :
  _restoreDown 0 (constructor_loaded sentinel_pair 4) = constructor_loaded sentinel_pair 4.
Proof.
  apply (restoreDown_sentinel_children 0 (constructor_loaded sentinel_pair 4)).
  intros j p Hj Hin Hp.
  change (_k (constructor_loaded sentinel_pair 4)) with 4 in *.
  change (_heap_size (constructor_loaded sentinel_pair 4)) with 2 in Hin.
  assert (j = 1) as -> by lia.
  vm_compute in Hp. injection Hp as <-. unfold MAX_SAFE_INTEGER. lia.
Defined.

(** The example pairs as loaded by the constructor: out of order at the root only. *)
Lemma restoreDown_repairs_witness :
  heap_inv (_restoreDown 0 (constructor_loaded example_range 4)) ∧
  min_heap_property (_restoreDown 0 (constructor_loaded example_range 4)) ∧
  entries (_restoreDown 0 (constructor_loaded example_range 4))
  ≡ₚ entries (constructor_loaded example_range 4).
Proof.
  destruct (restoreDown_repairs 0 (constructor_loaded example_range 4))
    as (Hinv & Hheap & Hent & _).
  - vm_compute. lia.
  - apply (constructor_load_prio_ok example_range). below_sentinel_all.
  - intros i Hi Hpar.
    change (_heap_size (constructor_loaded example_range 4)) with 6 in Hi.
    change (_k (constructor_loaded example_range 4)) with 4 in *.
    assert (i = 1 ∨ i = 2 ∨ i = 3 ∨ i = 4 ∨ i = 5) as Hcases by lia.
    destruct Hcases as [->|[->|[->|[->| ->]]]];
      try (exfalso; apply Hpar; reflexivity).
    vm_compute. discriminate.
  - lia.
  - split_and!; [exact Hinv | exact Hheap | exact Hent].
Defined.

(** Three pairs of which the last one is out of order. *)
Lemma restoreUp_repairs_witness :
  heap_inv (_restoreUp 2 (constructor_loaded unsorted_tail 4)) ∧
  min_heap_property (_restoreUp 2 (constructor_loaded unsorted_tail 4)) ∧
  entries (_restoreUp 2 (constructor_loaded unsorted_tail 4))
  ≡ₚ entries (constructor_loaded unsorted_tail 4).
Proof.
  destruct (restoreUp_repairs 2 (constructor_loaded unsorted_tail 4))
    as (Hinv & Hheap & Hent & _).
  - vm_compute. lia.
  - apply (constructor_load_prio_ok unsorted_tail). below_sentinel_all.
  - vm_compute. lia.
  - intros i Hi Hne.
    change (_heap_size (constructor_loaded unsorted_tail 4)) with 3 in Hi.
    assert (i = 1) as -> by lia. vm_compute. discriminate.
  - intros _ i Hi Hpar.
    change (_heap_size (constructor_loaded unsorted_tail 4)) with 3 in Hi.
    change (_k (constructor_loaded unsorted_tail 4)) with 4 in Hpar.
    assert (i = 1 ∨ i = 2) as [-> | ->] by lia; vm_compute in Hpar; lia.
  - split_and!; [exact Hinv | exact Hheap | exact Hent].
Defined.

(** The queue of the example pairs is in order. *)
Lemma restore_in_order_heap_witness :
  _restoreDown 1 example_queue = example_queue ∧
  _restoreUp 1 example_queue = example_queue ∧
  heapify_sweep example_queue = example_queue.
Proof.
  destruct (restore_in_order_heap 1 example_queue example_queue_heap_inv)
    as (Hdown & Hup & Hsweep).
  split_and!; [exact Hdown | apply Hup; vm_compute; lia | exact Hsweep].
Defined.

(** [dequeueEnqueue("g", 5)] and [dequeue] followed by [enqueue("g", 5)]. *)
Lemma dequeueEnqueue_as_composition_witness :
  (dequeueEnqueue "g"%string 5 example_queue).1 = (dequeue example_queue).1 ∧
  entries (dequeueEnqueue "g"%string 5 example_queue).2
  ≡ₚ entries (enqueue "g"%string 5 (dequeue example_queue).2).
Proof.
  destruct (dequeueEnqueue_as_composition "g"%string 5%Z example_queue
              ltac:(vm_compute; lia) example_queue_store_inv ltac:(by vm_compute))
    as (Hr & Hent & _).
  split; [exact Hr | exact Hent].
Defined.

(** [enqueueDequeue("g", 5)] and [enqueue("g", 5)] followed by [dequeue]. *)
Lemma enqueueDequeue_as_composition_witness :
  (enqueueDequeue "g"%string 5 example_queue).1
  = (dequeue (enqueue "g"%string 5 example_queue)).1 ∧
  entries (enqueueDequeue "g"%string 5 example_queue).2
  ≡ₚ entries (dequeue (enqueue "g"%string 5 example_queue)).2.
Proof.
  destruct (enqueueDequeue_as_composition "g"%string 5%Z example_queue (-1)%Z
              example_queue_heap_inv example_queue_store_inv ltac:(by vm_compute)
              ltac:(by vm_compute) example_queue_root)
    as (Hne & _).
  apply Hne. lia.
Defined.

(** The invariants after the run of every public operation. *)
Lemma reachable_invariants_witness :
  _k (run example_operations (constructor example_range 4)) = 4 ∧
  store_inv (run example_operations (constructor example_range 4)) ∧
  heap_inv (run example_operations (constructor example_range 4)).
Proof.
  destruct (reachable_invariants example_operations example_range 4 ltac:(lia))
    as (Hk & Hst & _ & Hheap).
  split_and!; [exact Hk | exact Hst |]. apply Hheap.
  - below_sentinel_all.
  - unfold example_operations. repeat (apply Forall_cons_2; [below_sentinel_all|]).
    apply Forall_nil_2.
Defined.

(** [_addElem] after a [dequeue]: a freed index is at hand. *)
Lemma addElem_contract_witness :
  ∃ x q1,
    _addElem "g"%string (dequeue example_queue).2 = (Some x, q1) ∧
    js_get (_elems q1) x = Some "g"%string ∧
    unorderedItems q1 ≡ₚ Some "g"%string :: unorderedItems (dequeue example_queue).2.
Proof.
  destruct (addElem_contract "g"%string (dequeue example_queue).2
              (dequeue_store_inv example_queue example_queue_store_inv))
    as (x & q1 & Hadd & Hget & _ & _ & Hitems & _).
  exists x, q1. split_and!; [exact Hadd | exact Hget | exact Hitems].
Defined.

(** [count] after [enqueueRange] on either path and after [dequeue]. *)
Lemma count_after_operation_witness :
  count (perform (op_enqueueRange example_range) example_queue) = 6 ∧
  count (perform (op_enqueueRange single_pair) example_queue) = 7 ∧
  count (perform op_dequeue example_queue) = 5 ∧
  count (perform op_dequeue (constructor ([] : list (IElementPriorityPair string)) 4)) = 0.
Proof.
  split_and!.
  - apply (count_after_operation (op_enqueueRange example_range) example_queue).
    vm_compute. lia.
  - apply (count_after_operation (op_enqueueRange single_pair) example_queue).
    vm_compute. lia.
  - apply (count_after_operation op_dequeue example_queue). vm_compute. lia.
  - apply (count_after_operation op_dequeue (constructor [] 4)). vm_compute. lia.
Defined.
